(** * gematria/datasets/find_accessed_addrs.cc

    A shallow embedding of the address-discovery loop: the pipe frame
    ([PipedData], [WriteAll], [ReadAll]), the ptrace supervisor
    ([ParentProcessInner], [ParentProcess]), the forked child
    ([AbortChildProcess], [ChildProcess]), one trial
    ([ForkAndTestAddresses]) and the driver ([FindAccessedAddrs]).

    The code talks to the kernel all the time.  A process is modelled as a
    computation over an [OS] state that holds [errno], the transcript of the
    answers the kernel will give to the system calls still to come, and the
    log of the calls issued so far.  Every loop of the source consumes at
    least one answer per iteration, so a finite transcript bounds every
    run. *)

From Stdlib Require Import ZArith Bool Lia String Ascii List.
From Stdlib.Strings Require Import Byte.
From Stdlib Require Import DecimalString HexadecimalString.
Import ListNotations.
Local Open Scope string_scope.
Local Open Scope list_scope.
Local Open Scope Z_scope.

Set Implicit Arguments.

(* ------------------------------------------------------------------ *)
(** ** Machine integers and object representations *)

(** [uintptr_t] and [size_t] are 64-bit unsigned. *)
Definition wrap64 (x : Z) : Z := x mod 2 ^ 64.

(** [int] is 32-bit two's complement. *)
Definition sign32 (x : Z) : Z :=
  let r := x mod 2 ^ 32 in if r <? 2 ^ 31 then r else r - 2 ^ 32.

Definition byte_of_Z (z : Z) : byte :=
  match Byte.of_N (Z.to_N (z mod 256)) with
  | Some b => b
  | None => x00
  end.

Definition Z_of_byte (b : byte) : Z := Z.of_N (Byte.to_N b).

(** Little-endian object representation of an integer of [n] bytes. *)
Fixpoint store_le (n : nat) (z : Z) : list byte :=
  match n with
  | O => []
  | S n' => byte_of_Z z :: store_le n' (Z.shiftr z 8)
  end.

Fixpoint load_le (bs : list byte) : Z :=
  match bs with
  | [] => 0
  | b :: bs' => Z.lor (Z_of_byte b) (Z.shiftl (load_le bs') 8)
  end.

(** Overwrite [buf] from index [off] on with [data]. *)
Definition write_at (off : nat) (data buf : list byte) : list byte :=
  firstn off buf ++ data ++ skipn (off + length data) buf.

Definition slice (off len : nat) (buf : list byte) : list byte :=
  firstn len (skipn off buf).

(** The bytes of a C string: up to, not including, the first NUL. *)
Fixpoint c_str (bs : list byte) : list byte :=
  match bs with
  | [] => []
  | b :: bs' => if Byte.eqb b x00 then [] else b :: c_str bs'
  end.

(** [AlignDown]: [x - (x % align)] on [uintptr_t]. *)
Definition AlignDown (x align : Z) : Z := wrap64 (x - x mod align).

(* ------------------------------------------------------------------ *)
(** ** Constants of the platform headers (x86-64 Linux) *)

Definition EINTR : Z := 4.
Definition EAGAIN : Z := 11.
Definition EWOULDBLOCK : Z := 11.

Definition SIGABRT : Z := 6.
Definition SIGBUS : Z := 7.
Definition SIGFPE : Z := 8.
Definition SIGKILL : Z := 9.
Definition SIGSEGV : Z := 11.
Definition SIGSTOP : Z := 19.

(** [<sys/wait.h>]: [WIFSTOPPED(s)] is [(s & 0xff) == 0x7f] and
    [WSTOPSIG(s)] is [(s & 0xff00) >> 8]. *)
Definition WIFSTOPPED (status : Z) : bool := Z.land status 255 =? 127.
Definition WSTOPSIG (status : Z) : Z := Z.shiftr (Z.land status 65280) 8.

(** The status word of a child stopped by signal [sig]. *)
Definition W_STOPCODE (sig : Z) : Z := Z.lor (Z.shiftl sig 8) 127.

Definition MAP_FAILED : Z := 2 ^ 64 - 1.
Definition PROT_READ : Z := 1.
Definition PROT_WRITE : Z := 2.
Definition PROT_EXEC : Z := 4.

Definition kDefaultCodeLocation : Z := 0x2b0000000000.

(** [absl::StatusCode] is an [enum class] over [int]; a status carries the
    raw value. *)
Definition kOk : Z := 0.
Definition kInvalidArgument : Z := 3.
Definition kInternal : Z := 13.

(* ------------------------------------------------------------------ *)
(** ** absl::Status *)

Record Status := mkStatus { code : Z; message : string }.

Definition OkStatus : Status := mkStatus kOk "".
Definition InternalError (m : string) : Status := mkStatus kInternal m.
Definition InvalidArgumentError (m : string) : Status :=
  mkStatus kInvalidArgument m.

Definition ok (s : Status) : bool := code s =? kOk.
Definition IsInvalidArgument (s : Status) : bool := code s =? kInvalidArgument.

(** [absl::StatusOr<T>]. *)
Definition StatusOr (T : Type) : Type := (Status + T)%type.

(** ** Text of the formatted messages *)

Definition fmt_d (z : Z) : string :=
  DecimalString.NilZero.string_of_int (Z.to_int z).

Definition hex_digit (d : Z) : ascii :=
  if d <? 10 then ascii_of_nat (Z.to_nat (48 + d))
  else ascii_of_nat (Z.to_nat (87 + d)).

Fixpoint hex_digits (n : nat) (z : Z) (acc : string) : string :=
  match n with
  | O => acc
  | S n' => hex_digits n' (z / 16) (String (hex_digit (z mod 16)) acc)
  end.

(** ["%016x"] on a 64-bit value. *)
Definition fmt_016x (z : Z) : string := hex_digits 16 (wrap64 z) "".

Definition fmt_x (z : Z) : string :=
  HexadecimalString.NilZero.string_of_uint (N.to_hex_uint (Z.to_N z)).

(** ["%p"] of [absl::StrFormat]: a null pointer is printed as
    ["(nil)"], any other as ["0x"] and its hexadecimal digits. *)
Definition fmt_p (z : Z) : string :=
  if z =? 0 then "(nil)"%string else ("0x" ++ fmt_x z)%string.

Definition nl : string := String (ascii_of_nat 10) "".
Definition tab : string := String (ascii_of_nat 9) "".

(** The 17 registers of [struct user_regs_struct] that [DumpRegs]
    prints. *)
Record user_regs_struct := mkUserRegs {
  u_rsp : Z; u_rbp : Z; u_rip : Z;
  u_rax : Z; u_rbx : Z; u_rcx : Z;
  u_rdx : Z; u_rsi : Z; u_rdi : Z;
  u_r8 : Z; u_r9 : Z; u_r10 : Z;
  u_r11 : Z; u_r12 : Z; u_r13 : Z;
  u_r14 : Z; u_r15 : Z
}.

Definition DumpRegs (regs : user_regs_struct) : string :=
  (tab ++ "rsp=" ++ fmt_016x (u_rsp regs) ++ " rbp=" ++ fmt_016x (u_rbp regs)
       ++ ", rip=" ++ fmt_016x (u_rip regs) ++ nl ++
   tab ++ "rax=" ++ fmt_016x (u_rax regs) ++ " rbx=" ++ fmt_016x (u_rbx regs)
       ++ ", rcx=" ++ fmt_016x (u_rcx regs) ++ nl ++
   tab ++ "rdx=" ++ fmt_016x (u_rdx regs) ++ " rsi=" ++ fmt_016x (u_rsi regs)
       ++ ", rdi=" ++ fmt_016x (u_rdi regs) ++ nl ++
   tab ++ " r8=" ++ fmt_016x (u_r8 regs) ++ "  r9=" ++ fmt_016x (u_r9 regs)
       ++ ", r10=" ++ fmt_016x (u_r10 regs) ++ nl ++
   tab ++ "r11=" ++ fmt_016x (u_r11 regs) ++ " r12=" ++ fmt_016x (u_r12 regs)
       ++ ", r13=" ++ fmt_016x (u_r13 regs) ++ nl ++
   tab ++ "r14=" ++ fmt_016x (u_r14 regs) ++ " r15=" ++ fmt_016x (u_r15 regs))%string.

(* ------------------------------------------------------------------ *)
(** ** What the program takes from outside the file

    [absl::ErrnoToStatusCode], the C library's message tables and the
    assembled prologue and epilogue of [block_wrapper.h]. *)

Class Platform := {
  ErrnoToStatusCode : Z -> Z;
  strerror : Z -> string;
  strsignal : Z -> string;
  GetGematriaBeforeBlockCode : list byte;
  GetGematriaAfterBlockCode : list byte;
  (** absl maps only [errno = 0] to [kOk]. *)
  ErrnoToStatusCode_error : forall e : positive, ErrnoToStatusCode (Zpos e) <> kOk
}.

(** [absl::ErrnoToStatus(err, msg)]. *)
Definition ErrnoToStatus `{Platform} (err : Z) (msg : string) : Status :=
  mkStatus (ErrnoToStatusCode err) (msg ++ ": " ++ strerror err)%string.

(* ------------------------------------------------------------------ *)
(** ** The data model *)

(** Modelled from the spec: [X64Regs] of find_accessed_addrs.h, the 16
    general-purpose registers loaded before the block runs. *)
Record X64Regs := mkRegs {
  rax : Z; rbx : Z; rcx : Z; rdx : Z;
  rsi : Z; rdi : Z; rsp : Z; rbp : Z;
  r8 : Z; r9 : Z; r10 : Z; r11 : Z;
  r12 : Z; r13 : Z; r14 : Z; r15 : Z
}.

(** Modelled from the spec: [AccessedAddrs] of find_accessed_addrs.h. *)
Record AccessedAddrs := mkAccessedAddrs {
  code_location : Z;
  block_size : Z;
  accessed_blocks : list Z;
  initial_regs : X64Regs
}.

Definition set_code_location (a : AccessedAddrs) (v : Z) : AccessedAddrs :=
  mkAccessedAddrs v (block_size a) (accessed_blocks a) (initial_regs a).

Definition set_accessed_blocks (a : AccessedAddrs) (v : list Z) : AccessedAddrs :=
  mkAccessedAddrs (code_location a) (block_size a) v (initial_regs a).

Definition set_initial_regs (a : AccessedAddrs) (v : X64Regs) : AccessedAddrs :=
  mkAccessedAddrs (code_location a) (block_size a) (accessed_blocks a) v.

(** [struct PipedData] is handled through its object representation, the
    1040 bytes that go through the pipe (x86-64 System V layout):
    [status_code] at 0..3, [status_message] at 4..1027, four bytes of
    padding, [code_address] at 1032..1039. *)
Module PipedData.

Definition t : Type := list byte.

Definition sizeof : nat := 1040.
Definition status_code_offset : nat := 0.
Definition status_message_offset : nat := 4.
Definition status_message_size : nat := 1024.
Definition code_address_offset : nat := 1032.

Definition status_code (p : t) : Z :=
  sign32 (load_le (slice status_code_offset 4 p)).

Definition set_status_code (p : t) (c : Z) : t :=
  write_at status_code_offset (store_le 4 c) p.

(** [status_message] read as a C string, the way [absl::Status]'s
    constructor takes a [char] array; without a NUL in the array the
    string runs on into the bytes behind it. *)
Definition status_message (p : t) : string :=
  string_of_list_byte (c_str (skipn status_message_offset p)).

Definition code_address (p : t) : Z :=
  load_le (slice code_address_offset 8 p).

Definition set_code_address (p : t) (a : Z) : t :=
  write_at code_address_offset (store_le 8 a) p.

End PipedData.

(** [memset(&piped_data, 0, sizeof(piped_data))]. *)
Definition MakePipedData : PipedData.t := repeat x00 PipedData.sizeof.

(** [rep movsb]: [count] bytes of [src] go to [dst], here the index
    [dst] of the frame [p]. *)
Definition repmovsb (p : PipedData.t) (dst : nat) (src : list byte) (count : nat)
  : PipedData.t :=
  write_at dst (firstn count src) p.

(* ------------------------------------------------------------------ *)
(** ** The kernel as seen by one process *)

Inductive PtraceRequest :=
| PTRACE_TRACEME | PTRACE_CONT | PTRACE_GETSIGINFO | PTRACE_GETREGS.

(** One system call, with the arguments that matter. *)
Inductive Event :=
| EvGetpagesize
| EvPipe
| EvFork
| EvClose (fd : Z)
| EvWaitpid (pid : Z)
| EvPtrace (req : PtraceRequest) (pid : Z)
| EvKill (pid sig : Z)
| EvRead (fd : Z) (offset count : nat)
| EvWrite (fd : Z) (bytes : list byte)
| EvRaise (sig : Z)
| EvMunmap (addr len : Z)
| EvMmap (addr len prot : Z)
| EvStore (addr : Z) (bytes : list byte)
| EvPerror.

(** The kernel's answer to one call.  [Fail e] is a failed call: it
    returns -1 ([MAP_FAILED] for [mmap]) and sets [errno] to [e]; every
    other answer is a successful call and leaves [errno] alone. *)
Inductive Answer :=
| Fail (e : positive)
| Ret (r : Z)
| Fds (rd wr : Z)
| WStatus (status : Z)
| SigInfo (si_addr : Z)
| Regs (regs : user_regs_struct)
| Data (bytes : list byte).

Record OS := mkOS {
  errno : Z;
  script : list Answer;
  log : list Event
}.

(** How a process stops being our business: [abort()], or the jump into
    the mapped code. *)
Inductive Ending :=
| Aborted
| Entered (addr : Z) (regs : X64Regs).

(** [Stuck]: the transcript does not say how the run goes on (it is
    exhausted, or the next answer is not one the call can give). *)
Inductive Res (A : Type) :=
| Val (a : A)
| Halt (e : Ending)
| Stuck.

Arguments Halt {A} e.
Arguments Stuck {A}.

Definition M (A : Type) : Type := OS -> Res A * OS.

Definition ret {A} (a : A) : M A := fun os => (Val a, os).

Definition bind {A B} (m : M A) (f : A -> M B) : M B :=
  fun os =>
    match m os with
    | (Val a, os') => f a os'
    | (Halt e, os') => (Halt e, os')
    | (Stuck, os') => (Stuck, os')
    end.

Definition stuck {A} : M A := fun os => (Stuck, os).
Definition halt {A} (e : Ending) : M A := fun os => (Halt e, os).

Declare Scope os_scope.
Delimit Scope os_scope with os.
Notation "x <- m ;; k" := (bind m (fun x => k))
  (at level 100, m at next level, right associativity) : os_scope.
Notation "' pat <- m ;; k" := (bind m (fun x => match x with pat => k end))
  (at level 100, pat pattern, m at next level, right associativity) : os_scope.
Notation "m ;; k" := (bind m (fun _ => k))
  (at level 100, right associativity) : os_scope.
Local Open Scope os_scope.

Definition get_errno : M Z := fun os => (Val (errno os), os).

(** [errno] after a call that got answer [a]. *)
Definition errno_after (a : Answer) (e : Z) : Z :=
  match a with
  | Fail x => Zpos x
  | _ => e
  end.

(** Issue a call: it is logged, and the next answer of the transcript is
    taken. *)
Definition syscall (ev : Event) : M Answer :=
  fun os =>
    match script os with
    | [] => (Stuck, mkOS (errno os) [] (log os ++ [ev]))
    | a :: rest =>
        (Val a, mkOS (errno_after a (errno os)) rest (log os ++ [ev]))
    end.

(** A call whose result is one integer. *)
Definition sys_int (ev : Event) : M Z :=
  a <- syscall ev ;;
  match a with
  | Ret r => ret r
  | Fail _ => ret (-1)
  | _ => stuck
  end.

(** The loops of the source run on fuel taken from the transcript: one
    more than the number of answers left. *)
Definition with_fuel {A} (f : nat -> M A) : M A :=
  fun os => f (S (length (script os))) os.

Definition getpagesize : M Z := sys_int EvGetpagesize.
Definition close (fd : Z) : M Z := sys_int (EvClose fd).
Definition kill (pid sig : Z) : M Z := sys_int (EvKill pid sig).
Definition fork : M Z := sys_int EvFork.
Definition raise (sig : Z) : M Z := sys_int (EvRaise sig).
Definition munmap (addr len : Z) : M Z := sys_int (EvMunmap addr len).
Definition ptrace (req : PtraceRequest) (pid : Z) : M Z :=
  sys_int (EvPtrace req pid).

(** [pipe(pipe_fds)]: the return value and the two descriptors. *)
Definition pipe : M (Z * (Z * Z)) :=
  a <- syscall EvPipe ;;
  match a with
  | Fds rd wr => ret (0, (rd, wr))
  | Fail _ => ret (-1, (0, 0))
  | _ => stuck
  end.

(** [waitpid(pid, &status, 0)]: the status word.  After a failed
    [waitpid] the source reads an uninitialised [status]; the model
    stops there. *)
Definition waitpid (pid : Z) : M Z :=
  a <- syscall (EvWaitpid pid) ;;
  match a with
  | WStatus s => ret s
  | _ => stuck
  end.

(** [waitpid(pid, nullptr, 0)]. *)
Definition waitpid_null (pid : Z) : M unit :=
  a <- syscall (EvWaitpid pid) ;;
  match a with
  | WStatus _ | Fail _ => ret tt
  | _ => stuck
  end.

(** [ptrace(PTRACE_GETSIGINFO, ...)]: [siginfo.si_addr] as a
    [uintptr_t]. *)
Definition ptrace_getsiginfo (pid : Z) : M Z :=
  a <- syscall (EvPtrace PTRACE_GETSIGINFO pid) ;;
  match a with
  | SigInfo addr => ret (wrap64 addr)
  | _ => stuck
  end.

Definition ptrace_getregs (pid : Z) : M user_regs_struct :=
  a <- syscall (EvPtrace PTRACE_GETREGS pid) ;;
  match a with
  | Regs r => ret r
  | _ => stuck
  end.

(** [write(fd, buf, count)] with [buf] holding [bytes]: the number of
    bytes written, or -1. *)
Definition write (fd : Z) (bytes : list byte) : M Z :=
  a <- syscall (EvWrite fd bytes) ;;
  match a with
  | Ret r => if (0 <=? r) && (r <=? Z.of_nat (length bytes)) then ret r else stuck
  | Fail _ => ret (-1)
  | _ => stuck
  end.

(** [read(fd, data + offset, count)]: the return value and the buffer
    after the call. *)
Definition read (fd : Z) (data : list byte) (offset count : nat)
  : M (Z * list byte) :=
  a <- syscall (EvRead fd offset count) ;;
  match a with
  | Data bs =>
      if (length bs <=? count)%nat
      then ret (Z.of_nat (length bs), write_at offset bs data)
      else stuck
  | Fail _ => ret (-1, data)
  | _ => stuck
  end.

(** [mmap(addr, len, prot, MAP_PRIVATE | MAP_ANONYMOUS, -1, 0)]. *)
Definition mmap (addr len prot : Z) : M Z :=
  a <- syscall (EvMmap addr len prot) ;;
  match a with
  | Ret r => ret (wrap64 r)
  | Fail _ => ret MAP_FAILED
  | _ => stuck
  end.

(** A store into the child's own memory: not a system call, but what the
    child leaves behind is part of its observable run. *)
Definition store (addr : Z) (bytes : list byte) : M unit :=
  fun os => (Val tt, mkOS (errno os) (script os) (log os ++ [EvStore addr bytes])).

Definition perror : M unit :=
  fun os => (Val tt, mkOS (errno os) (script os) (log os ++ [EvPerror])).

Definition abort {A} : M A := halt Aborted.

(* ------------------------------------------------------------------ *)
(** ** The pipe frame codec *)

Definition IsRetryable (err : Z) : bool :=
  (err =? EINTR) || (err =? EAGAIN) || (err =? EWOULDBLOCK).

Section Program.

Context `{Platform}.

(** The [do { bytes_written = write(...); err = errno; }
    while (IsRetryable(err));] of [WriteAll]. *)
Fixpoint WriteAll_retry (fuel : nat) (fd : Z) (bytes : list byte) : M (Z * Z) :=
  match fuel with
  | O => stuck
  | S fuel' =>
      bytes_written <- write fd bytes ;;
      err <- get_errno ;;
      if IsRetryable err then WriteAll_retry fuel' fd bytes
      else ret (bytes_written, err)
  end.

Fixpoint WriteAll_loop (fuel : nat) (fd : Z) (data_span : list byte)
         (current_offset : nat) : M Status :=
  match fuel with
  | O => stuck
  | S fuel' =>
      if (current_offset <? length data_span)%nat then
        let to_write := (length data_span - current_offset)%nat in
        '(bytes_written, err) <-
          with_fuel (fun f =>
            WriteAll_retry f fd (slice current_offset to_write data_span)) ;;
        if bytes_written <? 0 then
          ret (ErrnoToStatus err "Failed to write to pipe")
        else
          WriteAll_loop fuel' fd data_span
                        (current_offset + Z.to_nat bytes_written)%nat
      else
        close fd ;;
        ret OkStatus
  end.

Definition WriteAll (fd : Z) (piped_data : PipedData.t) : M Status :=
  with_fuel (fun f => WriteAll_loop f fd piped_data 0).

(** The [do ... while] of [ReadAll]; the buffer is threaded through. *)
Fixpoint ReadAll_retry (fuel : nat) (fd : Z) (data : list byte)
         (offset count : nat) : M (Z * Z * list byte) :=
  match fuel with
  | O => stuck
  | S fuel' =>
      '(bytes_read, data') <- read fd data offset count ;;
      err <- get_errno ;;
      if IsRetryable err then ReadAll_retry fuel' fd data' offset count
      else ret (bytes_read, err, data')
  end.

(** The [while] loop of [ReadAll]: the offset reached and the buffer, or
    the status of the early return. *)
Fixpoint ReadAll_loop (fuel : nat) (fd : Z) (data_span : list byte)
         (current_offset : nat) : M (Status + nat * list byte) :=
  match fuel with
  | O => stuck
  | S fuel' =>
      if (current_offset <? length data_span)%nat then
        let to_read := (length data_span - current_offset)%nat in
        '(bytes_read, err, data') <-
          with_fuel (fun f => ReadAll_retry f fd data_span current_offset to_read) ;;
        if bytes_read <? 0 then
          ret (inl (ErrnoToStatus err "Failed to read from pipe"))
        else if bytes_read =? 0 then
          ret (inr (current_offset, data'))
        else
          ReadAll_loop fuel' fd data'
                       (current_offset + Z.to_nat bytes_read)%nat
      else
        ret (inr (current_offset, data_span))
  end.

(** [piped_data] starts uninitialised; a frame is returned only once
    every byte of it has been overwritten, so the model starts from
    zeroes. *)
Definition ReadAll (fd : Z) : M (StatusOr PipedData.t) :=
  let piped_data := repeat x00 PipedData.sizeof in
  r <- with_fuel (fun f => ReadAll_loop f fd piped_data 0) ;;
  match r with
  | inl st => ret (inl st)
  | inr (current_offset, piped_data) =>
      if negb (current_offset =? PipedData.sizeof)%nat then
        ret (inl (InternalError
          ("Read less than expected from pipe (expected "
             ++ fmt_d (Z.of_nat PipedData.sizeof) ++ "B, got "
             ++ fmt_d (Z.of_nat current_offset) ++ "B)")%string))
      else
        close fd ;;
        ret (inr piped_data)
  end.

(* ------------------------------------------------------------------ *)
(** ** The parent: classification of the child's stop *)

Definition unexpected_status (status : Z) : Status :=
  InternalError
    ("Child terminated with an unexpected status: " ++ fmt_d status)%string.

(** [AccessedAddrs&] is passed by reference: the model returns the
    object as it is when the function returns. *)
Definition ParentProcessInner (child_pid : Z) (accessed_addrs : AccessedAddrs)
  : M (Status * AccessedAddrs) :=
  status <- waitpid child_pid ;;
  if negb (WIFSTOPPED status) then
    ret (unexpected_status status, accessed_addrs)
  else
    ptrace PTRACE_CONT child_pid ;;
    status <- waitpid child_pid ;;
    if negb (WIFSTOPPED status) then
      ret (unexpected_status status, accessed_addrs)
    else
      let signal := WSTOPSIG status in
      if signal =? SIGSEGV then
        si_addr <- ptrace_getsiginfo child_pid ;;
        let addr := AlignDown si_addr (block_size accessed_addrs) in
        if negb (existsb (Z.eqb addr) (accessed_blocks accessed_addrs)) then
          ret (OkStatus,
               set_accessed_blocks accessed_addrs
                 (accessed_blocks accessed_addrs ++ [addr]))
        else
          ret (OkStatus, accessed_addrs)
      else if signal =? SIGABRT then
        ret (OkStatus, accessed_addrs)
      else if signal =? SIGFPE then
        ret (InvalidArgumentError "Floating point exception", accessed_addrs)
      else
        registers <- ptrace_getregs child_pid ;;
        if signal =? SIGBUS then
          si_addr <- ptrace_getsiginfo child_pid ;;
          ret (InternalError
                 ("Child stopped with unexpected signal: " ++ strsignal signal
                    ++ ", address " ++ fmt_d si_addr ++ "l" ++ nl
                    ++ DumpRegs registers)%string,
               accessed_addrs)
        else
          ret (InternalError
                 ("Child stopped with unexpected signal: " ++ strsignal signal
                    ++ nl ++ DumpRegs registers)%string,
               accessed_addrs).

Definition ParentProcess (child_pid pipe_read_fd : Z)
           (accessed_addrs : AccessedAddrs) : M (Status * AccessedAddrs) :=
  '(result, accessed_addrs) <- ParentProcessInner child_pid accessed_addrs ;;
  err <- kill child_pid SIGKILL ;;
  if negb (err =? 0) then
    let err_str := strerror err in
    ret (InternalError ("Failed to kill child process: " ++ err_str)%string,
         accessed_addrs)
  else
    waitpid_null child_pid ;;
    if negb (ok result) then
      ret (result, accessed_addrs)
    else
      pipe_data <- ReadAll pipe_read_fd ;;
      match pipe_data with
      | inl st => ret (st, accessed_addrs)
      | inr pd =>
          if negb (PipedData.status_code pd =? kOk) then
            ret (mkStatus (PipedData.status_code pd) (PipedData.status_message pd),
                 accessed_addrs)
          else
            ret (OkStatus,
                 set_code_location accessed_addrs (PipedData.code_address pd))
      end.

(* ------------------------------------------------------------------ *)
(** ** The child *)

(** The frame [AbortChildProcess] builds before it writes it. *)
Definition AbortPipedData (status : Status) : PipedData.t :=
  let piped_data := MakePipedData in
  let piped_data := PipedData.set_status_code piped_data (code status) in
  let msg := list_byte_of_string (message status) in
  let message_length :=
    Nat.min (length msg) (PipedData.status_message_size - 1) in
  repmovsb piped_data PipedData.status_message_offset msg message_length.

(** [[noreturn]]: the result type is arbitrary. *)
Definition AbortChildProcess {A} (pipe_write_fd : Z) (status : Status) : M A :=
  WriteAll pipe_write_fd (AbortPipedData status) ;;
  abort.

(** [for (int i = 0; i < block_size; i += 4) block[i] = 8;]  The
    counter is an [int]: the recursion on [Z] is the loop of the source
    as long as [i += 4] does not overflow, that is for every
    [block_size] up to [2^31 - 4], which covers the page sizes
    [getpagesize] gives; the statements about the stores of this loop
    carry that bound. *)
Fixpoint fill_block (fuel : nat) (block block_size i : Z) : M unit :=
  match fuel with
  | O => stuck
  | S fuel' =>
      if i <? block_size then
        store (block + i) [x08] ;;
        fill_block fuel' block block_size (i + 4)
      else ret tt
  end.

(** The loop over [accessed_addrs.accessed_blocks]. *)
Fixpoint map_accessed_blocks (pipe_write_fd block_size : Z) (blocks : list Z)
  : M unit :=
  match blocks with
  | [] => ret tt
  | accessed_location :: rest =>
      let location_ptr := accessed_location in
      mapped_address <-
        mmap location_ptr block_size (Z.lor PROT_READ PROT_WRITE) ;;
      if mapped_address =? MAP_FAILED then
        AbortChildProcess pipe_write_fd
          (InternalError
             ("mapping previously discovered address " ++ fmt_p location_ptr
                ++ " failed")%string)
      else if negb (mapped_address =? location_ptr) then
        AbortChildProcess pipe_write_fd
          (InvalidArgumentError
             ("tried to map previously discovered address "
                ++ fmt_p location_ptr
                ++ ", but mmap couldn't map this address" ++ nl)%string)
      else
        fill_block (S (Z.to_nat block_size)) mapped_address block_size 0 ;;
        map_accessed_blocks pipe_write_fd block_size rest
  end.

(** What [ChildProcess] does once the [munmap] has returned. *)
Definition ChildProcess_mapped {A} (basic_block : list byte) (pipe_write_fd : Z)
           (accessed_addrs : AccessedAddrs) : M A :=
  map_accessed_blocks pipe_write_fd (block_size accessed_addrs)
                      (accessed_blocks accessed_addrs) ;;
  let before_block := GetGematriaBeforeBlockCode in
  let after_block := GetGematriaAfterBlockCode in
  let total_block_size :=
    (length before_block + length basic_block + length after_block)%nat in
  let desired_code_location :=
    if code_location accessed_addrs =? 0 then kDefaultCodeLocation
    else code_location accessed_addrs in
  mapped_address <-
    mmap desired_code_location (Z.of_nat total_block_size)
         (Z.lor PROT_WRITE PROT_EXEC) ;;
  if mapped_address =? MAP_FAILED then
    perror ;;
    abort
  else
    let piped_data := MakePipedData in
    let piped_data := PipedData.set_status_code piped_data (code OkStatus) in
    let piped_data := PipedData.set_code_address piped_data mapped_address in
    status <- WriteAll pipe_write_fd piped_data ;;
    if negb (ok status) then
      abort
    else
      store mapped_address before_block ;;
      store (mapped_address + Z.of_nat (length before_block)) basic_block ;;
      store (mapped_address + Z.of_nat (length before_block + length basic_block))
            after_block ;;
      halt (Entered mapped_address (initial_regs accessed_addrs)).

Definition ChildProcess {A} (basic_block : list byte) (pipe_write_fd : Z)
           (accessed_addrs : AccessedAddrs) : M A :=
  ptrace PTRACE_TRACEME 0 ;;
  raise SIGSTOP ;;
  munmap 0x800000000 0x10000 ;;
  ChildProcess_mapped basic_block pipe_write_fd accessed_addrs.

(* ------------------------------------------------------------------ *)
(** ** One trial *)

Definition ForkAndTestAddresses (basic_block : list byte)
           (accessed_addrs : AccessedAddrs) : M (Status * AccessedAddrs) :=
  '(r, (pipe_read_fd, pipe_write_fd)) <- pipe ;;
  if negb (r =? 0) then
    err <- get_errno ;;
    ret (ErrnoToStatus err
           "Failed to open pipe for communication with child process: %s",
         accessed_addrs)
  else
    pid <- fork ;;
    if pid =? -1 then
      err <- get_errno ;;
      ret (ErrnoToStatus err "Failed to fork", accessed_addrs)
    else if pid =? 0 then
      close pipe_read_fd ;;
      ChildProcess basic_block pipe_write_fd accessed_addrs
    else
      close pipe_write_fd ;;
      ParentProcess pid pipe_read_fd accessed_addrs.

End Program.

(* ------------------------------------------------------------------ *)
(** ** The register randomiser *)

(** [absl::BitGen]: the values it is going to yield, and how many of
    them have been taken. *)
Record BitGen := mkBitGen { bits : nat -> Z; taken : nat }.

(** [absl::uniform_int_distribution<int> dist(lo, hi)], one draw. *)
Definition uniform_int_distribution (lo hi : Z) (gen : BitGen) : Z * BitGen :=
  (lo + bits gen (taken gen) mod (hi - lo + 1),
   mkBitGen (bits gen) (S (taken gen))).

Definition kValues : list Z := [0; 0x15000; 0x1000000].

Definition random_reg (gen : BitGen) : Z * BitGen :=
  let '(i, gen) :=
    uniform_int_distribution 0 (Z.of_nat (length kValues) - 1) gen in
  (nth (Z.to_nat i) kValues 0, gen).

Definition RandomiseRegs (gen : BitGen) (regs : X64Regs) : X64Regs * BitGen :=
  let '(v_rax, gen) := random_reg gen in
  let '(v_rbx, gen) := random_reg gen in
  let '(v_rcx, gen) := random_reg gen in
  let '(v_rdx, gen) := random_reg gen in
  let '(v_rsi, gen) := random_reg gen in
  let '(v_rdi, gen) := random_reg gen in
  let '(v_rsp, gen) := random_reg gen in
  let '(v_rbp, gen) := random_reg gen in
  let '(v_r8, gen) := random_reg gen in
  let '(v_r9, gen) := random_reg gen in
  let '(v_r10, gen) := random_reg gen in
  let '(v_r11, gen) := random_reg gen in
  let '(v_r12, gen) := random_reg gen in
  let '(v_r13, gen) := random_reg gen in
  let '(v_r14, gen) := random_reg gen in
  let '(v_r15, gen) := random_reg gen in
  (mkRegs v_rax v_rbx v_rcx v_rdx v_rsi v_rdi v_rsp v_rbp
          v_r8 v_r9 v_r10 v_r11 v_r12 v_r13 v_r14 v_r15,
   gen).

(* ------------------------------------------------------------------ *)
(** ** The driver *)

Definition kInitialRegValue : Z := 0x15000.

(** What one pass of the [do ... while] body decides once the trial has
    returned [status]: the early [return status], or the state the loop
    test is evaluated in.  [n] is an [int]; it only ever counts up from
    zero by one. *)
Definition FindAccessedAddrs_body (status : Status)
           (accessed_addrs : AccessedAddrs) (gen : BitGen) (n : Z)
  : Status + AccessedAddrs * BitGen * Z :=
  let after :=
    if IsInvalidArgument status then
      if n >? 100 then inl status
      else
        let accessed_addrs := set_accessed_blocks accessed_addrs [] in
        let '(regs, gen) := RandomiseRegs gen (initial_regs accessed_addrs) in
        inr (set_initial_regs accessed_addrs regs, gen)
    else if negb (ok status) then inl status
    else inr (accessed_addrs, gen) in
  match after with
  | inl st => inl st
  | inr (accessed_addrs, gen) => inr (accessed_addrs, gen, n + 1)
  end.

Section Driver.

Context `{Platform}.

Fixpoint FindAccessedAddrs_loop (fuel : nat) (basic_block : list byte)
         (accessed_addrs : AccessedAddrs) (gen : BitGen) (n : Z)
  : M (StatusOr AccessedAddrs) :=
  match fuel with
  | O => stuck
  | S fuel' =>
      let num_accessed_blocks := length (accessed_blocks accessed_addrs) in
      '(status, accessed_addrs) <-
        ForkAndTestAddresses basic_block accessed_addrs ;;
      match FindAccessedAddrs_body status accessed_addrs gen n with
      | inl st => ret (inl st)
      | inr (accessed_addrs, gen, n) =>
          if negb (length (accessed_blocks accessed_addrs)
                     =? num_accessed_blocks)%nat
          then FindAccessedAddrs_loop fuel' basic_block accessed_addrs gen n
          else ret (inr accessed_addrs)
      end
  end.

Definition FindAccessedAddrs (gen : BitGen) (basic_block : list byte)
  : M (StatusOr AccessedAddrs) :=
  page <- getpagesize ;;
  let accessed_addrs :=
    mkAccessedAddrs 0 (wrap64 page) []
      (mkRegs kInitialRegValue kInitialRegValue kInitialRegValue kInitialRegValue
              kInitialRegValue kInitialRegValue kInitialRegValue kInitialRegValue
              kInitialRegValue kInitialRegValue kInitialRegValue kInitialRegValue
              kInitialRegValue kInitialRegValue kInitialRegValue kInitialRegValue) in
  with_fuel (fun f => FindAccessedAddrs_loop f basic_block accessed_addrs gen 0).

End Driver.

(* ------------------------------------------------------------------ *)
(** * Vocabulary of the statements *)

(** The answers a call with an integer result can get. *)
Definition int_answer (a : Answer) : bool :=
  match a with
  | Ret _ | Fail _ => true
  | _ => false
  end.

(** What such a call returns for its answer. *)
Definition int_result (a : Answer) : Z :=
  match a with
  | Ret r => r
  | _ => -1
  end.

(** The only change [ParentProcessInner] ever makes: one aligned fault
    address, not present before, pushed at the back, together with an
    ok status. *)
Definition pushed_block (aa aa' : AccessedAddrs) (st : Status) : Prop :=
  st = OkStatus /\
  exists si_addr,
    let addr := AlignDown (wrap64 si_addr) (block_size aa) in
    existsb (Z.eqb addr) (accessed_blocks aa) = false /\
    aa' = set_accessed_blocks aa (accessed_blocks aa ++ [addr]).

(** The [[noreturn]] functions give no value. *)
Definition noreturn {A} (m : M A) : Prop :=
  forall os a os', m os <> (Val a, os').

(** The invariant of [accessed_blocks]: every element is a multiple of
    [block_size], and no element occurs twice. *)
Definition blocks_inv (aa : AccessedAddrs) : Prop :=
  Forall (fun a => a mod block_size aa = 0) (accessed_blocks aa) /\
  NoDup (accessed_blocks aa).

(** [emits P m]: however a run of [m] ends, it has only added events to
    the log, and each of them satisfies [P]. *)
Definition emits {A} (P : Event -> Prop) (m : M A) : Prop :=
  forall os, exists d, log (snd (m os)) = log os ++ d /\ Forall P d.

Definition any_event (e : Event) : Prop := True.

(** The events of the two codec functions. *)
Definition read_of (fd : Z) (e : Event) : Prop :=
  exists off n, e = EvRead fd off n.

Definition write_of (fd : Z) (e : Event) : Prop :=
  exists bytes, e = EvWrite fd bytes.

Definition pipe_event (fd : Z) (e : Event) : Prop :=
  read_of fd e \/ write_of fd e \/ e = EvClose fd.

(** The calls of [ParentProcessInner]: [waitpid] and [ptrace] on the
    child, nothing else. *)
Definition tracing_event (pid : Z) (e : Event) : Prop :=
  e = EvWaitpid pid \/ exists req, e = EvPtrace req pid.

(** [frugal m]: a run of [m] that returns has not lengthened the
    transcript; [pops m]: it has taken at least one answer. *)
Definition frugal {A} (m : M A) : Prop :=
  forall os a os',
    m os = (Val a, os') -> (length (script os') <= length (script os))%nat.

Definition pops {A} (m : M A) : Prop :=
  forall os a os',
    m os = (Val a, os') -> (length (script os') < length (script os))%nat.

(** [starts_with ev m]: the first thing a run of [m] does is the call
    [ev]. *)
Definition starts_with {A} (ev : Event) (m : M A) : Prop :=
  forall os, exists d, log (snd (m os)) = log os ++ ev :: d.

(** ** A sample platform and sample transcripts *)

(** A part of absl's errno table; everything else is [kUnknown]. *)
Definition sample_ErrnoToStatusCode (e : Z) : Z :=
  if e =? 0 then kOk
  else if (e =? 22) || (e =? 14) then kInvalidArgument
  else if (e =? 4) || (e =? 11) then 14
  else if (e =? 9) || (e =? 10) || (e =? 32) then 9
  else if (e =? 12) || (e =? 23) || (e =? 24) then 8
  else if (e =? 1) || (e =? 13) then 7
  else 2.

Definition sample_ErrnoToStatusCode_error (e : positive)
  : sample_ErrnoToStatusCode (Zpos e) <> kOk :=
  ltac:(unfold sample_ErrnoToStatusCode, kOk, kInvalidArgument;
        change (Z.pos e =? 0) with false; cbv iota;
        repeat match goal with
               | |- (if ?b then _ else _) <> _ => destruct b
               end; discriminate).

Definition sample_platform : Platform :=
  {| ErrnoToStatusCode := sample_ErrnoToStatusCode;
     strerror := fun e => ("errno " ++ fmt_d e)%string;
     strsignal := fun s => ("signal " ++ fmt_d s)%string;
     GetGematriaBeforeBlockCode := [x90];
     GetGematriaAfterBlockCode := [x0f; x0b];
     ErrnoToStatusCode_error := sample_ErrnoToStatusCode_error |}.

Definition sample_gen : BitGen := mkBitGen (fun k => Z.of_nat k) 0.

Definition sample_regs : X64Regs :=
  mkRegs kInitialRegValue kInitialRegValue kInitialRegValue kInitialRegValue
         kInitialRegValue kInitialRegValue kInitialRegValue kInitialRegValue
         kInitialRegValue kInitialRegValue kInitialRegValue kInitialRegValue
         kInitialRegValue kInitialRegValue kInitialRegValue kInitialRegValue.

Definition sample_addrs (blocks : list Z) : AccessedAddrs :=
  mkAccessedAddrs 0 4096 blocks sample_regs.

(** The frame of a child that mapped the code at [addr]. *)
Definition ok_frame (addr : Z) : PipedData.t :=
  PipedData.set_code_address
    (PipedData.set_status_code MakePipedData (code OkStatus)) addr.

(** The answers the parent gets in one trial, from [pipe] on: the
    descriptors 3 and 4, the child 77, the initial stop, and then *)
Definition trial_prefix : list Answer :=
  [Fds 3 4; Ret 77; Ret 0; WStatus (W_STOPCODE SIGSTOP); Ret 0].

(** ... a floating-point exception; *)
Definition fpe_trial : list Answer :=
  trial_prefix ++ [WStatus (W_STOPCODE SIGFPE); Ret 0; WStatus SIGKILL].

(** ... a fault at [addr], and the whole frame in one [read]; *)
Definition segv_trial (addr : Z) : list Answer :=
  trial_prefix ++
  [WStatus (W_STOPCODE SIGSEGV); SigInfo addr; Ret 0; WStatus SIGKILL;
   Data (ok_frame kDefaultCodeLocation); Ret 0].

(** ... the epilogue's abort, and the whole frame in one [read]. *)
Definition abrt_trial : list Answer :=
  trial_prefix ++
  [WStatus (W_STOPCODE SIGABRT); Ret 0; WStatus SIGKILL;
   Data (ok_frame kDefaultCodeLocation); Ret 0].

(** The answers to [ParentProcess] alone. *)
Definition parent_answers (trial : list Answer) : list Answer := skipn 3 trial.

(** 101 trials that each fault on a new page, then a floating-point
    exception, then a clean run. *)
Definition budget_transcript : list Answer :=
  Ret 4096 ::
  flat_map (fun k => segv_trial (0x50000000 + 4096 * Z.of_nat k)) (seq 0 101)
  ++ fpe_trial ++ abrt_trial.

(** The driver as C5 words it: the counter is charged by fixable
    failures only.  Everything else is the driver of the source. *)
Definition FindAccessedAddrs_body_claimed (status : Status)
           (accessed_addrs : AccessedAddrs) (gen : BitGen) (retries : Z)
  : Status + AccessedAddrs * BitGen * Z :=
  if IsInvalidArgument status then
    if retries >? 100 then inl status
    else
      let accessed_addrs := set_accessed_blocks accessed_addrs [] in
      let '(regs, gen) := RandomiseRegs gen (initial_regs accessed_addrs) in
      inr (set_initial_regs accessed_addrs regs, gen, retries + 1)
  else if negb (ok status) then inl status
  else inr (accessed_addrs, gen, retries).

Fixpoint FindAccessedAddrs_loop_claimed `{Platform} (fuel : nat)
         (basic_block : list byte) (accessed_addrs : AccessedAddrs)
         (gen : BitGen) (retries : Z) : M (StatusOr AccessedAddrs) :=
  match fuel with
  | O => stuck
  | S fuel' =>
      let num_accessed_blocks := length (accessed_blocks accessed_addrs) in
      '(status, accessed_addrs) <-
        ForkAndTestAddresses basic_block accessed_addrs ;;
      match FindAccessedAddrs_body_claimed status accessed_addrs gen retries with
      | inl st => ret (inl st)
      | inr (accessed_addrs, gen, retries) =>
          if negb (length (accessed_blocks accessed_addrs)
                     =? num_accessed_blocks)%nat
          then FindAccessedAddrs_loop_claimed fuel' basic_block accessed_addrs
                                              gen retries
          else ret (inr accessed_addrs)
      end
  end.

Definition FindAccessedAddrs_claimed `{Platform} (gen : BitGen)
           (basic_block : list byte) : M (StatusOr AccessedAddrs) :=
  page <- getpagesize ;;
  with_fuel (fun f =>
    FindAccessedAddrs_loop_claimed f basic_block
      (mkAccessedAddrs 0 (wrap64 page) [] sample_regs) gen 0).

(** The number of trials a log shows: each trial opens one pipe. *)
Definition is_pipe_call (e : Event) : bool :=
  match e with
  | EvPipe => true
  | _ => false
  end.

Definition trials (l : list Event) : nat := length (filter is_pipe_call l).

(** The calls of the child and its stores; its only [munmap] is the one
    at [0x8'0000'0000]. *)
Definition child_event (fd : Z) (e : Event) : Prop :=
  match e with
  | EvPtrace PTRACE_TRACEME _ | EvRaise _ | EvMmap _ _ _ | EvStore _ _
  | EvPerror => True
  | EvMunmap addr len => addr = 0x800000000 /\ len = 0x10000
  | EvWrite fd' _ | EvClose fd' => fd' = fd
  | _ => False
  end.

(** The [munmap] calls of a log. *)
Definition is_munmap (e : Event) : bool :=
  match e with
  | EvMunmap _ _ => true
  | _ => false
  end.

(* ------------------------------------------------------------------ *)
(** ** Vocabulary of the further properties *)

(** The [read] calls that deliver [chunks] one after the other into a
    buffer of [total] bytes, from offset [off] on. *)
Fixpoint read_events (fd : Z) (total off : nat) (chunks : list (list byte))
  : list Event :=
  match chunks with
  | [] => []
  | c :: cs =>
      EvRead fd off (total - off) :: read_events fd total (off + length c) cs
  end.

(** The [write] calls by which [data] leaves in pieces of the sizes
    [sizes], from offset [off] on: each call is handed all that is
    left. *)
Fixpoint write_events (fd : Z) (data : list byte) (off : nat)
         (sizes : list nat) : list Event :=
  match sizes with
  | [] => []
  | n :: ns => EvWrite fd (skipn off data) :: write_events fd data (off + n) ns
  end.

(** The answers of [write] calls that take pieces of the sizes
    [sizes]. *)
Definition taken_answers (sizes : list nat) : list Answer :=
  map (fun n => Ret (Z.of_nat n)) sizes.

Definition nonempty (c : list byte) : Prop := c <> [].

(** The registers of an [X64Regs], in the order of the struct. *)
Definition regs_list (r : X64Regs) : list Z :=
  [rax r; rbx r; rcx r; rdx r; rsi r; rdi r; rsp r; rbp r;
   r8 r; r9 r; r10 r; r11 r; r12 r; r13 r; r14 r; r15 r].

(** The stores of the fill loop on a block of [size] bytes at
    [block]. *)
Definition fill_events (block size : Z) : list Event :=
  map (fun k => EvStore (block + 4 * Z.of_nat k) [x08])
      (seq 0 (Z.to_nat ((size + 3) / 4))).

(** What the child does for one discovered block that maps where it
    should. *)
Definition block_events (size a : Z) : list Event :=
  EvMmap a size (Z.lor PROT_READ PROT_WRITE) :: fill_events a size.

(** An address [mmap] can return for a mapping. *)
Definition mappable (a : Z) : Prop := 0 <= a < MAP_FAILED.

(** The calls of the parent in the sample trials. *)
Definition trial_calls_prefix : list Event :=
  [EvPipe; EvFork; EvClose 4; EvWaitpid 77; EvPtrace PTRACE_CONT 77;
   EvWaitpid 77].

Definition segv_trial_calls : list Event :=
  trial_calls_prefix ++
  [EvPtrace PTRACE_GETSIGINFO 77; EvKill 77 SIGKILL; EvWaitpid 77;
   EvRead 3 0 PipedData.sizeof; EvClose 3].

Definition abrt_trial_calls : list Event :=
  trial_calls_prefix ++
  [EvKill 77 SIGKILL; EvWaitpid 77; EvRead 3 0 PipedData.sizeof; EvClose 3].


(** [accessed_addrs] after trials that faulted at [addrs], each on a
    page not seen before, and reported the code at the default
    location. *)
Definition discovered (aa : AccessedAddrs) (addrs : list Z) : AccessedAddrs :=
  mkAccessedAddrs
    (match addrs with [] => code_location aa | _ => kDefaultCodeLocation end)
    (block_size aa)
    (accessed_blocks aa
       ++ map (fun a => AlignDown (wrap64 a) (block_size aa)) addrs)
    (initial_regs aa).

(* ------------------------------------------------------------------ *)
(** * Reasoning about runs *)

Lemma bind_inv {A B} (m : M A) (f : A -> M B) os r os' :
  bind m f os = (r, os') ->
  (exists a os1, m os = (Val a, os1) /\ f a os1 = (r, os')) \/
  (exists e, m os = (Halt e, os') /\ r = Halt e) \/
  (m os = (Stuck, os') /\ r = Stuck).
Proof.
  unfold bind. destruct (m os) as [[a | e |] os1]; intros E.
  - left. eauto.
  - right. left. inversion E; subst. eauto.
  - right. right. inversion E; subst. eauto.
Qed.

Lemma bind_val {A B} (m : M A) (f : A -> M B) os b os' :
  bind m f os = (Val b, os') ->
  exists a os1, m os = (Val a, os1) /\ f a os1 = (Val b, os').
Proof.
  intros E. apply bind_inv in E.
  destruct E as [E | [(e & _ & E) | (_ & E)]]; [exact E | discriminate ..].
Qed.

(** Case analysis on the innermost scrutinee of a run equation. *)
Ltac split_run H :=
  match type of H with
  | context [match ?x with _ => _ end] =>
      lazymatch x with
      | context [match _ with _ => _ end] => fail
      | _ => destruct x eqn:?
      end
  end.

Ltac run_cases H :=
  repeat (cbn beta iota delta [script errno log errno_after] in H;
          try discriminate H; split_run H).

(** ** [AlignDown] *)

Lemma AlignDown_no_wrap x align :
  0 <= x < 2 ^ 64 -> 0 < align -> AlignDown x align = x - x mod align.
Proof.
  intros Hx Ha. unfold AlignDown, wrap64.
  pose proof (Z.mod_pos_bound x align Ha).
  assert (x mod align <= x) by (apply Z.mod_le; lia).
  apply Z.mod_small. lia.
Qed.

Lemma AlignDown_multiple x align :
  0 <= x < 2 ^ 64 -> 0 < align -> AlignDown x align mod align = 0.
Proof.
  intros Hx Ha. rewrite AlignDown_no_wrap by assumption.
  rewrite Zminus_mod, Z.mod_mod, Z.sub_diag by lia.
  apply Z.mod_0_l. lia.
Qed.

Lemma AlignDown_bounds x align :
  0 <= x < 2 ^ 64 -> 0 < align ->
  AlignDown x align <= x < AlignDown x align + align.
Proof.
  intros Hx Ha. rewrite AlignDown_no_wrap by assumption.
  pose proof (Z.mod_pos_bound x align Ha). lia.
Qed.

Lemma wrap64_range x : 0 <= wrap64 x < 2 ^ 64.
Proof. unfold wrap64. apply Z.mod_pos_bound. lia. Qed.

Lemma existsb_eqb_false x l : existsb (Z.eqb x) l = false -> ~ In x l.
Proof.
  intros E HIn.
  assert (existsb (Z.eqb x) l = true) as E'
      by (apply existsb_exists; exists x; split; [exact HIn | apply Z.eqb_refl]).
  congruence.
Qed.

(** ** What the supervisor does to [accessed_addrs] *)

Section Supervisor.

Context `{Platform}.

Lemma ParentProcessInner_effect pid aa os st aa' os' :
  ParentProcessInner pid aa os = (Val (st, aa'), os') ->
  aa' = aa \/ pushed_block aa aa' st.
Proof.
  unfold ParentProcessInner, waitpid, ptrace, ptrace_getsiginfo,
    ptrace_getregs, sys_int, syscall, bind, ret, stuck.
  destruct os as [e sc lg].
  intros E. run_cases E; inversion E; subst; auto.
  all: right; split; [reflexivity |]; eexists; split; [| reflexivity].
  all: apply negb_true_iff; eassumption.
Qed.

(** [ParentProcess] adds at most the assignment of [code_location]. *)
Lemma ParentProcess_effect pid fd aa os st aa' os' :
  ParentProcess pid fd aa os = (Val (st, aa'), os') ->
  exists st0 aa0,
    (aa0 = aa \/ pushed_block aa aa0 st0) /\
    (aa' = aa0 \/ exists v, aa' = set_code_location aa0 v).
Proof.
  unfold ParentProcess. intros E.
  apply bind_val in E. destruct E as ([st0 aa0] & os1 & E0 & E).
  apply ParentProcessInner_effect in E0.
  exists st0, aa0. split; [exact E0 |].
  destruct os1 as [e sc lg].
  unfold kill, waitpid_null, sys_int, syscall, bind, ret, stuck in E.
  run_cases E; inversion E; subst; eauto.
Qed.

Lemma noreturn_halt {A} e : noreturn (@halt A e).
Proof. intros os a os'. unfold halt. discriminate. Qed.

Lemma noreturn_bind {A B} (m : M A) (f : A -> M B) :
  (forall a, noreturn (f a)) -> noreturn (bind m f).
Proof.
  intros Hf os b os' E. apply bind_val in E.
  destruct E as (a & os1 & _ & E). exact (Hf a os1 b os' E).
Qed.

Lemma noreturn_AbortChildProcess {A} fd st : noreturn (@AbortChildProcess _ A fd st).
Proof. apply noreturn_bind. intros _. apply noreturn_halt. Qed.

Lemma noreturn_ChildProcess {A} bb fd aa : noreturn (@ChildProcess _ A bb fd aa).
Proof.
  unfold ChildProcess, ChildProcess_mapped.
  repeat (apply noreturn_bind; intros ?).
  destruct (_ =? MAP_FAILED).
  - apply noreturn_bind. intros _. apply noreturn_halt.
  - apply noreturn_bind. intros st. destruct (negb (ok st)).
    + apply noreturn_halt.
    + repeat (apply noreturn_bind; intros ?). apply noreturn_halt.
Qed.

Lemma ForkAndTestAddresses_effect bb aa os st aa' os' :
  ForkAndTestAddresses bb aa os = (Val (st, aa'), os') ->
  exists st0 aa0,
    (aa0 = aa \/ pushed_block aa aa0 st0) /\
    (aa' = aa0 \/ exists v, aa' = set_code_location aa0 v).
Proof.
  unfold ForkAndTestAddresses. intros E.
  apply bind_val in E. destruct E as ([r [rfd wfd]] & os1 & _ & E).
  destruct (negb (r =? 0)).
  - unfold bind, get_errno, ret in E. inversion E; subst.
    exists OkStatus, aa'. auto.
  - apply bind_val in E. destruct E as (pid & os2 & _ & E).
    destruct (pid =? -1).
    + unfold bind, get_errno, ret in E. inversion E; subst.
      exists OkStatus, aa'. auto.
    + destruct (pid =? 0); apply bind_val in E; destruct E as (? & os3 & _ & E).
      * exfalso. exact (noreturn_ChildProcess bb wfd aa os3 E).
      * apply ParentProcess_effect in E. exact E.
Qed.

Lemma pushed_block_frame aa aa' st :
  pushed_block aa aa' st ->
  block_size aa' = block_size aa /\ initial_regs aa' = initial_regs aa /\
  code_location aa' = code_location aa /\
  exists a, accessed_blocks aa' = accessed_blocks aa ++ [a].
Proof. intros (_ & si & _ & ->). cbn. eauto. Qed.

(** What a trial leaves of [accessed_addrs]. *)
Lemma ForkAndTestAddresses_frame bb aa os st aa' os' :
  ForkAndTestAddresses bb aa os = (Val (st, aa'), os') ->
  block_size aa' = block_size aa /\
  initial_regs aa' = initial_regs aa /\
  (accessed_blocks aa' = accessed_blocks aa \/
   exists a, accessed_blocks aa' = accessed_blocks aa ++ [a]).
Proof.
  intros E. apply ForkAndTestAddresses_effect in E.
  destruct E as (st0 & aa0 & E0 & E1).
  assert (block_size aa0 = block_size aa /\ initial_regs aa0 = initial_regs aa /\
          (accessed_blocks aa0 = accessed_blocks aa \/
           exists a, accessed_blocks aa0 = accessed_blocks aa ++ [a])) as (Hb & Hr & Hl).
  { destruct E0 as [-> | E0]; [auto |].
    apply pushed_block_frame in E0. destruct E0 as (? & ? & _ & ?). auto. }
  destruct E1 as [-> | (v & ->)]; cbn; auto.
Qed.

Lemma FindAccessedAddrs_body_block_size st aa gen n aa' gen' n' :
  FindAccessedAddrs_body st aa gen n = inr (aa', gen', n') ->
  block_size aa' = block_size aa.
Proof.
  unfold FindAccessedAddrs_body. intros E.
  destruct (IsInvalidArgument st).
  - destruct (n >? 100); [discriminate |].
    destruct (RandomiseRegs gen _) as [regs g]. inversion E; subst. reflexivity.
  - destruct (negb (ok st)); [discriminate |]. inversion E; subst. reflexivity.
Qed.

Lemma FindAccessedAddrs_loop_block_size fuel :
  forall bb aa gen n os r os',
    FindAccessedAddrs_loop fuel bb aa gen n os = (Val (inr r), os') ->
    block_size r = block_size aa.
Proof.
  induction fuel as [| fuel IH]; intros bb aa gen n os r os' E.
  - discriminate.
  - cbn [FindAccessedAddrs_loop] in E.
    apply bind_val in E. destruct E as ([st aa1] & os1 & E1 & E).
    apply ForkAndTestAddresses_frame in E1. destruct E1 as (Hb1 & _).
    destruct (FindAccessedAddrs_body st aa1 gen n) as [st' | [[aa2 gen2] n2]] eqn:Eb.
    + discriminate.
    + apply FindAccessedAddrs_body_block_size in Eb.
      destruct (negb _).
      * apply IH in E. congruence.
      * inversion E; subst. congruence.
Qed.

(** ** The invariant of [accessed_blocks] *)

Lemma NoDup_snoc (x : Z) l : NoDup l -> ~ In x l -> NoDup (l ++ [x]).
Proof.
  intros Hl Hx. apply (NoDup_Add (a := x) (l := l)).
  - pose proof (Add_app x l []) as HA. rewrite app_nil_r in HA. exact HA.
  - split; assumption.
Qed.

Lemma pushed_block_inv aa aa' st :
  0 < block_size aa -> blocks_inv aa -> pushed_block aa aa' st -> blocks_inv aa'.
Proof.
  intros Hbs [Hall Hnd] (_ & si & Hnew & ->). unfold blocks_inv. cbn.
  split.
  - apply Forall_app. split; [exact Hall |].
    constructor; [| constructor].
    apply AlignDown_multiple; [apply wrap64_range | exact Hbs].
  - apply NoDup_snoc; [exact Hnd | apply existsb_eqb_false; exact Hnew].
Qed.

Lemma ForkAndTestAddresses_inv bb aa os st aa' os' :
  ForkAndTestAddresses bb aa os = (Val (st, aa'), os') ->
  0 < block_size aa -> blocks_inv aa ->
  blocks_inv aa' /\ block_size aa' = block_size aa.
Proof.
  intros E Hbs Hinv. apply ForkAndTestAddresses_effect in E.
  destruct E as (st0 & aa0 & E0 & E1).
  assert (blocks_inv aa0 /\ block_size aa0 = block_size aa) as [Hinv0 Hbs0].
  { destruct E0 as [-> | E0]; [auto |].
    split; [eapply pushed_block_inv; eauto |].
    apply pushed_block_frame in E0. tauto. }
  destruct E1 as [-> | (v & ->)]; auto.
Qed.

Lemma FindAccessedAddrs_body_inv st aa gen n aa' gen' n' :
  FindAccessedAddrs_body st aa gen n = inr (aa', gen', n') ->
  blocks_inv aa ->
  blocks_inv aa' /\ block_size aa' = block_size aa.
Proof.
  unfold FindAccessedAddrs_body. intros E Hinv.
  destruct (IsInvalidArgument st).
  - destruct (n >? 100); [discriminate |].
    destruct (RandomiseRegs gen _) as [regs g]. inversion E; subst.
    unfold blocks_inv. cbn. repeat constructor.
  - destruct (negb (ok st)); [discriminate |]. inversion E; subst. auto.
Qed.

Lemma FindAccessedAddrs_loop_inv fuel :
  forall bb aa gen n os r os',
    FindAccessedAddrs_loop fuel bb aa gen n os = (Val (inr r), os') ->
    0 < block_size aa -> blocks_inv aa ->
    blocks_inv r /\ block_size r = block_size aa.
Proof.
  induction fuel as [| fuel IH]; intros bb aa gen n os r os' E Hbs Hinv.
  - discriminate.
  - cbn [FindAccessedAddrs_loop] in E.
    apply bind_val in E. destruct E as ([st aa1] & os1 & E1 & E).
    destruct (ForkAndTestAddresses_inv _ _ E1 Hbs Hinv) as [Hinv1 Hbs1].
    destruct (FindAccessedAddrs_body st aa1 gen n) as [st' | [[aa2 gen2] n2]] eqn:Eb.
    + discriminate.
    + destruct (FindAccessedAddrs_body_inv _ _ _ Eb Hinv1) as [Hinv2 Hbs2].
      destruct (negb _).
      * apply IH in E; [| lia | exact Hinv2].
        destruct E as [Hr Hbr]. split; [exact Hr | congruence].
      * inversion E; subst. split; [exact Hinv2 | congruence].
Qed.

End Supervisor.

(* ------------------------------------------------------------------ *)
(** * The log of a run *)

Lemma emits_silent {A} P (m : M A) :
  (forall os, log (snd (m os)) = log os) -> emits P m.
Proof.
  intros Hm os. exists []. rewrite app_nil_r. split; [apply Hm | constructor].
Qed.

Lemma emits_ret {A} P (a : A) : emits P (ret a).
Proof. apply emits_silent. reflexivity. Qed.

Lemma emits_stuck {A} P : emits P (@stuck A).
Proof. apply emits_silent. reflexivity. Qed.

Lemma emits_halt {A} P e : emits P (@halt A e).
Proof. apply emits_silent. reflexivity. Qed.

Lemma emits_get_errno P : emits P get_errno.
Proof. apply emits_silent. reflexivity. Qed.

Lemma emits_syscall (P : Event -> Prop) ev : P ev -> emits P (syscall ev).
Proof.
  intros Hev os. exists [ev]. split; [| repeat constructor; exact Hev].
  unfold syscall. destruct (script os); reflexivity.
Qed.

Lemma emits_store (P : Event -> Prop) addr bytes :
  P (EvStore addr bytes) -> emits P (store addr bytes).
Proof. intros Hev os. exists [EvStore addr bytes]. split; [reflexivity | auto]. Qed.

Lemma emits_perror (P : Event -> Prop) : P EvPerror -> emits P perror.
Proof. intros Hev os. exists [EvPerror]. split; [reflexivity | auto]. Qed.

Lemma emits_bind {A B} P (m : M A) (f : A -> M B) :
  emits P m -> (forall a, emits P (f a)) -> emits P (bind m f).
Proof.
  intros Hm Hf os. destruct (Hm os) as (d1 & E1 & F1).
  unfold bind. destruct (m os) as [[a | e |] os1]; cbn [snd] in *.
  - destruct (Hf a os1) as (d2 & E2 & F2).
    exists (d1 ++ d2). rewrite E2, E1, app_assoc.
    split; [reflexivity | apply Forall_app; auto].
  - exists d1. auto.
  - exists d1. auto.
Qed.

Lemma emits_with_fuel {A} P (f : nat -> M A) :
  (forall n, emits P (f n)) -> emits P (with_fuel f).
Proof. intros Hf os. unfold with_fuel. apply Hf. Qed.

(** Goals [emits P m] for straight-line [m]: follow the shape of the
    program; what is left are the events themselves. *)
Ltac emits_step :=
  match goal with
  | |- emits _ (ret _) => apply emits_ret
  | |- emits _ stuck => apply emits_stuck
  | |- emits _ (halt _) => apply emits_halt
  | |- emits _ abort => apply emits_halt
  | |- emits _ get_errno => apply emits_get_errno
  | |- emits _ (syscall _) => apply emits_syscall
  | |- emits _ (store _ _) => apply emits_store
  | |- emits _ perror => apply emits_perror
  | |- emits _ (with_fuel _) => apply emits_with_fuel; intros ?
  | |- emits _ (bind _ _) => apply emits_bind; [| intros ?]
  | |- emits _ (match ?x with _ => _ end) => destruct x
  | |- emits _ (let _ := _ in _) => cbv zeta
  end.

Ltac emits_auto := repeat emits_step.

Section Logs.

Context `{Platform}.

Lemma emits_sys_int P ev : P ev -> emits P (sys_int ev).
Proof. intros. unfold sys_int. emits_auto. assumption. Qed.

Lemma emits_write P fd bytes : P (EvWrite fd bytes) -> emits P (write fd bytes).
Proof. intros. unfold write. emits_auto. assumption. Qed.

Lemma emits_read P fd data off n :
  P (EvRead fd off n) -> emits P (read fd data off n).
Proof. intros. unfold read. emits_auto. assumption. Qed.

Lemma emits_mmap P addr len prot :
  P (EvMmap addr len prot) -> emits P (mmap addr len prot).
Proof. intros. unfold mmap. emits_auto. assumption. Qed.

Lemma emits_ReadAll_retry P fd fuel :
  (forall off n, P (EvRead fd off n)) ->
  forall data off n, emits P (ReadAll_retry fuel fd data off n).
Proof.
  intros HP. induction fuel as [| fuel IH]; intros data off n; cbn [ReadAll_retry].
  - apply emits_stuck.
  - apply emits_bind; [apply emits_read, HP |]. intros [r d].
    apply emits_bind; [apply emits_get_errno |]. intros err.
    destruct (IsRetryable err); [apply IH | apply emits_ret].
Qed.

Lemma emits_ReadAll_loop P fd fuel :
  (forall off n, P (EvRead fd off n)) ->
  forall data off, emits P (ReadAll_loop fuel fd data off).
Proof.
  intros HP. induction fuel as [| fuel IH]; intros data off; cbn [ReadAll_loop].
  - apply emits_stuck.
  - destruct (off <? length data)%nat; [| apply emits_ret].
    apply emits_bind.
    + apply emits_with_fuel. intros f. apply emits_ReadAll_retry, HP.
    + intros [[r err] d].
      destruct (r <? 0); [apply emits_ret |].
      destruct (r =? 0); [apply emits_ret | apply IH].
Qed.

Lemma emits_WriteAll_retry P fd fuel :
  (forall bytes, P (EvWrite fd bytes)) ->
  forall bytes, emits P (WriteAll_retry fuel fd bytes).
Proof.
  intros HP. induction fuel as [| fuel IH]; intros bytes; cbn [WriteAll_retry].
  - apply emits_stuck.
  - apply emits_bind; [apply emits_write, HP |]. intros r.
    apply emits_bind; [apply emits_get_errno |]. intros err.
    destruct (IsRetryable err); [apply IH | apply emits_ret].
Qed.

Lemma emits_WriteAll_loop P fd fuel :
  (forall bytes, P (EvWrite fd bytes)) -> P (EvClose fd) ->
  forall data off, emits P (WriteAll_loop fuel fd data off).
Proof.
  intros HP HC. induction fuel as [| fuel IH]; intros data off; cbn [WriteAll_loop].
  - apply emits_stuck.
  - destruct (off <? length data)%nat.
    + apply emits_bind.
      * apply emits_with_fuel. intros f. apply emits_WriteAll_retry, HP.
      * intros [r err]. destruct (r <? 0); [apply emits_ret | apply IH].
    + apply emits_bind; [apply emits_sys_int, HC | intros ?; apply emits_ret].
Qed.

Lemma emits_ReadAll fd : emits (pipe_event fd) (ReadAll fd).
Proof.
  unfold ReadAll. apply emits_bind.
  - apply emits_with_fuel. intros f. apply emits_ReadAll_loop.
    intros off n. left. exists off, n. reflexivity.
  - intros [st | [off pd]]; [apply emits_ret |].
    destruct (negb _); [apply emits_ret |].
    apply emits_bind; [| intros ?; apply emits_ret].
    apply emits_sys_int. right. right. reflexivity.
Qed.

Lemma emits_ParentProcessInner pid aa :
  emits (tracing_event pid) (ParentProcessInner pid aa).
Proof.
  unfold ParentProcessInner, waitpid, ptrace, ptrace_getsiginfo,
    ptrace_getregs, sys_int.
  emits_auto; solve [left; reflexivity | right; eexists; reflexivity].
Qed.

End Logs.

(* ------------------------------------------------------------------ *)
(** * What [ReadAll] returns *)

Section Codec.

Context `{Platform}.

Lemma ok_ErrnoToStatus (e : positive) msg : ok (ErrnoToStatus (Zpos e) msg) = false.
Proof.
  unfold ok, ErrnoToStatus. cbn [code]. apply Z.eqb_neq.
  apply ErrnoToStatusCode_error.
Qed.

(** A negative result of the retry loop comes with the [errno] of a
    failed [read]. *)
Lemma ReadAll_retry_failed fuel fd :
  forall data off n os r err d os',
    ReadAll_retry fuel fd data off n os = (Val (r, err, d), os') ->
    r < 0 -> exists e : positive, err = Zpos e.
Proof.
  induction fuel as [| fuel IH]; intros data off n os r err d os' E Hr.
  - discriminate.
  - cbn [ReadAll_retry] in E. destruct os as [e0 sc lg].
    unfold read, syscall, bind, get_errno, ret, stuck in E.
    run_cases E;
      try (eapply IH; eassumption);
      inversion E; subst; try lia; eauto.
Qed.

Lemma ReadAll_loop_error fuel fd :
  forall data off os st os',
    ReadAll_loop fuel fd data off os = (Val (inl st), os') -> ok st = false.
Proof.
  induction fuel as [| fuel IH]; intros data off os st os' E.
  - discriminate.
  - cbn [ReadAll_loop] in E.
    destruct (off <? length data)%nat; [| discriminate].
    apply bind_val in E. destruct E as ([[r err] d] & os1 & E1 & E).
    destruct (r <? 0) eqn:Hr.
    + inversion E; subst. apply Z.ltb_lt in Hr.
      unfold with_fuel in E1.
      destruct (ReadAll_retry_failed _ _ _ _ _ _ E1 Hr) as (e & ->).
      apply ok_ErrnoToStatus.
    + destruct (r =? 0); [discriminate |]. eapply IH; eassumption.
Qed.

Lemma sys_int_val ev os r os' :
  sys_int ev os = (Val r, os') -> log os' = log os ++ [ev].
Proof.
  destruct os as [e sc lg]. unfold sys_int, syscall, bind, ret, stuck.
  intros E. run_cases E; inversion E; subst; reflexivity.
Qed.

(** A returning [ReadAll] has read, and it has closed the descriptor
    exactly when it returns a frame. *)
Lemma ReadAll_val fd os r os' :
  ReadAll fd os = (Val r, os') ->
  exists reads,
    Forall (read_of fd) reads /\
    match r with
    | inl st => ok st = false /\ log os' = log os ++ reads
    | inr pd => log os' = log os ++ reads ++ [EvClose fd]
    end.
Proof.
  unfold ReadAll. intros E.
  apply bind_val in E. destruct E as (r0 & os1 & E1 & E).
  unfold with_fuel in E1.
  assert (emits (read_of fd)
            (ReadAll_loop (S (length (script os))) fd
                          (repeat x00 PipedData.sizeof) 0)) as Hem
      by (apply emits_ReadAll_loop; intros off n; exists off, n; reflexivity).
  destruct (Hem os) as (reads & Hlog & Hreads).
  rewrite E1 in Hlog. cbn [snd] in Hlog.
  exists reads. split; [exact Hreads |].
  destruct r0 as [st | [off pd]].
  - inversion E; subst. split; [| exact Hlog].
    eapply ReadAll_loop_error; eassumption.
  - destruct (negb (off =? PipedData.sizeof)%nat).
    + inversion E; subst. split; [reflexivity | exact Hlog].
    + apply bind_val in E. destruct E as (c & os2 & E2 & E).
      inversion E; subst. apply sys_int_val in E2.
      rewrite E2, Hlog, app_assoc. reflexivity.
Qed.

End Codec.

(* ------------------------------------------------------------------ *)
(** * The supervisor: classification, frame, exit paths *)

Section SupervisorTheorems.

Context `{Platform}.

(** C6.  When the second stop of the child is a segment violation,
    [ParentProcessInner] asks for the signal info, aligns the fault
    address down to a multiple of [block_size], pushes it at the back
    of [accessed_blocks] unless it is there already, and returns ok; when
    the second stop is an abort it returns ok and leaves
    [accessed_addrs] as it was. *)
Theorem ParentProcessInner_segv_abort :
  forall pid aa e lg s1 a s2,
    WIFSTOPPED s1 = true -> int_answer a = true -> WIFSTOPPED s2 = true ->
    (WSTOPSIG s2 = SIGSEGV ->
     forall si_addr rest,
       let addr := AlignDown (wrap64 si_addr) (block_size aa) in
       ParentProcessInner pid aa
         (mkOS e (WStatus s1 :: a :: WStatus s2 :: SigInfo si_addr :: rest) lg)
       = (Val (OkStatus,
               if existsb (Z.eqb addr) (accessed_blocks aa) then aa
               else set_accessed_blocks aa (accessed_blocks aa ++ [addr])),
          mkOS (errno_after a e) rest
               (lg ++ [EvWaitpid pid; EvPtrace PTRACE_CONT pid; EvWaitpid pid;
                       EvPtrace PTRACE_GETSIGINFO pid]))
       /\ (0 < block_size aa ->
           addr mod block_size aa = 0 /\
           addr <= wrap64 si_addr < addr + block_size aa)) /\
    (WSTOPSIG s2 = SIGABRT ->
     forall rest,
       ParentProcessInner pid aa (mkOS e (WStatus s1 :: a :: WStatus s2 :: rest) lg)
       = (Val (OkStatus, aa),
          mkOS (errno_after a e) rest
               (lg ++ [EvWaitpid pid; EvPtrace PTRACE_CONT pid; EvWaitpid pid]))).
Proof.
  intros pid aa e lg s1 a s2 Hs1 Ha Hs2.
  split.
  - intros Hsig si_addr rest addr. split.
    + unfold ParentProcessInner, waitpid, ptrace, ptrace_getsiginfo, sys_int,
        syscall, bind, ret.
      cbn [script errno log errno_after]. rewrite Hs1. cbn [negb].
      destruct a; try discriminate Ha; cbn [script errno log errno_after];
        rewrite Hs2; cbn [negb]; rewrite Hsig;
        change (SIGSEGV =? SIGSEGV) with true; cbn [script errno log errno_after];
        fold addr;
        destruct (existsb (Z.eqb addr) (accessed_blocks aa));
        cbn [negb]; rewrite <- !app_assoc; reflexivity.
    + intros Hbs. split.
      * apply AlignDown_multiple; [apply wrap64_range | exact Hbs].
      * apply AlignDown_bounds; [apply wrap64_range | exact Hbs].
  - intros Hsig rest.
    unfold ParentProcessInner, waitpid, ptrace, sys_int, syscall, bind, ret.
    cbn [script errno log errno_after]. rewrite Hs1. cbn [negb].
    destruct a; try discriminate Ha; cbn [script errno log errno_after];
      rewrite Hs2; cbn [negb]; rewrite Hsig;
      change (SIGABRT =? SIGSEGV) with false;
      change (SIGABRT =? SIGABRT) with true; cbn [script errno log errno_after];
      rewrite <- !app_assoc; reflexivity.
Qed.

(** The log of [ParentProcess], however the run ends: the tracing calls
    of the classification, then [kill], then the reaping [waitpid], and
    only then calls on the pipe. *)
Lemma ParentProcess_log pid fd aa os :
  exists d_inner d_tail,
    log (snd (ParentProcess pid fd aa os)) = log os ++ d_inner ++ d_tail /\
    Forall (tracing_event pid) d_inner /\
    (d_tail = [] \/
     d_tail = [EvKill pid SIGKILL] \/
     exists d_pipe,
       d_tail = EvKill pid SIGKILL :: EvWaitpid pid :: d_pipe /\
       Forall (pipe_event fd) d_pipe).
Proof.
  destruct (emits_ParentProcessInner pid aa os) as (d_inner & E & F).
  exists d_inner.
  unfold ParentProcess, kill, waitpid_null, sys_int, syscall, bind, ret, stuck.
  destruct (ParentProcessInner pid aa os) as [[[result aa0] | e |] [e1 sc lg]];
    cbn [snd log] in E; subst lg.
  2, 3: exists []; rewrite app_nil_r; cbn [snd log]; auto.
  repeat (cbn beta iota delta [script errno log snd errno_after];
          match goal with
          | |- context [match ?x with _ => _ end] =>
              lazymatch x with
              | context [match _ with _ => _ end] => fail
              | _ => destruct x eqn:?
              end
          end).
  all: cbn beta iota delta [script errno log snd errno_after].
  all: try match goal with
           | ER : ReadAll ?f ?o = (_, ?o3) |- _ =>
               let dp := fresh "dp" in
               let Elog := fresh "Elog" in
               let Fp := fresh "Fp" in
               destruct (emits_ReadAll f o) as (dp & Elog & Fp);
               rewrite ER in Elog; cbn [snd log] in Elog; rewrite Elog;
               exists (EvKill pid SIGKILL :: EvWaitpid pid :: dp);
               split; [rewrite <- !app_assoc; reflexivity |];
               split; [exact F |]; right; right; eauto
           end.
  all: try (exists [EvKill pid SIGKILL];
            split; [rewrite <- ?app_assoc; reflexivity |];
            split; [exact F |]; right; left; reflexivity).
  all: exists [EvKill pid SIGKILL; EvWaitpid pid];
    (split; [rewrite <- !app_assoc; reflexivity |]);
    (split; [exact F |]); right; right; exists []; auto.
Qed.

(** Whatever the run, every [read] in the log of [ParentProcess] is on
    the pipe and comes after the [kill] and the reaping [waitpid], which
    follow the tracing calls of the classification. *)
Lemma ParentProcess_reads_late pid fd aa os pre rfd off n post :
  log (snd (ParentProcess pid fd aa os))
  = log os ++ pre ++ EvRead rfd off n :: post ->
  rfd = fd /\
  exists p1 p2,
    pre = p1 ++ EvKill pid SIGKILL :: EvWaitpid pid :: p2 /\
    Forall (tracing_event pid) p1.
Proof.
  intros E.
  destruct (ParentProcess_log pid fd aa os) as (d_inner & d_tail & L & Fi & Ft).
  rewrite L in E. apply app_inv_head in E.
  assert (forall l, Forall (tracing_event pid) l -> ~ In (EvRead rfd off n) l)
    as Hnot.
  { intros l Fl HIn. rewrite Forall_forall in Fl.
    destruct (Fl _ HIn) as [C | (req & C)]; discriminate C. }
  apply app_eq_app in E. destruct E as (l & [[E1 E2] | [E1 E2]]).
  - exfalso. destruct l as [| x l]; cbn in E2.
    + destruct Ft as [C | [C | (d_pipe & C & _)]];
        rewrite C in E2; discriminate E2.
    + inversion E2; subst x. apply (Hnot d_inner Fi). rewrite E1.
      apply in_or_app. right. left. reflexivity.
  - destruct Ft as [C | [C | (d_pipe & C & Fp)]]; rewrite C in E2.
    + destruct l; discriminate E2.
    + destruct l as [| x [| y l]]; inversion E2.
    + destruct l as [| x [| y l]]; inversion E2; subst.
      assert (pipe_event fd (EvRead rfd off n)) as Hp.
      { rewrite Forall_forall in Fp. apply Fp.
        apply in_or_app. right. left. reflexivity. }
      split.
      * destruct Hp as [(o & m & C') | [(b & C') | C']]; inversion C'.
        reflexivity.
      * exists d_inner, l. split; [reflexivity | exact Fi].
Qed.

(** C10.  A trial changes [accessed_blocks] at most by one element
    pushed at the back, and it changes neither [block_size] nor
    [initial_regs]: the length of [accessed_blocks] grows by zero or by
    one. *)
Theorem ForkAndTestAddresses_appends_at_most_one :
  forall bb aa os st aa' os',
    ForkAndTestAddresses bb aa os = (Val (st, aa'), os') ->
    block_size aa' = block_size aa /\
    initial_regs aa' = initial_regs aa /\
    (accessed_blocks aa' = accessed_blocks aa \/
     exists a, accessed_blocks aa' = accessed_blocks aa ++ [a]) /\
    (length (accessed_blocks aa') = length (accessed_blocks aa) \/
     length (accessed_blocks aa') = S (length (accessed_blocks aa))).
Proof.
  intros bb aa os st aa' os' E.
  apply ForkAndTestAddresses_frame in E. destruct E as (Hb & Hr & Hl).
  repeat split; try assumption.
  destruct Hl as [-> | (a & ->)]; [left; reflexivity |].
  right. rewrite length_app. cbn. lia.
Qed.

(** C4.  The supervisor keeps the invariant of [accessed_blocks] (every
    element a multiple of [block_size], no element twice), and every
    [AccessedAddrs] that [FindAccessedAddrs] returns satisfies it.  The
    page size is taken from the transcript; it is positive on every
    platform. *)
Theorem FindAccessedAddrs_blocks_aligned_distinct :
  (forall pid fd aa os st aa' os',
      ParentProcess pid fd aa os = (Val (st, aa'), os') ->
      0 < block_size aa -> blocks_inv aa -> blocks_inv aa') /\
  (forall gen bb os aa os',
      FindAccessedAddrs gen bb os = (Val (inr aa), os') ->
      0 < block_size aa ->
      Forall (fun a => a mod block_size aa = 0) (accessed_blocks aa) /\
      NoDup (accessed_blocks aa)).
Proof.
  split.
  - intros pid fd aa os st aa' os' E Hbs Hinv.
    apply ParentProcess_effect in E. destruct E as (st0 & aa0 & E0 & E1).
    assert (blocks_inv aa0) as Hinv0.
    { destruct E0 as [-> | E0]; [exact Hinv |]. eapply pushed_block_inv; eauto. }
    destruct E1 as [-> | (v & ->)]; exact Hinv0.
  - intros gen bb os aa os' E Hbs.
    unfold FindAccessedAddrs in E.
    apply bind_val in E. destruct E as (page & os1 & _ & E).
    unfold with_fuel in E.
    pose proof (FindAccessedAddrs_loop_block_size _ _ _ _ _ _ E) as Hsize.
    apply FindAccessedAddrs_loop_inv in E.
    + destruct E as [Hinv _]. exact Hinv.
    + rewrite <- Hsize. exact Hbs.
    + unfold blocks_inv. cbn. split; constructor.
Qed.

End SupervisorTheorems.

(* ------------------------------------------------------------------ *)
(** * The frame of a failing child *)

Lemma skipn_repeat (x : byte) n m : skipn n (repeat x m) = repeat x (m - n).
Proof. revert n. induction m as [| m IH]; intros [| n]; cbn; auto. Qed.

Lemma Z_of_byte_of_Z z : Z_of_byte (byte_of_Z z) = z mod 256.
Proof.
  unfold Z_of_byte, byte_of_Z.
  assert (0 <= z mod 256 < 256) as Hb by (apply Z.mod_pos_bound; lia).
  destruct (Byte.of_N (Z.to_N (z mod 256))) as [b |] eqn:E.
  - apply Byte.to_of_N in E. rewrite E. lia.
  - apply Byte.of_N_None_iff in E. lia.
Qed.

Lemma load_store_le n z : load_le (store_le n z) = z mod 2 ^ (8 * Z.of_nat n).
Proof.
  revert z. induction n as [| n IH]; intros z.
  - cbn. rewrite Z.mod_1_r. reflexivity.
  - cbn [store_le load_le]. rewrite IH, Z_of_byte_of_Z.
    apply Z.bits_inj'. intros k Hk.
    rewrite Z.lor_spec. change 256 with (2 ^ 8).
    rewrite !Z.testbit_mod_pow2 by lia.
    destruct (Z.ltb_spec k 8) as [Hlt | Hge].
    + rewrite Z.shiftl_spec_low by lia.
      destruct (Z.ltb_spec k (8 * Z.of_nat (S n))); [| lia].
      rewrite orb_false_r. reflexivity.
    + rewrite Z.shiftl_spec by lia.
      rewrite Z.testbit_mod_pow2 by lia.
      rewrite Z.shiftr_spec by lia.
      replace (k - 8 + 8) with k by lia. cbn [andb orb].
      destruct (Z.ltb_spec (k - 8) (8 * Z.of_nat n));
        destruct (Z.ltb_spec k (8 * Z.of_nat (S n))); try lia; reflexivity.
Qed.

Lemma length_store_le n z : length (store_le n z) = n.
Proof. revert z. induction n as [| n IH]; intros z; cbn; auto. Qed.

Lemma sign32_mod z : sign32 (z mod 2 ^ 32) = sign32 z.
Proof. unfold sign32. rewrite Z.mod_mod by lia. reflexivity. Qed.

Lemma c_str_app_nul l rest : c_str (l ++ x00 :: rest) = c_str l.
Proof.
  induction l as [| b l IH]; cbn; [reflexivity |].
  destruct (Byte.eqb b x00); [reflexivity | rewrite IH; reflexivity].
Qed.

(** A zeroed object of [total] bytes after a header has been stored at
    0 and a body right behind it. *)
Lemma write_header_body (hdr body : list byte) total :
  (length hdr + length body <= total)%nat ->
  write_at (length hdr) body (write_at 0 hdr (repeat x00 total))
  = hdr ++ body ++ repeat x00 (total - length hdr - length body).
Proof.
  intros Hfit. unfold write_at. cbn [firstn app Nat.add].
  rewrite skipn_repeat.
  rewrite firstn_app, firstn_all, Nat.sub_diag. cbn [firstn].
  rewrite app_nil_r. f_equal. f_equal.
  rewrite skipn_app, skipn_all2 by lia. cbn [app].
  rewrite skipn_repeat. f_equal. lia.
Qed.

Lemma starts_with_syscall {B} ev (f : Answer -> M B) :
  (forall a, emits any_event (f a)) -> starts_with ev (bind (syscall ev) f).
Proof.
  intros Hf os. unfold bind, syscall. destruct (script os) as [| a rest].
  - exists []. reflexivity.
  - match goal with |- context [f a ?o] => destruct (Hf a o) as (d & E & _) end.
    exists d. rewrite E. cbn [log]. rewrite <- app_assoc. reflexivity.
Qed.

Lemma starts_with_bind {A B} ev (m : M A) (f : A -> M B) :
  starts_with ev m -> (forall a, emits any_event (f a)) ->
  starts_with ev (bind m f).
Proof.
  intros Hm Hf os. destruct (Hm os) as (d1 & E1).
  unfold bind. destruct (m os) as [[a | e |] os1]; cbn [snd] in *; eauto.
  destruct (Hf a os1) as (d2 & E2 & _).
  exists (d1 ++ d2). rewrite E2, E1, <- app_assoc. reflexivity.
Qed.

Section Frame.

Context `{Platform}.

Lemma length_AbortPipedData st : length (AbortPipedData st) = PipedData.sizeof.
Proof.
  unfold AbortPipedData, repmovsb, PipedData.set_status_code, MakePipedData.
  change PipedData.status_code_offset with 0%nat.
  change PipedData.status_message_offset with (length (store_le 4 (code st))).
  rewrite write_header_body.
  - rewrite !length_app, repeat_length. 
    assert (length (store_le 4 (code st)) +
            length (firstn (Nat.min (length (list_byte_of_string (message st)))
                                    (PipedData.status_message_size - 1))
                           (list_byte_of_string (message st)))
            <= PipedData.sizeof)%nat; [| lia].
    rewrite length_store_le, length_firstn.
    unfold PipedData.status_message_size, PipedData.sizeof. lia.
  - rewrite length_store_le, length_firstn.
    unfold PipedData.status_message_size, PipedData.sizeof. lia.
Qed.

Lemma AbortPipedData_bytes st :
  let msg := list_byte_of_string (message st) in
  let n := Nat.min (length msg) (PipedData.status_message_size - 1) in
  AbortPipedData st
  = store_le 4 (code st) ++ firstn n msg
      ++ repeat x00 (PipedData.sizeof - PipedData.status_message_offset - n).
Proof.
  intros msg n.
  unfold AbortPipedData, repmovsb, PipedData.set_status_code, MakePipedData.
  fold msg. fold n.
  change PipedData.status_code_offset with 0%nat.
  assert (length (firstn n msg) = n) as Hn
      by (rewrite length_firstn; unfold n; lia).
  replace PipedData.status_message_offset with (length (store_le 4 (code st)))
    by apply length_store_le.
  rewrite write_header_body.
  - rewrite Hn. reflexivity.
  - rewrite Hn, length_store_le. unfold n, PipedData.status_message_size,
      PipedData.sizeof. lia.
Qed.

Lemma starts_with_with_fuel {A} ev (f : nat -> M A) :
  (forall n, starts_with ev (f (S n))) -> starts_with ev (with_fuel f).
Proof. intros Hf os. unfold with_fuel. apply Hf. Qed.

Lemma emits_any_WriteAll_loop fuel fd data off :
  emits any_event (WriteAll_loop fuel fd data off).
Proof. apply emits_WriteAll_loop; intros; exact I. Qed.

Lemma emits_any_WriteAll_retry fuel fd bytes :
  emits any_event (WriteAll_retry fuel fd bytes).
Proof. apply emits_WriteAll_retry; intros; exact I. Qed.

(** [WriteAll] begins by handing the whole frame to [write]. *)
Lemma WriteAll_starts fd (pd : PipedData.t) :
  (0 < length pd)%nat -> starts_with (EvWrite fd pd) (WriteAll fd pd).
Proof.
  intros Hlen. unfold WriteAll. apply starts_with_with_fuel. intros k.
  cbn [WriteAll_loop].
  destruct (Nat.ltb_spec 0 (length pd)) as [_ | Hn]; [| lia].
  apply starts_with_bind.
  - apply starts_with_with_fuel. intros k'. cbn [WriteAll_retry].
    unfold write. apply starts_with_bind.
    + replace (slice 0 (length pd - 0) pd) with pd.
      * apply starts_with_syscall. intros a. emits_auto.
      * unfold slice. cbn [skipn]. rewrite Nat.sub_0_r, firstn_all. reflexivity.
    + intros r. apply emits_bind; [apply emits_get_errno |]. intros err.
      destruct (IsRetryable err); [apply emits_any_WriteAll_retry | apply emits_ret].
  - intros [r err]. destruct (r <? 0); [apply emits_ret |].
    apply emits_any_WriteAll_loop.
Qed.

(** The frame [AbortChildProcess] emits: it is the first thing handed
    to [write]; it carries the status code and the first
    [min(length, 1023)] bytes of the message; every byte behind the
    copied message (the rest of [status_message], the padding,
    [code_address]) is zero, so [status_message] is NUL-terminated and
    reads back as a C string no longer than the copy. *)
Lemma AbortChildProcess_emits :
  forall fd status,
    let msg := list_byte_of_string (message status) in
    let n := Nat.min (length msg) (PipedData.status_message_size - 1) in
    let frame := AbortPipedData status in
    (forall A : Type,
        starts_with (EvWrite fd frame) (@AbortChildProcess _ A fd status) /\
        noreturn (@AbortChildProcess _ A fd status)) /\
    length frame = PipedData.sizeof /\
    PipedData.status_code frame = sign32 (code status) /\
    (n <= 1023)%nat /\
    slice PipedData.status_message_offset n frame = firstn n msg /\
    (forall i,
        (PipedData.status_message_offset + n <= i < PipedData.sizeof)%nat ->
        nth i frame x00 = x00) /\
    nth (PipedData.status_message_offset + PipedData.status_message_size - 1)
        frame x00 = x00 /\
    c_str (skipn PipedData.status_message_offset frame) = c_str (firstn n msg).
Proof.
  intros fd status msg n frame.
  assert (length (store_le 4 (code status)) = PipedData.status_message_offset)
    as Hhdr by apply length_store_le.
  assert (n <= 1023)%nat as Hn
      by (unfold n, PipedData.status_message_size; lia).
  assert (length (firstn n msg) = n) as Hcopy
      by (rewrite length_firstn; unfold n; lia).
  pose proof (AbortPipedData_bytes status) as Hbytes.
  cbv zeta in Hbytes. fold msg in Hbytes. fold n in Hbytes. fold frame in Hbytes.
  pose proof (length_AbortPipedData status) as Hlen. fold frame in Hlen.
  assert (forall i,
             (PipedData.status_message_offset + n <= i < PipedData.sizeof)%nat ->
             nth i frame x00 = x00) as Hzero.
  { intros i Hi. rewrite Hbytes.
    rewrite app_nth2 by (rewrite Hhdr; lia).
    rewrite app_nth2 by (rewrite Hhdr, Hcopy; lia).
    apply nth_repeat. }
  split; [| split; [| split; [| split; [| split; [| split; [| split]]]]]].
  - intros A. split.
    + unfold AbortChildProcess. apply starts_with_bind.
      * apply WriteAll_starts. fold frame. rewrite Hlen.
        unfold PipedData.sizeof. lia.
      * intros _. apply emits_halt.
    + apply noreturn_AbortChildProcess.
  - exact Hlen.
  - unfold PipedData.status_code, slice.
    change PipedData.status_code_offset with 0%nat. cbn [skipn].
    rewrite Hbytes.
    replace 4%nat with (length (store_le 4 (code status)) + 0)%nat at 1
      by (rewrite length_store_le; reflexivity).
    rewrite firstn_app_2. cbn [firstn]. rewrite app_nil_r.
    rewrite load_store_le. apply sign32_mod.
  - exact Hn.
  - unfold slice. rewrite Hbytes, <- Hhdr.
    rewrite skipn_app, skipn_all2, Nat.sub_diag by lia. cbn [app skipn].
    rewrite <- Hcopy at 1.
    replace (length (firstn n msg)) with (length (firstn n msg) + 0)%nat at 1
      by lia.
    rewrite firstn_app_2. cbn [firstn]. apply app_nil_r.
  - exact Hzero.
  - apply Hzero. unfold PipedData.status_message_offset,
      PipedData.status_message_size, PipedData.sizeof. lia.
  - rewrite Hbytes, <- Hhdr.
    rewrite skipn_app, skipn_all2, Nat.sub_diag by lia. cbn [app skipn].
    rewrite Hhdr.
    destruct (PipedData.sizeof - PipedData.status_message_offset - n)%nat
      as [| k] eqn:Ek.
    + unfold PipedData.sizeof, PipedData.status_message_offset in Ek. lia.
    + cbn [repeat]. apply c_str_app_nul.
Qed.

End Frame.

(* ------------------------------------------------------------------ *)
(** * The retry loops of the codec *)

Lemma ReadAll_retry_spins fd count :
  forall k fuel data lg,
    (k < fuel)%nat ->
    ReadAll_retry fuel fd data 0 count (mkOS EINTR (repeat (Data []) k) lg)
    = (Stuck, mkOS EINTR [] (lg ++ repeat (EvRead fd 0 count) (S k))).
Proof.
  induction k as [| k IH]; intros fuel data lg Hk;
    (destruct fuel as [| fuel]; [lia |]); cbn [ReadAll_retry repeat].
  - reflexivity.
  - unfold read, syscall, bind, get_errno, ret. cbn [script errno log length errno_after].
    change (0 <=? count)%nat with true. cbn beta iota delta [errno errno_after].
    change (IsRetryable EINTR) with true. cbv iota.
    rewrite IH by lia. rewrite <- app_assoc. reflexivity.
Qed.

Lemma WriteAll_retry_spins fd bytes :
  forall k fuel lg,
    (k < fuel)%nat ->
    WriteAll_retry fuel fd bytes
      (mkOS EAGAIN (repeat (Ret (Z.of_nat (length bytes))) k) lg)
    = (Stuck, mkOS EAGAIN [] (lg ++ repeat (EvWrite fd bytes) (S k))).
Proof.
  induction k as [| k IH]; intros fuel lg Hk;
    (destruct fuel as [| fuel]; [lia |]); cbn [WriteAll_retry repeat].
  - reflexivity.
  - unfold write, syscall, bind, get_errno, ret. cbn [script errno log errno_after].
    assert ((0 <=? Z.of_nat (length bytes)) &&
            (Z.of_nat (length bytes) <=? Z.of_nat (length bytes)) = true) as ->
        by (apply andb_true_iff; split; apply Z.leb_le; lia).
    cbn beta iota delta [errno errno_after].
    change (IsRetryable EAGAIN) with true. cbv iota.
    rewrite IH by lia. rewrite <- app_assoc. reflexivity.
Qed.

Lemma ReadAll_retry_after_success fd count bs k fuel data lg :
  (S k < fuel)%nat -> (length bs <= count)%nat ->
  ReadAll_retry fuel fd data 0 count
    (mkOS EINTR (Data bs :: repeat (Data []) k) lg)
  = (Stuck, mkOS EINTR [] (lg ++ repeat (EvRead fd 0 count) (S (S k)))).
Proof.
  intros Hk Hbs. destruct fuel as [| fuel]; [lia |]. cbn [ReadAll_retry].
  unfold read, syscall, bind, get_errno, ret. cbn [script errno log errno_after].
  destruct (Nat.leb_spec (length bs) count) as [_ | Hn]; [| lia].
  cbn beta iota delta [errno errno_after].
  change (IsRetryable EINTR) with true. cbv iota.
  rewrite ReadAll_retry_spins by lia. rewrite <- app_assoc. reflexivity.
Qed.

Lemma WriteAll_retry_after_success fd bytes k fuel lg :
  (S k < fuel)%nat ->
  WriteAll_retry fuel fd bytes
    (mkOS EAGAIN (repeat (Ret (Z.of_nat (length bytes))) (S k)) lg)
  = (Stuck, mkOS EAGAIN [] (lg ++ repeat (EvWrite fd bytes) (S (S k)))).
Proof. intros Hk. apply WriteAll_retry_spins. exact Hk. Qed.

Lemma length_ok_frame addr : length (ok_frame addr) = PipedData.sizeof.
Proof.
  unfold ok_frame, PipedData.set_code_address, PipedData.set_status_code,
    write_at, MakePipedData.
  rewrite !length_app, !length_firstn, !length_skipn, !length_app,
    !length_firstn, !length_skipn, !length_store_le, !repeat_length.
  reflexivity.
Qed.

Lemma slice_all (l : list byte) : slice 0 (length l - 0) l = l.
Proof. unfold slice. cbn [skipn]. rewrite Nat.sub_0_r. apply firstn_all. Qed.

Section CodecBug.

Context `{Platform}.

(** C3, the code at the failing input.  [errno] is not reset by a call
    that succeeds; the loops test it all the same.  With a retryable
    value left in [errno] by some earlier call, a [read] that delivered
    the whole frame is issued again at offset 0, and again after every
    end-of-file answer: [ReadAll] does not return within any transcript
    of this form.  [WriteAll] does the same with a [write] that took the
    whole frame. *)
Theorem codec_reissues_a_call_that_succeeded :
  forall fd addr k,
    ReadAll fd (mkOS EINTR (Data (ok_frame addr) :: repeat (Data []) k) [])
    = (Stuck, mkOS EINTR [] (repeat (EvRead fd 0 PipedData.sizeof) (S (S k))))
    /\
    WriteAll fd (ok_frame addr)
      (mkOS EAGAIN (repeat (Ret (Z.of_nat PipedData.sizeof)) (S k)) [])
    = (Stuck, mkOS EAGAIN [] (repeat (EvWrite fd (ok_frame addr)) (S (S k)))).
Proof.
  intros fd addr k. split.
  - set (script0 := Data (ok_frame addr) :: repeat (Data []) k).
    assert (length script0 = S k) as Hlen
        by (unfold script0; cbn [length]; rewrite repeat_length; reflexivity).
    unfold ReadAll. unfold bind at 1. unfold with_fuel at 1.
    cbn [script]. rewrite Hlen. cbn [ReadAll_loop].
    rewrite repeat_length.
    change (0 <? PipedData.sizeof)%nat with true. cbv iota.
    unfold bind at 1. unfold with_fuel at 1. cbn [script]. rewrite Hlen.
    unfold script0.
    rewrite ReadAll_retry_after_success;
      [reflexivity | lia | rewrite length_ok_frame; lia].
  - unfold WriteAll. unfold with_fuel at 1. cbn [script]. rewrite repeat_length.
    cbn [WriteAll_loop]. rewrite length_ok_frame.
    change (0 <? PipedData.sizeof)%nat with true. cbv iota.
    unfold bind at 1. unfold with_fuel at 1. cbn [script]. rewrite repeat_length.
    rewrite <- (length_ok_frame addr), slice_all.
    rewrite WriteAll_retry_after_success by lia.
    reflexivity.
Qed.

End CodecBug.

(* ------------------------------------------------------------------ *)
(** * The child's first calls *)

Section Child.

Context `{Platform}.

Lemma emits_fill_block fd fuel :
  forall block size i, emits (child_event fd) (fill_block fuel block size i).
Proof.
  induction fuel as [| fuel IH]; intros block size i; cbn [fill_block].
  - apply emits_stuck.
  - destruct (i <? size); [| apply emits_ret].
    apply emits_bind; [apply emits_store; exact I | intros _; apply IH].
Qed.

Lemma emits_child_WriteAll fd pd : emits (child_event fd) (WriteAll fd pd).
Proof.
  unfold WriteAll. apply emits_with_fuel. intros f.
  apply emits_WriteAll_loop; intros; reflexivity.
Qed.

Lemma emits_AbortChildProcess {A} fd st :
  emits (child_event fd) (@AbortChildProcess _ A fd st).
Proof.
  unfold AbortChildProcess.
  apply emits_bind; [apply emits_child_WriteAll | intros _; apply emits_halt].
Qed.

Lemma emits_map_accessed_blocks fd size blocks :
  emits (child_event fd) (map_accessed_blocks fd size blocks).
Proof.
  induction blocks as [| a blocks IH]; cbn [map_accessed_blocks].
  - apply emits_ret.
  - apply emits_bind; [apply emits_mmap; exact I |]. intros mapped.
    destruct (mapped =? MAP_FAILED); [apply emits_AbortChildProcess |].
    destruct (negb (mapped =? a)); [apply emits_AbortChildProcess |].
    apply emits_bind; [apply emits_fill_block | intros _; exact IH].
Qed.

Lemma emits_ChildProcess {A} bb fd aa :
  emits (child_event fd) (@ChildProcess _ A bb fd aa).
Proof.
  unfold ChildProcess, ChildProcess_mapped, ptrace, raise, munmap.
  apply emits_bind; [apply emits_sys_int; exact I | intros _].
  apply emits_bind; [apply emits_sys_int; exact I | intros _].
  apply emits_bind; [apply emits_sys_int; split; reflexivity | intros _].
  apply emits_bind; [apply emits_map_accessed_blocks | intros _].
  cbv zeta.
  apply emits_bind; [apply emits_mmap; exact I | intros mapped].
  destruct (mapped =? MAP_FAILED).
  - apply emits_bind; [apply emits_perror; exact I | intros _; apply emits_halt].
  - apply emits_bind; [apply emits_child_WriteAll | intros st].
    destruct (negb (ok st)); [apply emits_halt |].
    repeat (apply emits_bind; [apply emits_store; exact I | intros _]).
    apply emits_halt.
Qed.

(** C9, as the code has it.  Right after the initial stop and before
    anything is mapped, the child calls [munmap] on the [0x10000] bytes
    at [0x8'0000'0000], the region that holds [0x8'0000'0008], the value
    of an aligned 8-byte read from a freshly filled block; whatever
    [munmap] answers, the child goes on to map the discovered blocks.
    The child calls [munmap] nowhere else. *)
Theorem ChildProcess_unmaps_fill_value_region :
  forall (A : Type) bb fd aa e lg a1 a2 a3 rest,
    int_answer a1 = true -> int_answer a2 = true -> int_answer a3 = true ->
    @ChildProcess _ A bb fd aa (mkOS e (a1 :: a2 :: a3 :: rest) lg)
    = ChildProcess_mapped bb fd aa
        (mkOS (errno_after a3 (errno_after a2 (errno_after a1 e))) rest
              (lg ++ [EvPtrace PTRACE_TRACEME 0; EvRaise SIGSTOP;
                      EvMunmap 0x800000000 0x10000]))
    /\ 0x800000000 <= load_le [x08; x00; x00; x00; x08; x00; x00; x00]
                   < 0x800000000 + 0x10000
    /\ forall os addr len,
         In (EvMunmap addr len) (log (snd (@ChildProcess _ A bb fd aa os))) ->
         In (EvMunmap addr len) (log os) \/
         (addr = 0x800000000 /\ len = 0x10000).
Proof.
  intros A bb fd aa e lg a1 a2 a3 rest H1 H2 H3. split; [| split].
  - unfold ChildProcess, ptrace, raise, munmap, sys_int, syscall, bind, ret.
    cbn [script errno log errno_after].
    destruct a1; try discriminate H1; destruct a2; try discriminate H2;
      destruct a3; try discriminate H3;
      cbn [script errno log errno_after]; rewrite <- !app_assoc; reflexivity.
  - replace (load_le [x08; x00; x00; x00; x08; x00; x00; x00])
      with 0x800000008 by (vm_compute; reflexivity).
    lia.
  - intros os addr len HIn.
    destruct (emits_ChildProcess (A := A) bb fd aa os) as (d & L & F).
    rewrite L in HIn. apply in_app_or in HIn.
    destruct HIn as [HIn | HIn]; [left; exact HIn | right].
    rewrite Forall_forall in F. exact (F _ HIn).
Qed.

End Child.

(* ------------------------------------------------------------------ *)
(** * The driver's counter *)

Lemma trials_app l1 l2 : trials (l1 ++ l2) = (trials l1 + trials l2)%nat.
Proof. unfold trials. rewrite filter_app, length_app. reflexivity. Qed.

Lemma trials_none l :
  Forall (fun e => is_pipe_call e = false) l -> trials l = 0%nat.
Proof.
  unfold trials. induction 1 as [| e l He _ IH]; cbn; [reflexivity |].
  rewrite He. exact IH.
Qed.

Section Counter.

Context `{Platform}.

Lemma tracing_event_not_pipe_call pid e :
  tracing_event pid e -> is_pipe_call e = false.
Proof. intros [-> | (req & ->)]; reflexivity. Qed.

Lemma pipe_event_not_pipe_call fd e : pipe_event fd e -> is_pipe_call e = false.
Proof. intros [(off & n & ->) | [(bytes & ->) | ->]]; reflexivity. Qed.

Lemma pipe_val os r os' : pipe os = (Val r, os') -> log os' = log os ++ [EvPipe].
Proof.
  destruct os as [e sc lg]. unfold pipe, syscall, bind, ret, stuck.
  intros E. run_cases E; inversion E; subst; reflexivity.
Qed.

Lemma ParentProcess_trials pid fd aa os :
  trials (log (snd (ParentProcess pid fd aa os))) = trials (log os).
Proof.
  destruct (ParentProcess_log pid fd aa os) as (d_inner & d_tail & -> & Fi & Ft).
  rewrite !trials_app.
  rewrite (trials_none (l := d_inner)).
  - rewrite (trials_none (l := d_tail)); [lia |].
    destruct Ft as [-> | [-> | (d_pipe & -> & Fp)]]; repeat constructor.
    eapply Forall_impl; [| exact Fp]. apply pipe_event_not_pipe_call.
  - eapply Forall_impl; [| exact Fi]. apply tracing_event_not_pipe_call.
Qed.

(** Every trial that returns has opened exactly one pipe. *)
Lemma ForkAndTestAddresses_trials bb aa os r os' :
  ForkAndTestAddresses bb aa os = (Val r, os') ->
  trials (log os') = S (trials (log os)).
Proof.
  unfold ForkAndTestAddresses. intros E.
  apply bind_val in E. destruct E as ([c [rfd wfd]] & os1 & E1 & E).
  apply pipe_val in E1.
  assert (trials (log os1) = S (trials (log os))) as H1
      by (rewrite E1, trials_app; cbn; lia).
  destruct (negb (c =? 0)).
  - unfold bind, get_errno, ret in E. inversion E; subst. exact H1.
  - apply bind_val in E. destruct E as (pid & os2 & E2 & E).
    apply sys_int_val in E2.
    assert (trials (log os2) = S (trials (log os))) as H2
        by (rewrite E2, trials_app, H1; cbn; lia).
    destruct (pid =? -1).
    + unfold bind, get_errno, ret in E. inversion E; subst. exact H2.
    + destruct (pid =? 0); apply bind_val in E; destruct E as (? & os3 & E3 & E).
      * exfalso. exact (noreturn_ChildProcess bb wfd aa os3 E).
      * apply sys_int_val in E3.
        pose proof (ParentProcess_trials pid rfd aa os3) as HP.
        rewrite E in HP. cbn [snd] in HP.
        rewrite HP, E3, trials_app, H2. cbn. lia.
Qed.

Lemma FindAccessedAddrs_body_counter st aa gen n aa' gen' n' :
  FindAccessedAddrs_body st aa gen n = inr (aa', gen', n') -> n' = n + 1.
Proof.
  unfold FindAccessedAddrs_body. intros E.
  destruct (IsInvalidArgument st).
  - destruct (n >? 100); [discriminate |].
    destruct (RandomiseRegs gen _) as [regs g]. inversion E; subst. reflexivity.
  - destruct (negb (ok st)); [discriminate |]. inversion E; subst. reflexivity.
Qed.

Lemma FindAccessedAddrs_body_returns st aa gen n st' :
  FindAccessedAddrs_body st aa gen n = inl st' ->
  st' = st /\ (IsInvalidArgument st = true -> 100 < n).
Proof.
  unfold FindAccessedAddrs_body. intros E.
  destruct (IsInvalidArgument st).
  - destruct (n >? 100) eqn:Hn.
    + inversion E; subst. split; [reflexivity |]. intros _. lia.
    + destruct (RandomiseRegs gen _) as [regs g]. discriminate.
  - destruct (negb (ok st)); [| discriminate].
    inversion E; subst. split; [reflexivity | discriminate].
Qed.

(** An invalid-argument status leaves the loop only when the counter
    has passed 100, and the counter has counted every trial. *)
Lemma FindAccessedAddrs_loop_cap fuel :
  forall bb aa gen n os st os',
    FindAccessedAddrs_loop fuel bb aa gen n os = (Val (inl st), os') ->
    IsInvalidArgument st = true ->
    Z.of_nat (trials (log os)) + 102 - n <= Z.of_nat (trials (log os')).
Proof.
  induction fuel as [| fuel IH]; intros bb aa gen n os st os' E Hst.
  - discriminate.
  - cbn [FindAccessedAddrs_loop] in E.
    apply bind_val in E. destruct E as ([st1 aa1] & os1 & E1 & E).
    apply ForkAndTestAddresses_trials in E1.
    destruct (FindAccessedAddrs_body st1 aa1 gen n)
      as [st' | [[aa2 gen2] n2]] eqn:Eb.
    + inversion E; subst.
      apply FindAccessedAddrs_body_returns in Eb. destruct Eb as [-> Hn].
      specialize (Hn Hst). lia.
    + apply FindAccessedAddrs_body_counter in Eb. subst n2.
      destruct (negb _); [| discriminate].
      apply IH in E; [| exact Hst]. lia.
Qed.

(** A fixable failure that finds [accessed_blocks] empty ends the loop:
    after [clear()] the size is what it was before the trial, and the
    driver returns the [AccessedAddrs] with the new registers. *)
Lemma FindAccessedAddrs_loop_fixable_failure fuel bb aa gen n os st aa1 os1 :
  ForkAndTestAddresses bb aa os = (Val (st, aa1), os1) ->
  IsInvalidArgument st = true -> n <= 100 -> accessed_blocks aa = [] ->
  FindAccessedAddrs_loop (S fuel) bb aa gen n os
  = (Val (inr (set_initial_regs (set_accessed_blocks aa1 [])
                 (fst (RandomiseRegs gen (initial_regs aa1))))),
     os1).
Proof.
  intros E Hst Hn Hempty. cbn [FindAccessedAddrs_loop].
  unfold bind at 1. rewrite E.
  unfold FindAccessedAddrs_body. rewrite Hst, Hempty.
  destruct (Z.gtb_spec n 100); [lia |].
  cbn [initial_regs set_accessed_blocks].
  destruct (RandomiseRegs gen (initial_regs aa1)) as [regs g].
  reflexivity.
Qed.

(** C5, as the code has it.  The counter [n] is charged by every pass
    of the loop that does not return, successful trials included.  An
    invalid-argument trial is answered by clearing [accessed_blocks]
    and randomising the registers while [n <= 100], and is returned to
    the caller once [n > 100]; so an invalid-argument status comes back
    from the driver no earlier than at the 102nd trial of the run. *)
Theorem FindAccessedAddrs_counts_every_trial :
  forall st aa gen n,
    (IsInvalidArgument st = true -> n <= 100 ->
     FindAccessedAddrs_body st aa gen n
     = inr (set_initial_regs (set_accessed_blocks aa [])
              (fst (RandomiseRegs gen (initial_regs aa))),
            snd (RandomiseRegs gen (initial_regs aa)),
            n + 1)) /\
    (IsInvalidArgument st = true -> 100 < n ->
     FindAccessedAddrs_body st aa gen n = inl st) /\
    (ok st = true -> FindAccessedAddrs_body st aa gen n = inr (aa, gen, n + 1)) /\
    (forall bb os os',
        FindAccessedAddrs gen bb os = (Val (inl st), os') ->
        IsInvalidArgument st = true ->
        (trials (log os) + 102 <= trials (log os'))%nat).
Proof.
  intros st aa gen n. unfold FindAccessedAddrs_body.
  split; [| split; [| split]].
  - intros Hst Hn. rewrite Hst.
    destruct (Z.gtb_spec n 100); [lia |].
    cbn [initial_regs set_accessed_blocks].
    destruct (RandomiseRegs gen (initial_regs aa)) as [regs g]. reflexivity.
  - intros Hst Hn. rewrite Hst.
    destruct (Z.gtb_spec n 100); [reflexivity | lia].
  - intros Hok. unfold IsInvalidArgument, ok in *.
    apply Z.eqb_eq in Hok. rewrite Hok. reflexivity.
  - intros bb os os' E Hst. unfold FindAccessedAddrs in E.
    apply bind_val in E. destruct E as (page & os1 & E1 & E).
    apply sys_int_val in E1. unfold with_fuel in E.
    apply FindAccessedAddrs_loop_cap in E; [| exact Hst].
    rewrite E1, trials_app in E. cbn in E. lia.
Qed.

End Counter.

(* ------------------------------------------------------------------ *)
(** * The fuel of the loops

    Every pass of a loop takes at least one answer from the transcript,
    so the fuel [with_fuel] hands out is never what stops a run: any
    larger amount gives the same run. *)

Lemma frugal_ret {A} (a : A) : frugal (ret a).
Proof. intros os b os' E. inversion E; subst. lia. Qed.

Lemma frugal_noreturn {A} (m : M A) : noreturn m -> frugal m.
Proof. intros Hm os a os' E. exfalso. exact (Hm os a os' E). Qed.

Lemma frugal_stuck {A} : frugal (@stuck A).
Proof. intros os a os' E. discriminate E. Qed.

Lemma frugal_get_errno : frugal get_errno.
Proof. intros os a os' E. inversion E; subst. lia. Qed.

Lemma pops_syscall ev : pops (syscall ev).
Proof.
  intros [e sc lg] a os'. unfold syscall. cbn [script errno log errno_after].
  destruct sc as [| x rest]; intros E; inversion E; subst. cbn. lia.
Qed.

Lemma pops_frugal {A} (m : M A) : pops m -> frugal m.
Proof. intros Hm os a os' E. apply Hm in E. lia. Qed.

Lemma frugal_bind {A B} (m : M A) (f : A -> M B) :
  frugal m -> (forall a, frugal (f a)) -> frugal (bind m f).
Proof.
  intros Hm Hf os b os' E. apply bind_val in E.
  destruct E as (a & os1 & E1 & E2). apply Hm in E1. apply Hf in E2. lia.
Qed.

Lemma pops_bind {A B} (m : M A) (f : A -> M B) :
  pops m -> (forall a, frugal (f a)) -> pops (bind m f).
Proof.
  intros Hm Hf os b os' E. apply bind_val in E.
  destruct E as (a & os1 & E1 & E2). apply Hm in E1. apply Hf in E2. lia.
Qed.

Lemma frugal_with_fuel {A} (f : nat -> M A) :
  (forall n, frugal (f n)) -> frugal (with_fuel f).
Proof. intros Hf os a os' E. unfold with_fuel in E. exact (Hf _ _ _ _ E). Qed.

Lemma pops_with_fuel {A} (f : nat -> M A) :
  (forall n, pops (f n)) -> pops (with_fuel f).
Proof. intros Hf os a os' E. unfold with_fuel in E. exact (Hf _ _ _ _ E). Qed.

(** A call pops one answer, whatever it makes of it. *)
Ltac pops_call :=
  apply pops_bind; [apply pops_syscall |];
  intros ?;
  repeat match goal with
         | |- frugal (match ?x with _ => _ end) => destruct x
         end;
  first [apply frugal_ret | apply frugal_stuck].

Lemma pops_sys_int ev : pops (sys_int ev).
Proof. unfold sys_int. pops_call. Qed.

Lemma pops_pipe : pops pipe.
Proof. unfold pipe. pops_call. Qed.

Lemma pops_waitpid pid : pops (waitpid pid).
Proof. unfold waitpid. pops_call. Qed.

Lemma pops_waitpid_null pid : pops (waitpid_null pid).
Proof. unfold waitpid_null. pops_call. Qed.

Lemma pops_ptrace_getsiginfo pid : pops (ptrace_getsiginfo pid).
Proof. unfold ptrace_getsiginfo. pops_call. Qed.

Lemma pops_ptrace_getregs pid : pops (ptrace_getregs pid).
Proof. unfold ptrace_getregs. pops_call. Qed.

Lemma pops_read fd data off n : pops (read fd data off n).
Proof. unfold read. pops_call. Qed.

Lemma pops_write fd bytes : pops (write fd bytes).
Proof. unfold write. pops_call. Qed.

(** Goals [frugal m] for straight-line [m]. *)
Ltac frugal_step :=
  match goal with
  | |- frugal (ret _) => apply frugal_ret
  | |- frugal stuck => apply frugal_stuck
  | |- frugal get_errno => apply frugal_get_errno
  | |- frugal (sys_int _) => apply pops_frugal, pops_sys_int
  | |- frugal (kill _ _) => apply pops_frugal, pops_sys_int
  | |- frugal (close _) => apply pops_frugal, pops_sys_int
  | |- frugal fork => apply pops_frugal, pops_sys_int
  | |- frugal (ptrace _ _) => apply pops_frugal, pops_sys_int
  | |- frugal (waitpid _) => apply pops_frugal, pops_waitpid
  | |- frugal (waitpid_null _) => apply pops_frugal, pops_waitpid_null
  | |- frugal (ptrace_getsiginfo _) => apply pops_frugal, pops_ptrace_getsiginfo
  | |- frugal (ptrace_getregs _) => apply pops_frugal, pops_ptrace_getregs
  | |- frugal (bind _ _) => apply frugal_bind; [| intros ?]
  | |- frugal (match ?x with _ => _ end) => destruct x
  | |- frugal (let _ := _ in _) => cbv zeta
  end.

Section Fuel.

Context `{Platform}.

Lemma bind_ext_val {A B} (m : M A) (f g : A -> M B) os :
  (forall a os1, m os = (Val a, os1) -> f a os1 = g a os1) ->
  bind m f os = bind m g os.
Proof.
  intros Hfg. unfold bind. destruct (m os) as [[a | e |] os1]; auto.
Qed.

Lemma pops_ReadAll_retry fuel fd :
  forall data off n, pops (ReadAll_retry fuel fd data off n).
Proof.
  induction fuel as [| fuel IH]; intros data off n; cbn [ReadAll_retry].
  - intros os a os' E. discriminate E.
  - apply pops_bind; [apply pops_read |]. intros [r d].
    apply frugal_bind; [apply frugal_get_errno |]. intros err.
    destruct (IsRetryable err); [apply pops_frugal, IH | apply frugal_ret].
Qed.

Lemma pops_WriteAll_retry fuel fd :
  forall bytes, pops (WriteAll_retry fuel fd bytes).
Proof.
  induction fuel as [| fuel IH]; intros bytes; cbn [WriteAll_retry].
  - intros os a os' E. discriminate E.
  - apply pops_bind; [apply pops_write |]. intros r.
    apply frugal_bind; [apply frugal_get_errno |]. intros err.
    destruct (IsRetryable err); [apply pops_frugal, IH | apply frugal_ret].
Qed.

Lemma frugal_ReadAll_loop fuel fd :
  forall data off, frugal (ReadAll_loop fuel fd data off).
Proof.
  induction fuel as [| fuel IH]; intros data off; cbn [ReadAll_loop].
  - apply frugal_stuck.
  - destruct (off <? length data)%nat; [| apply frugal_ret].
    apply frugal_bind.
    + apply frugal_with_fuel. intros f. apply pops_frugal, pops_ReadAll_retry.
    + intros [[r err] d]. destruct (r <? 0); [apply frugal_ret |].
      destruct (r =? 0); [apply frugal_ret | apply IH].
Qed.

Lemma frugal_ReadAll fd : frugal (ReadAll fd).
Proof.
  unfold ReadAll. apply frugal_bind.
  - apply frugal_with_fuel. intros f. apply frugal_ReadAll_loop.
  - intros [st | [off pd]]; repeat frugal_step.
Qed.

Lemma frugal_ParentProcess pid fd aa : frugal (ParentProcess pid fd aa).
Proof.
  unfold ParentProcess. apply frugal_bind.
  - unfold ParentProcessInner. repeat frugal_step.
  - intros [result aa0]. apply frugal_bind; [frugal_step |]. intros err.
    destruct (negb (err =? 0)); [apply frugal_ret |].
    apply frugal_bind; [frugal_step |]. intros _.
    destruct (negb (ok result)); [apply frugal_ret |].
    apply frugal_bind; [apply frugal_ReadAll |].
    intros [st | pd]; repeat frugal_step.
Qed.

Lemma pops_ForkAndTestAddresses bb aa : pops (ForkAndTestAddresses bb aa).
Proof.
  unfold ForkAndTestAddresses. apply pops_bind; [apply pops_pipe |].
  intros [r [rfd wfd]]. destruct (negb (r =? 0)); [repeat frugal_step |].
  apply frugal_bind; [frugal_step |]. intros pid.
  destruct (pid =? -1); [repeat frugal_step |].
  destruct (pid =? 0).
  - apply frugal_noreturn, noreturn_bind. intros _. apply noreturn_ChildProcess.
  - apply frugal_bind; [frugal_step | intros _; apply frugal_ParentProcess].
Qed.

Lemma ReadAll_retry_fuel fd :
  forall f1 f2 data off n os,
    (length (script os) < f1)%nat -> (length (script os) < f2)%nat ->
    ReadAll_retry f1 fd data off n os = ReadAll_retry f2 fd data off n os.
Proof.
  induction f1 as [| f1 IH]; intros f2 data off n os H1 H2; [lia |].
  destruct f2 as [| f2]; [lia |]. cbn [ReadAll_retry].
  apply bind_ext_val. intros [r d] os1 E1. apply pops_read in E1.
  apply bind_ext_val. intros err os2 E2. inversion E2; subst.
  destruct (IsRetryable (errno os2)); [| reflexivity].
  apply IH; lia.
Qed.

Lemma WriteAll_retry_fuel fd :
  forall f1 f2 bytes os,
    (length (script os) < f1)%nat -> (length (script os) < f2)%nat ->
    WriteAll_retry f1 fd bytes os = WriteAll_retry f2 fd bytes os.
Proof.
  induction f1 as [| f1 IH]; intros f2 bytes os H1 H2; [lia |].
  destruct f2 as [| f2]; [lia |]. cbn [WriteAll_retry].
  apply bind_ext_val. intros r os1 E1. apply pops_write in E1.
  apply bind_ext_val. intros err os2 E2. inversion E2; subst.
  destruct (IsRetryable (errno os2)); [| reflexivity].
  apply IH; lia.
Qed.

Lemma ReadAll_loop_fuel fd :
  forall f1 f2 data off os,
    (length (script os) < f1)%nat -> (length (script os) < f2)%nat ->
    ReadAll_loop f1 fd data off os = ReadAll_loop f2 fd data off os.
Proof.
  induction f1 as [| f1 IH]; intros f2 data off os H1 H2; [lia |].
  destruct f2 as [| f2]; [lia |]. cbn [ReadAll_loop].
  destruct (off <? length data)%nat; [| reflexivity].
  apply bind_ext_val. intros [[r err] d] os1 E1.
  apply (pops_with_fuel (fun f => ReadAll_retry f fd data off _)) in E1;
    [| intros k; apply pops_ReadAll_retry].
  destruct (r <? 0); [reflexivity |]. destruct (r =? 0); [reflexivity |].
  apply IH; lia.
Qed.

Lemma WriteAll_loop_fuel fd :
  forall f1 f2 data off os,
    (length (script os) < f1)%nat -> (length (script os) < f2)%nat ->
    WriteAll_loop f1 fd data off os = WriteAll_loop f2 fd data off os.
Proof.
  induction f1 as [| f1 IH]; intros f2 data off os H1 H2; [lia |].
  destruct f2 as [| f2]; [lia |]. cbn [WriteAll_loop].
  destruct (off <? length data)%nat; [| reflexivity].
  apply bind_ext_val. intros [r err] os1 E1.
  apply (pops_with_fuel (fun f => WriteAll_retry f fd _)) in E1;
    [| intros k; apply pops_WriteAll_retry].
  destruct (r <? 0); [reflexivity |].
  apply IH; lia.
Qed.

Lemma FindAccessedAddrs_loop_fuel :
  forall f1 f2 bb aa gen n os,
    (length (script os) < f1)%nat -> (length (script os) < f2)%nat ->
    FindAccessedAddrs_loop f1 bb aa gen n os
    = FindAccessedAddrs_loop f2 bb aa gen n os.
Proof.
  induction f1 as [| f1 IH]; intros f2 bb aa gen n os H1 H2; [lia |].
  destruct f2 as [| f2]; [lia |]. cbn [FindAccessedAddrs_loop].
  apply bind_ext_val. intros [st aa1] os1 E1.
  apply pops_ForkAndTestAddresses in E1.
  destruct (FindAccessedAddrs_body st aa1 gen n) as [st' | [[aa2 gen2] n2]];
    [reflexivity |].
  destruct (negb _); [| reflexivity].
  apply IH; lia.
Qed.

(** The fill loop never runs out of its fuel. *)
Lemma fill_block_fuel block size :
  forall fuel i os,
    i <= size + 3 -> size - i + 4 <= 4 * Z.of_nat fuel ->
    fst (fill_block fuel block size i os) = Val tt.
Proof.
  induction fuel as [| fuel IH]; intros i os Hi Hf; [lia |].
  cbn [fill_block]. destruct (Z.ltb_spec i size); [| reflexivity].
  unfold bind, store. apply IH; lia.
Qed.

Lemma fill_block_returns block size os :
  0 <= size ->
  fst (fill_block (S (Z.to_nat size)) block size 0 os) = Val tt.
Proof. intros Hs. apply fill_block_fuel; lia. Qed.

End Fuel.

(* ------------------------------------------------------------------ *)
(** * The driver on a block that always raises a floating-point
      exception *)

(** C1, the code at the failing input.  The first trial stops with
    [SIGFPE]: the trial returns invalid-argument, the driver clears the
    (empty) [accessed_blocks], draws new registers, and then finds the
    size of [accessed_blocks] equal to what it was before the trial.  The
    loop ends and the driver returns the [AccessedAddrs], after one
    trial, whatever the rest of the transcript holds. *)
Theorem FindAccessedAddrs_succeeds_after_fpe :
  forall `{Platform} gen bb e rest,
    FindAccessedAddrs gen bb (mkOS e (Ret 4096 :: fpe_trial ++ rest) [])
    = (Val (inr (mkAccessedAddrs 0 4096 []
                   (fst (RandomiseRegs gen sample_regs)))),
       mkOS e rest
            [EvGetpagesize; EvPipe; EvFork; EvClose 4; EvWaitpid 77;
             EvPtrace PTRACE_CONT 77; EvWaitpid 77; EvKill 77 SIGKILL;
             EvWaitpid 77]).
Proof. intros P gen bb e rest. vm_compute. reflexivity. Qed.

(* ------------------------------------------------------------------ *)
(** * Runs on the sample platform *)

Section Samples.

#[local] Existing Instance sample_platform.


(** C5 fails on the code: 101 successful trials and then one
    floating-point exception.  No fixable failure has happened before,
    yet the driver returns invalid-argument, at its 102nd trial; the
    driver of the claim goes on and returns an [AccessedAddrs]. *)
Lemma successful_trials_use_up_the_retries :
  fst (FindAccessedAddrs sample_gen [] (mkOS 0 budget_transcript []))
  = Val (inl (InvalidArgumentError "Floating point exception"))
  /\ trials (log (snd (FindAccessedAddrs sample_gen []
                                           (mkOS 0 budget_transcript []))))
     = 102%nat
  /\ fst (FindAccessedAddrs_claimed sample_gen [] (mkOS 0 budget_transcript []))
     = Val (inr (mkAccessedAddrs kDefaultCodeLocation 4096 []
                   (fst (RandomiseRegs sample_gen sample_regs)))).
Proof. repeat split; vm_compute; reflexivity. Qed.

(** C9 fails on the code: the one [munmap] of the child is at
    [0x8'0000'0000], and its [0x10000] bytes do not reach
    [0x8000'0000]. *)
Lemma ChildProcess_does_not_unmap_0x80000000 :
  filter is_munmap
    (log (snd (ChildProcess (A := unit) [xc3] 4 (sample_addrs [])
                 (mkOS 0 [Ret 0; Ret 0; Ret 0; Ret kDefaultCodeLocation;
                          Ret 1040; Ret 0] []))))
  = [EvMunmap 0x800000000 0x10000]
  /\ ~ (0x800000000 <= 0x80000000 < 0x800000000 + 0x10000).
Proof. split; [vm_compute; reflexivity | lia]. Qed.

Lemma ParentProcessInner_segv_abort_witness :
  fst (ParentProcessInner 77 (sample_addrs [0x50001000])
         (mkOS 0 [WStatus (W_STOPCODE SIGSTOP); Ret 0;
                  WStatus (W_STOPCODE SIGSEGV); SigInfo 0x50002abc] []))
  = Val (OkStatus, sample_addrs [0x50001000; 0x50002000])
  /\ fst (ParentProcessInner 77 (sample_addrs [0x50001000])
            (mkOS 0 [WStatus (W_STOPCODE SIGSTOP); Ret 0;
                     WStatus (W_STOPCODE SIGABRT)] []))
     = Val (OkStatus, sample_addrs [0x50001000]).
Proof.
  destruct (@ParentProcessInner_segv_abort sample_platform 77
              (sample_addrs [0x50001000]) 0 [] (W_STOPCODE SIGSTOP) (Ret 0)
              (W_STOPCODE SIGSEGV) eq_refl eq_refl eq_refl) as [Hsegv _].
  destruct (@ParentProcessInner_segv_abort sample_platform 77
              (sample_addrs [0x50001000]) 0 [] (W_STOPCODE SIGSTOP) (Ret 0)
              (W_STOPCODE SIGABRT) eq_refl eq_refl eq_refl) as [_ Habrt].
  destruct (Hsegv eq_refl 0x50002abc []) as [E _].
  split.
  - rewrite E. vm_compute. reflexivity.
  - rewrite (Habrt eq_refl []). reflexivity.
Defined.

Lemma ForkAndTestAddresses_appends_at_most_one_witness :
  let run := ForkAndTestAddresses [] (sample_addrs [0x50001000])
               (mkOS 0 (segv_trial 0x50002abc) []) in
  run = (Val (OkStatus,
              mkAccessedAddrs kDefaultCodeLocation 4096
                              [0x50001000; 0x50002000] sample_regs),
         snd run)
  /\ length [0x50001000; 0x50002000] = S (length [0x50001000]).
Proof.
  intros run.
  assert (run = (Val (OkStatus,
                      mkAccessedAddrs kDefaultCodeLocation 4096
                                      [0x50001000; 0x50002000] sample_regs),
                 snd run)) as E by (vm_compute; reflexivity).
  split; [exact E |].
  destruct (ForkAndTestAddresses_appends_at_most_one _ _ _ E)
    as (_ & _ & _ & [Hl | Hl]); [discriminate Hl | exact Hl].
Defined.

Lemma FindAccessedAddrs_blocks_aligned_distinct_witness :
  let run := FindAccessedAddrs sample_gen []
               (mkOS 0 (Ret 4096 :: segv_trial 0x50001234
                          ++ segv_trial 0x50002abc ++ abrt_trial) []) in
  run = (Val (inr (mkAccessedAddrs kDefaultCodeLocation 4096
                                   [0x50001000; 0x50002000] sample_regs)),
         snd run)
  /\ Forall (fun a => a mod 4096 = 0) [0x50001000; 0x50002000]
  /\ NoDup [0x50001000; 0x50002000].
Proof.
  intros run.
  assert (run = (Val (inr (mkAccessedAddrs kDefaultCodeLocation 4096
                                           [0x50001000; 0x50002000] sample_regs)),
                 snd run)) as E by (vm_compute; reflexivity).
  split; [exact E |].
  exact (proj2 (@FindAccessedAddrs_blocks_aligned_distinct sample_platform)
               _ _ _ _ _ E eq_refl).
Defined.

Lemma FindAccessedAddrs_counts_every_trial_witness :
  FindAccessedAddrs_body (InvalidArgumentError "Floating point exception")
                         (sample_addrs [0x50001000]) sample_gen 100
  = inr (set_initial_regs (sample_addrs [])
           (fst (RandomiseRegs sample_gen sample_regs)),
         snd (RandomiseRegs sample_gen sample_regs), 101)
  /\ FindAccessedAddrs_body (InvalidArgumentError "Floating point exception")
                            (sample_addrs [0x50001000]) sample_gen 101
     = inl (InvalidArgumentError "Floating point exception")
  /\ FindAccessedAddrs_body OkStatus (sample_addrs [0x50001000]) sample_gen 7
     = inr (sample_addrs [0x50001000], sample_gen, 8)
  /\ (102 <= trials (log (snd (FindAccessedAddrs sample_gen []
                                 (mkOS 0 budget_transcript [])))))%nat.
Proof.
  pose proof (@FindAccessedAddrs_counts_every_trial sample_platform
                (InvalidArgumentError "Floating point exception")
                (sample_addrs [0x50001000]) sample_gen 100) as (H1 & _ & _ & _).
  pose proof (@FindAccessedAddrs_counts_every_trial sample_platform
                (InvalidArgumentError "Floating point exception")
                (sample_addrs [0x50001000]) sample_gen 101) as (_ & H2 & _ & H4).
  pose proof (@FindAccessedAddrs_counts_every_trial sample_platform
                OkStatus (sample_addrs [0x50001000]) sample_gen 7) as (_ & _ & H3 & _).
  split; [exact (H1 eq_refl ltac:(lia)) |].
  split; [exact (H2 eq_refl ltac:(lia)) |].
  split; [exact (H3 eq_refl) |].
  apply (H4 [] (mkOS 0 budget_transcript [])
            (snd (FindAccessedAddrs sample_gen [] (mkOS 0 budget_transcript [])))).
  - vm_compute. reflexivity.
  - reflexivity.
Defined.

Lemma ChildProcess_unmaps_fill_value_region_witness :
  ChildProcess (A := unit) [xc3] 4 (sample_addrs [])
               (mkOS 0 [Ret 0; Ret 0; Fail 22; Ret kDefaultCodeLocation;
                        Ret 1040; Ret 0] [])
  = ChildProcess_mapped [xc3] 4 (sample_addrs [])
      (mkOS 22 [Ret kDefaultCodeLocation; Ret 1040; Ret 0]
            [EvPtrace PTRACE_TRACEME 0; EvRaise SIGSTOP;
             EvMunmap 0x800000000 0x10000])
  /\ fst (ChildProcess (A := unit) [xc3] 4 (sample_addrs [])
            (mkOS 0 [Ret 0; Ret 0; Fail 22; Ret kDefaultCodeLocation;
                     Ret 1040; Ret 0] []))
     = Halt (Entered kDefaultCodeLocation sample_regs).
Proof.
  destruct (@ChildProcess_unmaps_fill_value_region sample_platform unit [xc3] 4
              (sample_addrs []) 0 [] (Ret 0) (Ret 0) (Fail 22)
              [Ret kDefaultCodeLocation; Ret 1040; Ret 0]
              eq_refl eq_refl eq_refl) as [E _].
  split; [exact E |].
  vm_compute. reflexivity.
Defined.

End Samples.
(* ------------------------------------------------------------------ *)
(** * Further properties: buffers and frames *)

Lemma length_write_at off (x buf : list byte) :
  (off + length x <= length buf)%nat -> length (write_at off x buf) = length buf.
Proof.
  intros Hfit. unfold write_at.
  rewrite !length_app, length_firstn, length_skipn. lia.
Qed.

Lemma write_at_nil off (buf : list byte) : write_at off [] buf = buf.
Proof.
  unfold write_at. cbn [app length]. rewrite Nat.add_0_r.
  apply firstn_skipn.
Qed.

Lemma write_at_app off (x y buf : list byte) :
  (off + length x + length y <= length buf)%nat ->
  write_at (off + length x) y (write_at off x buf) = write_at off (x ++ y) buf.
Proof.
  intros Hfit. unfold write_at.
  assert (length (firstn off buf) = off) as Hf
      by (rewrite length_firstn; lia).
  rewrite <- Hf at 1.
  rewrite (app_assoc (firstn off buf) x).
  replace (length (firstn off buf) + length x)%nat
    with (length (firstn off buf ++ x) + 0)%nat
    by (rewrite length_app; lia).
  rewrite firstn_app_2. cbn [firstn]. rewrite app_nil_r.
  rewrite <- !app_assoc. f_equal. f_equal. f_equal.
  rewrite length_app.
  rewrite (app_assoc (firstn off buf) x).
  rewrite skipn_app.
  rewrite skipn_all2 by (rewrite length_app; lia). cbn [app].
  rewrite length_app, Hf.
  rewrite skipn_skipn. f_equal. lia.
Qed.

Lemma write_at_all (x buf : list byte) :
  length x = length buf -> write_at 0 x buf = x.
Proof.
  intros Hl. unfold write_at. cbn [firstn app Nat.add].
  rewrite skipn_all2 by lia. apply app_nil_r.
Qed.

Lemma slice_write_at_same off (x buf : list byte) :
  (off + length x <= length buf)%nat ->
  slice off (length x) (write_at off x buf) = x.
Proof.
  intros Hfit. unfold slice, write_at.
  rewrite skipn_app, length_firstn.
  replace (Nat.min off (length buf)) with off by lia.
  rewrite skipn_all2 by (rewrite length_firstn; lia).
  rewrite Nat.sub_diag. cbn [skipn app].
  rewrite firstn_app, firstn_all, Nat.sub_diag. cbn [firstn].
  apply app_nil_r.
Qed.

Lemma slice_write_at_before off len off' (x buf : list byte) :
  (off + len <= off')%nat -> (off' <= length buf)%nat ->
  slice off len (write_at off' x buf) = slice off len buf.
Proof.
  intros Hd Hfit. unfold slice, write_at.
  rewrite skipn_app, length_firstn.
  replace (off - Nat.min off' (length buf))%nat with 0%nat by lia.
  cbn [skipn]. rewrite firstn_app.
  rewrite length_skipn, length_firstn.
  replace (len - (Nat.min off' (length buf) - off))%nat with 0%nat by lia.
  cbn [firstn]. rewrite app_nil_r.
  rewrite skipn_firstn_comm, firstn_firstn. f_equal. lia.
Qed.

Lemma skipn_write_at_after off off' (x buf : list byte) :
  (off' + length x <= off)%nat -> (off' <= length buf)%nat ->
  skipn off (write_at off' x buf) = skipn off buf.
Proof.
  intros Hd Hfit. unfold write_at.
  rewrite app_assoc, skipn_app.
  rewrite skipn_all2 by (rewrite length_app, length_firstn; lia).
  cbn [app]. rewrite length_app, length_firstn, skipn_skipn.
  f_equal. lia.
Qed.

Lemma slice_write_at_after off len off' (x buf : list byte) :
  (off' + length x <= off)%nat -> (off' <= length buf)%nat ->
  slice off len (write_at off' x buf) = slice off len buf.
Proof.
  intros Hd Hfit. unfold slice. rewrite skipn_write_at_after by assumption.
  reflexivity.
Qed.

Lemma c_str_clean (l : list byte) : ~ In x00 l -> c_str l = l.
Proof.
  induction l as [| b l IH]; intros Hn; [reflexivity |].
  cbn [c_str]. destruct (Byte.eqb b x00) eqn:E.
  - apply Byte.byte_dec_bl in E. subst. exfalso. apply Hn. left. reflexivity.
  - f_equal. apply IH. intros Hin. apply Hn. right. exact Hin.
Qed.

Lemma length_list_byte_of_string (s : string) :
  length (list_byte_of_string s) = String.length s.
Proof.
  unfold list_byte_of_string. rewrite length_map.
  induction s as [| a s IH]; cbn; [reflexivity | f_equal; exact IH].
Qed.

Lemma sign32_small z : - 2 ^ 31 <= z < 2 ^ 31 -> sign32 z = z.
Proof.
  intros Hz. unfold sign32.
  destruct (Z.ltb_spec (z mod 2 ^ 32) (2 ^ 31)) as [Hlt | Hge].
  - destruct (Z.le_gt_cases 0 z) as [Hp | Hneg].
    + apply Z.mod_small. lia.
    + exfalso. rewrite <- (Z.mod_add z 1) in Hlt by lia.
      rewrite Z.mod_small in Hlt by lia. lia.
  - destruct (Z.le_gt_cases 0 z) as [Hp | Hneg].
    + rewrite Z.mod_small in Hge by lia. lia.
    + rewrite <- (Z.mod_add z 1) by lia.
      rewrite Z.mod_small by lia. lia.
Qed.

Lemma length_set_fields (p : PipedData.t) c a :
  length p = PipedData.sizeof ->
  length (PipedData.set_code_address (PipedData.set_status_code p c) a)
  = PipedData.sizeof.
Proof.
  intros Hlen.
  unfold PipedData.set_code_address, PipedData.set_status_code,
    PipedData.status_code_offset, PipedData.code_address_offset.
  unfold PipedData.sizeof in *.
  assert (length (write_at 0 (store_le 4 c) p) = 1040%nat) as Hl1
      by (rewrite length_write_at; rewrite ?length_store_le; lia).
  rewrite length_write_at; rewrite ?length_store_le; lia.
Qed.

Lemma status_code_set_fields (p : PipedData.t) c a :
  length p = PipedData.sizeof ->
  PipedData.status_code
    (PipedData.set_code_address (PipedData.set_status_code p c) a)
  = sign32 c.
Proof.
  intros Hlen.
  unfold PipedData.set_code_address, PipedData.set_status_code,
    PipedData.status_code,
    PipedData.status_code_offset, PipedData.code_address_offset.
  unfold PipedData.sizeof in *.
  assert (length (write_at 0 (store_le 4 c) p) = 1040%nat) as Hl1
      by (rewrite length_write_at; rewrite ?length_store_le; lia).
  rewrite slice_write_at_before by lia.
  pose proof (@slice_write_at_same 0 (store_le 4 c) p) as E.
  rewrite length_store_le in E. rewrite E by lia.
  rewrite load_store_le. apply sign32_mod.
Qed.

Lemma code_address_set_fields (p : PipedData.t) c a :
  length p = PipedData.sizeof ->
  PipedData.code_address
    (PipedData.set_code_address (PipedData.set_status_code p c) a)
  = wrap64 a.
Proof.
  intros Hlen.
  unfold PipedData.set_code_address, PipedData.set_status_code,
    PipedData.code_address,
    PipedData.status_code_offset, PipedData.code_address_offset.
  unfold PipedData.sizeof in *.
  assert (length (write_at 0 (store_le 4 c) p) = 1040%nat) as Hl1
      by (rewrite length_write_at; rewrite ?length_store_le; lia).
  pose proof (@slice_write_at_same 1032 (store_le 8 a)
                (write_at 0 (store_le 4 c) p)) as E.
  rewrite length_store_le in E. rewrite E by lia.
  rewrite load_store_le. reflexivity.
Qed.

(** X1: the two numeric fields of a frame are independent: a status code
    comes back as the [int] it was stored as, a code address as the
    [uintptr_t], and the bytes between them are left alone. *)
Theorem PipedData_fields_round_trip :
  forall (p : PipedData.t) c a,
    length p = PipedData.sizeof ->
    let p' := PipedData.set_code_address (PipedData.set_status_code p c) a in
    length p' = PipedData.sizeof
    /\ PipedData.status_code p' = sign32 c
    /\ PipedData.code_address p' = wrap64 a
    /\ skipn PipedData.status_message_offset
             (firstn PipedData.code_address_offset p')
       = skipn PipedData.status_message_offset
               (firstn PipedData.code_address_offset p).
Proof.
  intros p c a Hlen p'. subst p'.
  split; [apply length_set_fields; exact Hlen |].
  split; [apply status_code_set_fields; exact Hlen |].
  split; [apply code_address_set_fields; exact Hlen |].
  unfold PipedData.set_code_address, PipedData.set_status_code,
    PipedData.status_code_offset, PipedData.code_address_offset,
    PipedData.status_message_offset.
  unfold PipedData.sizeof in *.
  assert (length (write_at 0 (store_le 4 c) p) = 1040%nat) as Hl1
      by (rewrite length_write_at; rewrite ?length_store_le; lia).
  change (firstn 1032 (write_at 1032 (store_le 8 a)
                                (write_at 0 (store_le 4 c) p)))
    with (slice 0 1032 (write_at 1032 (store_le 8 a)
                                 (write_at 0 (store_le 4 c) p))).
  rewrite slice_write_at_before by lia.
  unfold slice. rewrite skipn_O.
  rewrite !skipn_firstn_comm.
  rewrite skipn_write_at_after by (rewrite ?length_store_le; lia).
  reflexivity.
Qed.

Section FrameDecoding.

Context `{Platform}.

Lemma AbortPipedData_fields :
  forall st,
    PipedData.status_code (AbortPipedData st) = sign32 (code st)
    /\ PipedData.status_message (AbortPipedData st)
       = string_of_list_byte
           (c_str (firstn (PipedData.status_message_size - 1)
                          (list_byte_of_string (message st))))
    /\ PipedData.code_address (AbortPipedData st) = 0.
Proof.
  intros st.
  pose proof (AbortPipedData_bytes st) as Hb. cbv zeta in Hb.
  set (msg := list_byte_of_string (message st)) in *.
  set (n := Nat.min (length msg) (PipedData.status_message_size - 1)) in *.
  assert (firstn n msg = firstn (PipedData.status_message_size - 1) msg) as Hcut.
  { unfold n. destruct (Nat.le_gt_cases (length msg)
                          (PipedData.status_message_size - 1)) as [Hs | Hl].
    - rewrite Nat.min_l by exact Hs.
      rewrite firstn_all, firstn_all2 by exact Hs. reflexivity.
    - rewrite Nat.min_r by lia. reflexivity. }
  assert (length (firstn n msg) = n) as Hn
      by (rewrite length_firstn; unfold n; lia).
  assert (n <= 1023)%nat as Hn'
      by (unfold n, PipedData.status_message_size; lia).
  unfold PipedData.status_code, PipedData.status_message,
    PipedData.code_address, slice.
  rewrite Hb.
  unfold PipedData.status_code_offset, PipedData.status_message_offset,
    PipedData.code_address_offset, PipedData.sizeof.
  repeat split.
  - rewrite skipn_O, firstn_app, length_store_le, Nat.sub_diag.
    rewrite firstn_O, app_nil_r.
    pose proof (firstn_all (store_le 4 (code st))) as E.
    rewrite length_store_le in E. rewrite E.
    rewrite load_store_le. apply sign32_mod.
  - rewrite skipn_app, length_store_le, Nat.sub_diag.
    rewrite skipn_all2 by (rewrite length_store_le; lia).
    rewrite skipn_O. cbn [app].
    replace (1040 - 4 - n)%nat with (S (1035 - n)) by lia.
    cbn [repeat]. rewrite c_str_app_nul, Hcut. reflexivity.
  - rewrite app_assoc, skipn_app.
    rewrite skipn_all2 by (rewrite length_app, length_store_le, Hn; lia).
    rewrite length_app, length_store_le, Hn. cbn [app].
    rewrite skipn_repeat.
    replace (1040 - 4 - n - (1032 - (4 + n)))%nat with 8%nat by lia.
    reflexivity.
Qed.

(** A status whose message fits the frame survives the trip through
    the frame unchanged. *)
Lemma AbortPipedData_round_trip :
  forall st,
    - 2 ^ 31 <= code st < 2 ^ 31 ->
    (String.length (message st) < PipedData.status_message_size)%nat ->
    ~ In x00 (list_byte_of_string (message st)) ->
    mkStatus (PipedData.status_code (AbortPipedData st))
             (PipedData.status_message (AbortPipedData st)) = st.
Proof.
  intros st Hc Hl Hnul.
  destruct (AbortPipedData_fields st) as (Ec & Em & _).
  rewrite Ec, Em, sign32_small by exact Hc.
  rewrite firstn_all2.
  - rewrite c_str_clean by exact Hnul.
    rewrite string_of_list_byte_of_string. destruct st; reflexivity.
  - rewrite length_list_byte_of_string. lia.
Qed.

(** X2: what the parent decodes from the frame of a failing child: the
    status code as an [int], the message cut at 1023 bytes and at its
    first NUL, and no code address. *)
Theorem AbortPipedData_decodes :
  forall st,
    PipedData.status_code (AbortPipedData st) = sign32 (code st)
    /\ PipedData.status_message (AbortPipedData st)
       = string_of_list_byte
           (c_str (firstn (PipedData.status_message_size - 1)
                          (list_byte_of_string (message st))))
    /\ PipedData.code_address (AbortPipedData st) = 0.
Proof. intros st. apply AbortPipedData_fields. Qed.

End FrameDecoding.

(* ------------------------------------------------------------------ *)
(** * Further properties: the codec without a stale [errno] *)

Section CodecRuns.

Context `{Platform}.

Lemma ReadAll_retry_delivers fuel fd data off count e c tail lg :
  IsRetryable e = false -> (length c <= count)%nat ->
  ReadAll_retry (S fuel) fd data off count (mkOS e (Data c :: tail) lg)
  = (Val (Z.of_nat (length c), e, write_at off c data),
     mkOS e tail (lg ++ [EvRead fd off count])).
Proof.
  intros He Hc. cbn [ReadAll_retry].
  unfold read, syscall, bind, get_errno, ret. cbn [script errno log errno_after].
  destruct (Nat.leb_spec (length c) count) as [_ | Hn]; [| lia].
  cbn beta iota delta [errno]. rewrite He. reflexivity.
Qed.

Lemma ReadAll_retry_fails fuel fd data off count e e' tail lg :
  IsRetryable (Zpos e') = false ->
  ReadAll_retry (S fuel) fd data off count (mkOS e (Fail e' :: tail) lg)
  = (Val (-1, Zpos e', data),
     mkOS (Zpos e') tail (lg ++ [EvRead fd off count])).
Proof.
  intros He. cbn [ReadAll_retry].
  unfold read, syscall, bind, get_errno, ret. cbn [script errno log errno_after].
  cbn beta iota delta [errno]. rewrite He. reflexivity.
Qed.

(** The passes of the [while] loop of [ReadAll] that get data. *)
Lemma ReadAll_loop_chunks fd e :
  IsRetryable e = false ->
  forall chunks k data off tail lg,
    Forall nonempty chunks ->
    (off + length (concat chunks) <= length data)%nat ->
    ReadAll_loop (length chunks + k) fd data off
                 (mkOS e (map Data chunks ++ tail) lg)
    = ReadAll_loop k fd (write_at off (concat chunks) data)
                   (off + length (concat chunks))
                   (mkOS e tail (lg ++ read_events fd (length data) off chunks)).
Proof.
  intros He. induction chunks as [| c cs IH]; intros k data off tail lg Hne Hfit.
  - cbn [length concat map app read_events Nat.add].
    rewrite write_at_nil, Nat.add_0_r, app_nil_r. reflexivity.
  - inversion Hne as [| ? ? Hc Hcs]; subst.
    cbn [concat] in Hfit. rewrite length_app in Hfit.
    assert (length c <> 0)%nat as Hc0
        by (intros C; apply Hc; destruct c; [reflexivity | discriminate C]).
    cbn [length map app Nat.add ReadAll_loop].
    destruct (Nat.ltb_spec off (length data)) as [_ | Hn]; [| lia].
    unfold bind at 1. unfold with_fuel at 1. cbn [script].
    rewrite ReadAll_retry_delivers by (assumption || lia).
    destruct (Z.ltb_spec (Z.of_nat (length c)) 0) as [Hn | _]; [lia |].
    destruct (Z.eqb_spec (Z.of_nat (length c)) 0) as [Hn | _]; [lia |].
    rewrite Nat2Z.id.
    rewrite IH; [| assumption
                 | rewrite length_write_at by lia; lia].
    rewrite length_write_at by lia.
    rewrite write_at_app by lia.
    cbn [concat read_events]. rewrite length_app, Nat.add_assoc.
    rewrite <- app_assoc. reflexivity.
Qed.

(** The loop of [ReadAll] on a frame that arrives in pieces. *)
Lemma ReadAll_loop_frame fd frame chunks e tail lg :
  IsRetryable e = false ->
  length frame = PipedData.sizeof ->
  concat chunks = frame ->
  Forall nonempty chunks ->
  with_fuel (fun f => ReadAll_loop f fd (repeat x00 PipedData.sizeof) 0)
            (mkOS e (map Data chunks ++ tail) lg)
  = (Val (inr (PipedData.sizeof, frame)),
     mkOS e tail (lg ++ read_events fd PipedData.sizeof 0 chunks)).
Proof.
  intros He Hlen Hcat Hne.
  unfold with_fuel at 1. cbn [script].
  rewrite length_app, length_map.
  replace (S (length chunks + length tail))
    with (length chunks + S (length tail))%nat by lia.
  rewrite (@ReadAll_loop_chunks fd e He); [| assumption
    | rewrite repeat_length, Hcat, Hlen; cbn; lia].
  rewrite repeat_length, Hcat, Hlen. cbn [Nat.add ReadAll_loop].
  rewrite length_write_at by (rewrite repeat_length, Hlen; cbn; lia).
  rewrite repeat_length.
  change (PipedData.sizeof <? PipedData.sizeof)%nat with false. cbv iota.
  rewrite write_at_all by (rewrite repeat_length; exact Hlen).
  reflexivity.
Qed.

(** X3: a frame that arrives in any number of pieces is put together
    again, each [read] asking for all that is missing, and the
    descriptor is closed. *)
Theorem ReadAll_reassembles_the_frame :
  forall fd frame chunks e c rest lg,
    IsRetryable e = false ->
    length frame = PipedData.sizeof ->
    concat chunks = frame ->
    Forall nonempty chunks ->
    int_answer c = true ->
    ReadAll fd (mkOS e (map Data chunks ++ c :: rest) lg)
    = (Val (inr frame),
       mkOS (errno_after c e) rest
            (lg ++ read_events fd PipedData.sizeof 0 chunks ++ [EvClose fd])).
Proof.
  intros fd frame chunks e c rest lg He Hlen Hcat Hne Hc.
  unfold ReadAll. unfold bind at 1.
  rewrite (@ReadAll_loop_frame fd frame chunks e (c :: rest) lg He Hlen Hcat Hne).
  change (negb (PipedData.sizeof =? PipedData.sizeof)%nat) with false. cbv iota.
  unfold close, sys_int, syscall, bind, ret. cbn [script errno log].
  destruct c; try discriminate Hc; rewrite <- app_assoc; reflexivity.
Qed.


(** X4: end of file before the frame is complete is an internal error
    that names both sizes, and the descriptor stays open. *)
Theorem ReadAll_short_frame :
  forall fd chunks e rest lg,
    IsRetryable e = false ->
    Forall nonempty chunks ->
    (length (concat chunks) < PipedData.sizeof)%nat ->
    let got := length (concat chunks) in
    ReadAll fd (mkOS e (map Data chunks ++ Data [] :: rest) lg)
    = (Val (inl (InternalError
                   ("Read less than expected from pipe (expected "
                      ++ fmt_d (Z.of_nat PipedData.sizeof) ++ "B, got "
                      ++ fmt_d (Z.of_nat got) ++ "B)")%string)),
       mkOS e rest
            (lg ++ read_events fd PipedData.sizeof 0 chunks
                ++ [EvRead fd got (PipedData.sizeof - got)])).
Proof.
  intros fd chunks e rest lg He Hne Hlt got.
  unfold ReadAll. unfold bind at 1. unfold with_fuel at 1. cbn [script].
  rewrite length_app, length_map. cbn [length].
  replace (S (length chunks + S (length rest)))
    with (length chunks + S (S (length rest)))%nat by lia.
  rewrite (@ReadAll_loop_chunks fd e He); [| assumption
    | rewrite repeat_length; cbn [Nat.add]; lia].
  rewrite repeat_length. cbn [Nat.add]. fold got.
  cbn [ReadAll_loop].
  rewrite length_write_at by (rewrite repeat_length; cbn [Nat.add]; lia).
  rewrite repeat_length.
  destruct (Nat.ltb_spec got PipedData.sizeof) as [_ | Hn]; [| lia].
  unfold bind at 1. unfold with_fuel at 1. cbn [script].
  rewrite ReadAll_retry_delivers by (assumption || cbn [length]; lia).
  cbn [length Z.of_nat]. cbn beta iota delta [Z.ltb Z.eqb Z.compare].
  rewrite write_at_nil. unfold ret at 1.
  destruct (Nat.eqb_spec got PipedData.sizeof) as [Hn | _]; [lia |].
  cbn [negb]. unfold ret. rewrite <- app_assoc. reflexivity.
Qed.

(** X5: a [read] that fails for good after some of the frame has come
    gives the status of its [errno], and the descriptor stays open. *)
Theorem ReadAll_read_failure :
  forall fd chunks e e' rest lg,
    IsRetryable e = false ->
    IsRetryable (Zpos e') = false ->
    Forall nonempty chunks ->
    (length (concat chunks) < PipedData.sizeof)%nat ->
    let got := length (concat chunks) in
    ReadAll fd (mkOS e (map Data chunks ++ Fail e' :: rest) lg)
    = (Val (inl (ErrnoToStatus (Zpos e') "Failed to read from pipe")),
       mkOS (Zpos e') rest
            (lg ++ read_events fd PipedData.sizeof 0 chunks
                ++ [EvRead fd got (PipedData.sizeof - got)])).
Proof.
  intros fd chunks e e' rest lg He He' Hne Hlt got.
  unfold ReadAll. unfold bind at 1. unfold with_fuel at 1. cbn [script].
  rewrite length_app, length_map. cbn [length].
  replace (S (length chunks + S (length rest)))
    with (length chunks + S (S (length rest)))%nat by lia.
  rewrite (@ReadAll_loop_chunks fd e He); [| assumption
    | rewrite repeat_length; cbn [Nat.add]; lia].
  rewrite repeat_length. cbn [Nat.add]. fold got.
  cbn [ReadAll_loop].
  rewrite length_write_at by (rewrite repeat_length; cbn [Nat.add]; lia).
  rewrite repeat_length.
  destruct (Nat.ltb_spec got PipedData.sizeof) as [_ | Hn]; [| lia].
  unfold bind at 1. unfold with_fuel at 1. cbn [script].
  rewrite ReadAll_retry_fails by assumption.
  cbn beta iota delta [Z.ltb Z.compare].
  unfold ret. rewrite <- app_assoc. reflexivity.
Qed.

Lemma slice_rest off (data : list byte) :
  slice off (length data - off) data = skipn off data.
Proof.
  unfold slice. apply firstn_all2. rewrite length_skipn. lia.
Qed.

Lemma WriteAll_retry_takes fuel fd bytes e n tail lg :
  IsRetryable e = false -> (n <= length bytes)%nat ->
  WriteAll_retry (S fuel) fd bytes (mkOS e (Ret (Z.of_nat n) :: tail) lg)
  = (Val (Z.of_nat n, e), mkOS e tail (lg ++ [EvWrite fd bytes])).
Proof.
  intros He Hn. cbn [WriteAll_retry].
  unfold write, syscall, bind, get_errno, ret. cbn [script errno log errno_after].
  destruct (Z.leb_spec 0 (Z.of_nat n)) as [_ | C]; [| lia].
  destruct (Z.leb_spec (Z.of_nat n) (Z.of_nat (length bytes))) as [_ | C]; [| lia].
  cbn [andb]. cbn beta iota delta [errno]. rewrite He. reflexivity.
Qed.

Lemma WriteAll_retry_fails fuel fd bytes e e' tail lg :
  IsRetryable (Zpos e') = false ->
  WriteAll_retry (S fuel) fd bytes (mkOS e (Fail e' :: tail) lg)
  = (Val (-1, Zpos e'), mkOS (Zpos e') tail (lg ++ [EvWrite fd bytes])).
Proof.
  intros He. cbn [WriteAll_retry].
  unfold write, syscall, bind, get_errno, ret. cbn [script errno log errno_after].
  cbn beta iota delta [errno]. rewrite He. reflexivity.
Qed.

(** The passes of the [while] loop of [WriteAll] in which [write] takes
    something. *)
Lemma WriteAll_loop_chunks fd data e :
  IsRetryable e = false ->
  forall sizes k off tail lg,
    Forall (fun n => n <> 0%nat) sizes ->
    (off + list_sum sizes <= length data)%nat ->
    WriteAll_loop (length sizes + k) fd data off
                  (mkOS e (taken_answers sizes ++ tail) lg)
    = WriteAll_loop k fd data (off + list_sum sizes)
                    (mkOS e tail (lg ++ write_events fd data off sizes)).
Proof.
  intros He. induction sizes as [| n ns IH]; intros k off tail lg Hne Hfit.
  - cbn [length taken_answers map app write_events list_sum fold_right Nat.add].
    rewrite Nat.add_0_r, app_nil_r. reflexivity.
  - inversion Hne as [| ? ? Hn Hns]; subst.
    change (list_sum (n :: ns)) with (n + list_sum ns)%nat in *.
    cbn [length taken_answers map app Nat.add WriteAll_loop].
    destruct (Nat.ltb_spec off (length data)) as [_ | C]; [| lia].
    unfold bind at 1. unfold with_fuel at 1. cbn [script].
    rewrite slice_rest.
    rewrite WriteAll_retry_takes by (assumption || rewrite length_skipn; lia).
    destruct (Z.ltb_spec (Z.of_nat n) 0) as [C | _]; [lia |].
    rewrite Nat2Z.id.
    fold (taken_answers ns).
    rewrite IH by (assumption || lia).
    cbn [write_events]. rewrite Nat.add_assoc, <- app_assoc. reflexivity.
Qed.

(** X6: whatever the sizes of the pieces [write] takes, every call is
    handed exactly the bytes not yet taken, and the descriptor is
    closed once all are gone. *)
Theorem WriteAll_sends_every_byte :
  forall fd frame sizes e c rest lg,
    IsRetryable e = false ->
    Forall (fun n => n <> 0%nat) sizes ->
    list_sum sizes = length frame ->
    int_answer c = true ->
    WriteAll fd frame (mkOS e (taken_answers sizes ++ c :: rest) lg)
    = (Val OkStatus,
       mkOS (errno_after c e) rest
            (lg ++ write_events fd frame 0 sizes ++ [EvClose fd])).
Proof.
  intros fd frame sizes e c rest lg He Hne Hsum Hc.
  unfold WriteAll, with_fuel. cbn [script].
  rewrite length_app. unfold taken_answers at 1. rewrite length_map.
  cbn [length].
  replace (S (length sizes + S (length rest)))
    with (length sizes + S (S (length rest)))%nat by lia.
  rewrite (@WriteAll_loop_chunks fd frame e He) by (assumption || cbn [Nat.add]; lia).
  cbn [Nat.add WriteAll_loop]. rewrite Hsum, Nat.ltb_irrefl.
  unfold close, sys_int, syscall, bind, ret. cbn [script errno log].
  destruct c; try discriminate Hc; rewrite <- app_assoc; reflexivity.
Qed.

(** X7: a [write] that fails for good gives the status of its [errno];
    the descriptor is not closed. *)
Theorem WriteAll_write_failure :
  forall fd frame sizes e e' rest lg,
    IsRetryable e = false ->
    IsRetryable (Zpos e') = false ->
    Forall (fun n => n <> 0%nat) sizes ->
    (list_sum sizes < length frame)%nat ->
    WriteAll fd frame (mkOS e (taken_answers sizes ++ Fail e' :: rest) lg)
    = (Val (ErrnoToStatus (Zpos e') "Failed to write to pipe"),
       mkOS (Zpos e') rest
            (lg ++ write_events fd frame 0 sizes
                ++ [EvWrite fd (skipn (list_sum sizes) frame)])).
Proof.
  intros fd frame sizes e e' rest lg He He' Hne Hsum.
  unfold WriteAll, with_fuel. cbn [script].
  rewrite length_app. unfold taken_answers at 1. rewrite length_map.
  cbn [length].
  replace (S (length sizes + S (length rest)))
    with (length sizes + S (S (length rest)))%nat by lia.
  rewrite (@WriteAll_loop_chunks fd frame e He) by (assumption || cbn [Nat.add]; lia).
  cbn [Nat.add WriteAll_loop].
  destruct (Nat.ltb_spec (list_sum sizes) (length frame)) as [_ | C]; [| lia].
  unfold bind at 1. unfold with_fuel at 1. cbn [script].
  rewrite slice_rest, WriteAll_retry_fails by assumption.
  cbn beta iota delta [Z.ltb Z.compare].
  unfold ret. rewrite <- app_assoc. reflexivity.
Qed.

End CodecRuns.

(* ------------------------------------------------------------------ *)
(** * Further properties: alignment and registers *)

(** X8: on a [uintptr_t] and for a positive alignment, [AlignDown] gives
    the start of the block the address lies in: the greatest multiple
    of the alignment that is not above it.  Addresses of one block get
    the same start, and a start is left as it is. *)
Theorem AlignDown_block_start :
  forall x align,
    0 <= x < 2 ^ 64 -> 0 < align ->
    AlignDown x align = align * (x / align)
    /\ (forall m, m mod align = 0 -> m <= x -> m <= AlignDown x align)
    /\ (forall y, 0 <= y < 2 ^ 64 ->
                  (AlignDown y align = AlignDown x align <-> y / align = x / align))
    /\ AlignDown (AlignDown x align) align = AlignDown x align.
Proof.
  intros x align Hx Ha.
  assert (forall z, 0 <= z < 2 ^ 64 -> AlignDown z align = align * (z / align))
    as Hdiv.
  { intros z Hz. rewrite AlignDown_no_wrap by assumption.
    pose proof (Z.div_mod z align ltac:(lia)). lia. }
  pose proof (AlignDown_bounds Hx Ha) as Hb.
  repeat split.
  - apply Hdiv; assumption.
  - intros m Hm Hle. rewrite Hdiv by assumption.
    apply Z.mod_divide in Hm; [| lia]. destruct Hm as [q ->].
    assert (q <= x / align) by (apply Z.div_le_lower_bound; lia).
    nia.
  - intros E. rewrite !Hdiv in E by assumption. nia.
  - intros E. rewrite !Hdiv by assumption. rewrite E. reflexivity.
  - pose proof (AlignDown_multiple Hx Ha) as Hm.
    assert (0 <= AlignDown x align < 2 ^ 64) as Hr by apply wrap64_range.
    rewrite (AlignDown_no_wrap Hr Ha), Hm. lia.
Qed.

Lemma random_reg_spec gen :
  random_reg gen
  = (nth (Z.to_nat (bits gen (taken gen) mod 3)) kValues 0,
     mkBitGen (bits gen) (S (taken gen))).
Proof. reflexivity. Qed.

Lemma kValues_nth z : In (nth (Z.to_nat (z mod 3)) kValues 0) kValues.
Proof.
  pose proof (Z.mod_pos_bound z 3 ltac:(lia)) as Hb.
  assert (z mod 3 = 0 \/ z mod 3 = 1 \/ z mod 3 = 2) as [-> | [-> | ->]] by lia;
    cbn; auto.
Qed.

Lemma RandomiseRegs_values gen regs :
  Forall (fun v => In v kValues) (regs_list (fst (RandomiseRegs gen regs))).
Proof.
  destruct gen as [b t].
  assert (regs_list (fst (RandomiseRegs (mkBitGen b t) regs))
          = map (fun i => nth (Z.to_nat (b (i + t)%nat mod 3)) kValues 0)
                (seq 0 16)) as E by reflexivity.
  rewrite E. apply Forall_forall. intros v Hv.
  apply in_map_iff in Hv. destruct Hv as (i & <- & _). apply kValues_nth.
Qed.

(** X9: [RandomiseRegs] draws sixteen times, one value of [kValues] per
    register in the order of the struct, and nothing of the old
    registers is left. *)
Theorem RandomiseRegs_draws :
  forall gen regs,
    regs_list (fst (RandomiseRegs gen regs))
    = map (fun i => nth (Z.to_nat (bits gen (i + taken gen) mod 3)) kValues 0)
          (seq 0 16)
    /\ Forall (fun v => In v kValues) (regs_list (fst (RandomiseRegs gen regs)))
    /\ snd (RandomiseRegs gen regs) = mkBitGen (bits gen) (16 + taken gen)
    /\ (forall regs', RandomiseRegs gen regs' = RandomiseRegs gen regs).
Proof.
  intros [b t] regs.
  assert (regs_list (fst (RandomiseRegs (mkBitGen b t) regs))
          = map (fun i => nth (Z.to_nat (b (i + t)%nat mod 3)) kValues 0)
                (seq 0 16)) as E by reflexivity.
  split; [exact E |]. split; [| split; [reflexivity | intros; reflexivity]].
  apply RandomiseRegs_values.
Qed.

(* ------------------------------------------------------------------ *)
(** * Further properties: the parent *)

Section ParentRuns.

Context `{Platform}.

(** X10: the classification fails in two ways only.  The one failure that
    is not internal is the floating-point exception, and a failing
    classification has not touched [accessed_addrs]. *)
Theorem ParentProcessInner_failure_classes :
  forall pid aa os st aa' os',
    ParentProcessInner pid aa os = (Val (st, aa'), os') ->
    ok st = false ->
    aa' = aa
    /\ (st = InvalidArgumentError "Floating point exception"
        \/ code st = kInternal).
Proof.
  intros pid aa os st aa' os'.
  unfold ParentProcessInner, waitpid, ptrace, ptrace_getsiginfo,
    ptrace_getregs, sys_int, syscall, bind, ret, stuck.
  destruct os as [e sc lg].
  intros E Hok. run_cases E; inversion E; subst; try discriminate Hok; auto.
Qed.

(** The classification of a child that stops at the epilogue's
    [abort]. *)
Lemma ParentProcessInner_abrt pid aa e s1 r s2 tail lg :
  WIFSTOPPED s1 = true -> WIFSTOPPED s2 = true -> WSTOPSIG s2 = SIGABRT ->
  ParentProcessInner pid aa (mkOS e (WStatus s1 :: Ret r :: WStatus s2 :: tail) lg)
  = (Val (OkStatus, aa),
     mkOS e tail
          (lg ++ [EvWaitpid pid; EvPtrace PTRACE_CONT pid; EvWaitpid pid])).
Proof.
  intros H1 H2 Hs.
  unfold ParentProcessInner, waitpid, ptrace, sys_int, syscall, bind, ret.
  cbn [script errno log errno_after]. rewrite H1. cbn [negb].
  cbn [script errno log errno_after]. rewrite H2, Hs. cbn [negb].
  change (SIGABRT =? SIGSEGV) with false. change (SIGABRT =? SIGABRT) with true.
  cbv iota. rewrite <- !app_assoc. reflexivity.
Qed.

(** The classification of a child that faults on a page not seen
    before. *)
Lemma ParentProcessInner_segv_new pid aa e s1 r s2 a tail lg :
  WIFSTOPPED s1 = true -> WIFSTOPPED s2 = true -> WSTOPSIG s2 = SIGSEGV ->
  ~ In (AlignDown (wrap64 a) (block_size aa)) (accessed_blocks aa) ->
  ParentProcessInner pid aa
    (mkOS e (WStatus s1 :: Ret r :: WStatus s2 :: SigInfo a :: tail) lg)
  = (Val (OkStatus,
          set_accessed_blocks aa
            (accessed_blocks aa ++ [AlignDown (wrap64 a) (block_size aa)])),
     mkOS e tail
          (lg ++ [EvWaitpid pid; EvPtrace PTRACE_CONT pid; EvWaitpid pid;
                  EvPtrace PTRACE_GETSIGINFO pid])).
Proof.
  intros H1 H2 Hs Hnew.
  unfold ParentProcessInner, waitpid, ptrace, ptrace_getsiginfo, sys_int,
    syscall, bind, ret.
  cbn [script errno log errno_after]. rewrite H1. cbn [negb].
  cbn [script errno log errno_after]. rewrite H2, Hs. cbn [negb].
  change (SIGSEGV =? SIGSEGV) with true. cbv iota.
  cbn [script errno log errno_after].
  destruct (existsb (Z.eqb (AlignDown (wrap64 a) (block_size aa)))
                    (accessed_blocks aa)) eqn:Ex.
  - exfalso. apply Hnew. apply existsb_exists in Ex.
    destruct Ex as (x & Hin & Hx). apply Z.eqb_eq in Hx. subst. exact Hin.
  - cbn [negb]. rewrite <- !app_assoc. reflexivity.
Qed.

(** ... and on a page that is in [accessed_blocks] already. *)
Lemma ParentProcessInner_segv_known pid aa e s1 r s2 a tail lg :
  WIFSTOPPED s1 = true -> WIFSTOPPED s2 = true -> WSTOPSIG s2 = SIGSEGV ->
  In (AlignDown (wrap64 a) (block_size aa)) (accessed_blocks aa) ->
  ParentProcessInner pid aa
    (mkOS e (WStatus s1 :: Ret r :: WStatus s2 :: SigInfo a :: tail) lg)
  = (Val (OkStatus, aa),
     mkOS e tail
          (lg ++ [EvWaitpid pid; EvPtrace PTRACE_CONT pid; EvWaitpid pid;
                  EvPtrace PTRACE_GETSIGINFO pid])).
Proof.
  intros H1 H2 Hs Hold.
  unfold ParentProcessInner, waitpid, ptrace, ptrace_getsiginfo, sys_int,
    syscall, bind, ret.
  cbn [script errno log errno_after]. rewrite H1. cbn [negb].
  cbn [script errno log errno_after]. rewrite H2, Hs. cbn [negb].
  change (SIGSEGV =? SIGSEGV) with true. cbv iota.
  cbn [script errno log errno_after].
  destruct (existsb (Z.eqb (AlignDown (wrap64 a) (block_size aa)))
                    (accessed_blocks aa)) eqn:Ex.
  - cbn [negb]. rewrite <- !app_assoc. reflexivity.
  - exfalso. apply existsb_eqb_false in Ex. exact (Ex Hold).
Qed.

(** After an ok classification the child is killed and reaped, the
    frame is read, in however many pieces it comes, and the frame alone
    decides the result. *)
Lemma ParentProcess_frame pid fd aa os aa0 e s frame chunks c rest lg :
  ParentProcessInner pid aa os
  = (Val (OkStatus, aa0),
     mkOS e (Ret 0 :: WStatus s :: map Data chunks ++ c :: rest) lg) ->
  IsRetryable e = false ->
  length frame = PipedData.sizeof ->
  concat chunks = frame ->
  Forall nonempty chunks ->
  int_answer c = true ->
  ParentProcess pid fd aa os
  = (Val (if negb (PipedData.status_code frame =? kOk)
          then (mkStatus (PipedData.status_code frame)
                         (PipedData.status_message frame), aa0)
          else (OkStatus,
                set_code_location aa0 (PipedData.code_address frame))),
     mkOS (errno_after c e) rest
          (lg ++ [EvKill pid SIGKILL; EvWaitpid pid]
              ++ read_events fd PipedData.sizeof 0 chunks ++ [EvClose fd])).
Proof.
  intros E0 He Hlen Hcat Hne Hc.
  unfold ParentProcess. unfold bind at 1. rewrite E0.
  unfold kill, waitpid_null, sys_int, syscall.
  unfold bind at 1. unfold bind at 1. cbn [script errno log errno_after].
  unfold ret at 1. cbn beta iota. change (negb (0 =? 0)) with false. cbv iota.
  unfold bind at 1. unfold bind at 1. cbn [script errno log errno_after].
  unfold ret at 1. cbn beta iota. change (negb (ok OkStatus)) with false.
  cbv iota. unfold bind at 1. unfold ReadAll. unfold bind at 1.
  rewrite (@ReadAll_loop_frame _ fd frame chunks e (c :: rest) _ He Hlen Hcat Hne).
  change (negb (PipedData.sizeof =? PipedData.sizeof)%nat) with false. cbv iota.
  unfold close, sys_int, syscall, bind, ret. cbn [script errno log].
  destruct c; try discriminate Hc; rewrite <- !app_assoc; cbn [app];
    destruct (negb (PipedData.status_code frame =? kOk)); reflexivity.
Qed.

(** X11: the status a failing child hands to [AbortChildProcess] is the
    status its parent returns, whatever the pieces the frame comes in,
    as long as the message fits the frame; [accessed_addrs] is as the
    classification left it. *)
Theorem ParentProcess_returns_child_status :
  forall pid fd aa os aa0 e s st chunks c rest lg,
    ParentProcessInner pid aa os
    = (Val (OkStatus, aa0),
       mkOS e (Ret 0 :: WStatus s :: map Data chunks ++ c :: rest) lg) ->
    IsRetryable e = false ->
    concat chunks = AbortPipedData st ->
    Forall nonempty chunks ->
    int_answer c = true ->
    code st <> kOk ->
    - 2 ^ 31 <= code st < 2 ^ 31 ->
    (String.length (message st) < PipedData.status_message_size)%nat ->
    ~ In x00 (list_byte_of_string (message st)) ->
    ParentProcess pid fd aa os
    = (Val (st, aa0),
       mkOS (errno_after c e) rest
            (lg ++ [EvKill pid SIGKILL; EvWaitpid pid]
                ++ read_events fd PipedData.sizeof 0 chunks ++ [EvClose fd])).
Proof.
  intros pid fd aa os aa0 e s st chunks c rest lg E0 He Hcat Hne Hc
         Hcode Hrange Hlen Hnul.
  rewrite (@ParentProcess_frame pid fd aa os aa0 e s (AbortPipedData st)
             chunks c rest lg E0 He (length_AbortPipedData st) Hcat Hne Hc).
  rewrite (@AbortPipedData_round_trip st Hrange Hlen Hnul).
  destruct (AbortPipedData_fields st) as (Ec & _ & _).
  rewrite Ec, sign32_small by exact Hrange.
  destruct (Z.eqb_spec (code st) kOk) as [C | _]; [contradiction |].
  reflexivity.
Qed.

(** X12: from the frame of a child that mapped the code, the parent takes
    the code address, as a [uintptr_t], into [code_location]. *)
Theorem ParentProcess_takes_code_address :
  forall pid fd aa os aa0 e s addr chunks c rest lg,
    ParentProcessInner pid aa os
    = (Val (OkStatus, aa0),
       mkOS e (Ret 0 :: WStatus s :: map Data chunks ++ c :: rest) lg) ->
    IsRetryable e = false ->
    concat chunks = ok_frame addr ->
    Forall nonempty chunks ->
    int_answer c = true ->
    ParentProcess pid fd aa os
    = (Val (OkStatus, set_code_location aa0 (wrap64 addr)),
       mkOS (errno_after c e) rest
            (lg ++ [EvKill pid SIGKILL; EvWaitpid pid]
                ++ read_events fd PipedData.sizeof 0 chunks ++ [EvClose fd])).
Proof.
  intros pid fd aa os aa0 e s addr chunks c rest lg E0 He Hcat Hne Hc.
  assert (length MakePipedData = PipedData.sizeof) as Hz by apply repeat_length.
  rewrite (@ParentProcess_frame pid fd aa os aa0 e s (ok_frame addr)
             chunks c rest lg E0 He (@length_set_fields MakePipedData (code OkStatus) addr Hz) Hcat Hne Hc).
  unfold ok_frame.
  rewrite status_code_set_fields, code_address_set_fields by exact Hz.
  reflexivity.
Qed.

End ParentRuns.

(* ------------------------------------------------------------------ *)
(** * The supervisor, answer by answer *)

Section ParentPaths.

Context `{Platform}.




(** [ParentProcess] after the classification, answer by answer. *)
Lemma ParentProcess_paths pid fd aa os st aa' os' :
  ParentProcess pid fd aa os = (Val (st, aa'), os') ->
  exists result aa0 e1 a_kill rest1 lg1,
    ParentProcessInner pid aa os
    = (Val (result, aa0), mkOS e1 (a_kill :: rest1) lg1) /\
    int_answer a_kill = true /\
    let err := int_result a_kill in
    if negb (err =? 0) then
      st = InternalError ("Failed to kill child process: " ++ strerror err)
      /\ aa' = aa0
      /\ os' = mkOS (errno_after a_kill e1) rest1 (lg1 ++ [EvKill pid SIGKILL])
    else
      exists a_wait rest2,
        rest1 = a_wait :: rest2 /\
        let os_w :=
          mkOS (errno_after a_wait (errno_after a_kill e1)) rest2
               (lg1 ++ [EvKill pid SIGKILL; EvWaitpid pid]) in
        if negb (ok result) then st = result /\ aa' = aa0 /\ os' = os_w
        else
          exists r,
            ReadAll fd os_w = (Val r, os') /\
            match r with
            | inl e => st = e /\ aa' = aa0
            | inr pd =>
                if negb (PipedData.status_code pd =? kOk) then
                  st = mkStatus (PipedData.status_code pd)
                                (PipedData.status_message pd)
                  /\ aa' = aa0
                else
                  st = OkStatus
                  /\ aa' = mkAccessedAddrs (PipedData.code_address pd)
                             (block_size aa0) (accessed_blocks aa0)
                             (initial_regs aa0)
            end.
Proof.
  unfold ParentProcess. intros E.
  apply bind_val in E. destruct E as ([result aa0] & [e1 sc lg1] & E0 & E).
  unfold kill, sys_int, syscall in E.
  unfold bind at 1 2 in E. cbn [script errno log] in E.
  destruct sc as [| a_kill rest1]; [discriminate E |].
  exists result, aa0, e1, a_kill, rest1, lg1. split; [exact E0 |].
  assert (int_answer a_kill = true) as Hint
      by (destruct a_kill; try reflexivity; discriminate E).
  split; [exact Hint |]. cbv zeta.
  assert (exists err, int_result a_kill = err /\
            (if negb (err =? 0)
             then ret (InternalError
                         ("Failed to kill child process: " ++ strerror err),
                       aa0)
             else
               waitpid_null pid ;;
               (if negb (ok result) then ret (result, aa0)
                else
                  pipe_data <- ReadAll fd ;;
                  match pipe_data with
                  | inl st => ret (st, aa0)
                  | inr pd =>
                      if negb (PipedData.status_code pd =? kOk) then
                        ret (mkStatus (PipedData.status_code pd)
                                      (PipedData.status_message pd), aa0)
                      else
                        ret (OkStatus,
                             set_code_location aa0 (PipedData.code_address pd))
                  end))
              (mkOS (errno_after a_kill e1) rest1 (lg1 ++ [EvKill pid SIGKILL]))
            = (Val (st, aa'), os')) as (err & Herr & E').
  { destruct a_kill; try discriminate Hint; eexists; (split; [reflexivity |]);
      exact E. }
  clear E. rewrite Herr. destruct (negb (err =? 0)).
  - inversion E'; subst. auto.
  - unfold waitpid_null, syscall in E'.
    unfold bind at 1 2 in E'. cbn [script errno log] in E'.
    destruct rest1 as [| a_wait rest2]; [discriminate E' |].
    exists a_wait, rest2. split; [reflexivity |]. cbv zeta.
    assert ((if negb (ok result) then ret (result, aa0)
             else
               pipe_data <- ReadAll fd ;;
               match pipe_data with
               | inl st => ret (st, aa0)
               | inr pd =>
                   if negb (PipedData.status_code pd =? kOk) then
                     ret (mkStatus (PipedData.status_code pd)
                                   (PipedData.status_message pd), aa0)
                   else
                     ret (OkStatus,
                          set_code_location aa0 (PipedData.code_address pd))
               end)
              (mkOS (errno_after a_wait (errno_after a_kill e1)) rest2
                    (lg1 ++ [EvKill pid SIGKILL; EvWaitpid pid]))
            = (Val (st, aa'), os')) as E.
    { destruct a_wait; try discriminate E';
        rewrite <- app_assoc in E'; exact E'. }
    clear E'. destruct (negb (ok result)).
    + inversion E; subst. auto.
    + apply bind_val in E. destruct E as (r & os3 & ER & E).
      exists r. destruct r as [e | pd].
      * inversion E; subst. auto.
      * destruct (negb (PipedData.status_code pd =? kOk));
          inversion E; subst; auto.
Qed.


Lemma int_result_zero a :
  int_answer a = true -> int_result a = 0 -> a = Ret 0.
Proof.
  destruct a; cbn; intros Hi Hr; try discriminate; subst; reflexivity.
Qed.


(** C7.  The parent reads the pipe only after the child has been killed
    and reaped: whatever the run, every [read] in its log comes after
    the [kill] and the reaping [waitpid], which follow the tracing calls
    of the classification; and in a run that returns, a [read] is only
    issued when the classification was ok and [kill] has answered 0.
    The [code_address] of the frame that this [ReadAll] returns is
    assigned to [code_location], with nothing else changed, exactly
    when the trial succeeds, that is when the stop was classified ok
    and the frame has status ok; on every error return
    [accessed_addrs] is as the classification left it, with
    [code_location] what it was. *)
Theorem ParentProcess_reads_frame_after_reaping :
  forall pid fd aa os,
    (forall pre rfd off n post,
        log (snd (ParentProcess pid fd aa os))
        = log os ++ pre ++ EvRead rfd off n :: post ->
        rfd = fd /\
        exists p1 p2,
          pre = p1 ++ EvKill pid SIGKILL :: EvWaitpid pid :: p2 /\
          Forall (tracing_event pid) p1) /\
    (forall st aa' os',
        ParentProcess pid fd aa os = (Val (st, aa'), os') ->
        exists result aa0 e1 a_kill rest1 lg1,
          ParentProcessInner pid aa os
          = (Val (result, aa0), mkOS e1 (a_kill :: rest1) lg1) /\
          code_location aa0 = code_location aa /\
          (forall d rfd off n,
              log os' = lg1 ++ d -> In (EvRead rfd off n) d ->
              ok result = true /\ a_kill = Ret 0) /\
          (ok st = false ->
           aa' = aa0 /\ code_location aa' = code_location aa) /\
          (ok st = true ->
           ok result = true /\ a_kill = Ret 0 /\
           exists a_wait rest2 pd,
             rest1 = a_wait :: rest2 /\
             ReadAll fd (mkOS (errno_after a_wait e1) rest2
                              (lg1 ++ [EvKill pid SIGKILL; EvWaitpid pid]))
             = (Val (inr pd), os') /\
             PipedData.status_code pd = kOk /\
             aa' = mkAccessedAddrs (PipedData.code_address pd)
                     (block_size aa0) (accessed_blocks aa0)
                     (initial_regs aa0)) /\
          (ok result = true -> a_kill = Ret 0 ->
           forall a_wait rest2 pd os'',
             rest1 = a_wait :: rest2 ->
             ReadAll fd (mkOS (errno_after a_wait e1) rest2
                              (lg1 ++ [EvKill pid SIGKILL; EvWaitpid pid]))
             = (Val (inr pd), os'') ->
             PipedData.status_code pd = kOk ->
             st = OkStatus)).
Proof.
  intros pid fd aa os. split; [apply ParentProcess_reads_late |].
  intros st aa' os' E.
  destruct (ParentProcess_paths _ _ _ _ E)
    as (result & aa0 & e1 & a_kill & rest1 & lg1 & E0 & Hint & Hp).
  cbv zeta in Hp.
  exists result, aa0, e1, a_kill, rest1, lg1.
  split; [exact E0 |].
  assert (code_location aa0 = code_location aa) as Hloc.
  { apply ParentProcessInner_effect in E0.
    destruct E0 as [-> | E0]; [reflexivity |].
    apply pushed_block_frame in E0. tauto. }
  split; [exact Hloc |].
  assert (forall l : list Event, lg1 ++ l = lg1 ++ [] -> l = []) as Hnil
      by (intros l C; apply app_inv_head in C; exact C).
  destruct (Z.eqb_spec (int_result a_kill) 0) as [Hz | Hnz]; cbn [negb] in Hp.
  - pose proof (int_result_zero _ Hint Hz) as Hk. subst a_kill.
    cbn [errno_after] in Hp.
    destruct Hp as (a_wait & rest2 & -> & Hp). cbv zeta in Hp.
    change (match a_wait with Fail x => Z.pos x | _ => e1 end)
      with (errno_after a_wait e1) in Hp.
    destruct (ok result) eqn:Hres; cbn [negb] in Hp.
    + destruct Hp as (r & ER & Hout).
      split; [intros; split; reflexivity |].
      destruct r as [e | pd].
      * destruct Hout as [-> ->].
        destruct (ReadAll_val _ _ ER) as (reads & _ & Hok & _).
        split; [intros _; split; [reflexivity | exact Hloc] |].
        split; [intros C; rewrite Hok in C; discriminate C |].
        intros _ _ a_wait' rest2' pd os'' Hr ER' Hc.
        inversion Hr; subst. rewrite ER in ER'. discriminate ER'.
      * destruct (PipedData.status_code pd =? kOk) eqn:Hc; cbn [negb] in Hout;
          destruct Hout as [-> ->].
        -- split; [intros C; discriminate C |].
           split.
           ++ intros _. split; [reflexivity |]. split; [reflexivity |].
              exists a_wait, rest2, pd. apply Z.eqb_eq in Hc. auto.
           ++ intros; reflexivity.
        -- split; [intros _; split; [reflexivity | exact Hloc] |].
           split.
           ++ unfold ok. cbn [code]. rewrite Hc. intros C. discriminate C.
           ++ intros _ _ a_wait' rest2' pd' os'' Hr ER' Hc'.
              inversion Hr; subst. rewrite ER in ER'.
              inversion ER'; subst. apply Z.eqb_eq in Hc'.
              rewrite Hc' in Hc. discriminate Hc.
    + destruct Hp as (-> & -> & ->).
      split.
      { intros d rfd off n Hl Hin. cbn [log] in Hl.
        apply app_inv_head in Hl. subst d.
        destruct Hin as [C | [C | []]]; discriminate C. }
      split; [intros _; split; [reflexivity | exact Hloc] |].
      split; [intros C; rewrite Hres in C; discriminate C |].
      intros C. discriminate C.
  - destruct Hp as (-> & -> & ->).
    split.
    { intros d rfd off n Hl Hin. cbn [log] in Hl.
      apply app_inv_head in Hl. subst d.
      destruct Hin as [C | []]; discriminate C. }
    split; [intros _; split; [reflexivity | exact Hloc] |].
    split; [intros C; discriminate C |].
    intros _ Hk. subst a_kill. exfalso. apply Hnz. reflexivity.
Qed.

End ParentPaths.

(* ------------------------------------------------------------------ *)
(** * Further properties: the child *)

Lemma fill_events_step block size :
  0 < size ->
  fill_events block size
  = EvStore block [x08] :: fill_events (block + 4) (size - 4).
Proof.
  intros Hs. unfold fill_events.
  replace (size + 3) with (size - 4 + 3 + 1 * 4) by lia.
  rewrite Z.div_add by lia.
  assert (0 <= (size - 4 + 3) / 4) as Hq by (apply Z.div_pos; lia).
  rewrite Z2Nat.inj_add by lia.
  change (Z.to_nat 1) with 1%nat. rewrite Nat.add_1_r.
  cbn [seq map]. rewrite Z.mul_0_r, Z.add_0_r. f_equal.
  rewrite <- seq_shift, map_map. apply map_ext. intros k.
  f_equal. lia.
Qed.

Lemma fill_events_none block size : size <= 0 -> fill_events block size = [].
Proof.
  intros Hs. unfold fill_events.
  assert ((size + 3) / 4 <= 0) as Hq.
  { destruct (Z.le_gt_cases ((size + 3) / 4) 0) as [Hle | Hgt]; [exact Hle |].
    exfalso. pose proof (Z.mul_div_le (size + 3) 4 ltac:(lia)). lia. }
  replace (Z.to_nat ((size + 3) / 4)) with 0%nat by lia. reflexivity.
Qed.

Lemma In_fill_events block size a bs :
  In (EvStore a bs) (fill_events block size)
  <-> bs = [x08] /\ exists k, 0 <= k /\ 4 * k < size /\ a = block + 4 * k.
Proof.
  unfold fill_events. rewrite in_map_iff. split.
  - intros (k & E & Hk). inversion E; subst. split; [reflexivity |].
    apply in_seq in Hk. exists (Z.of_nat k). split; [lia |].
    split; [| reflexivity].
    assert (0 < (size + 3) / 4) as Hq by lia.
    pose proof (Z.mul_div_le (size + 3) 4 ltac:(lia)).
    assert (Z.of_nat k + 1 <= (size + 3) / 4) by lia. lia.
  - intros (-> & k & Hk & Hlt & ->). exists (Z.to_nat k).
    rewrite Z2Nat.id by lia. split; [reflexivity |].
    apply in_seq. split; [lia |]. cbn [Nat.add].
    assert (k + 1 <= (size + 3) / 4); [| lia].
    apply Z.div_le_lower_bound; lia.
Qed.

Section ChildRuns.

Context `{Platform}.

(** The fill loop from [i] on. *)
Lemma fill_block_run block size :
  forall fuel i os,
    (0 < fuel)%nat -> size - i + 4 <= 4 * Z.of_nat fuel ->
    fill_block fuel block size i os
    = (Val tt,
       mkOS (errno os) (script os)
            (log os ++ fill_events (block + i) (size - i))).
Proof.
  induction fuel as [| fuel IH]; intros i os Hpos Hf; [lia |].
  cbn [fill_block]. destruct (Z.ltb_spec i size) as [Hlt | Hge].
  - unfold bind, store. rewrite IH by lia.
    cbn [errno script log]. rewrite <- app_assoc. cbn [app].
    rewrite (@fill_events_step (block + i) (size - i)) by lia.
    replace (block + (i + 4)) with (block + i + 4) by lia.
    replace (size - (i + 4)) with (size - i - 4) by lia.
    reflexivity.
  - rewrite fill_events_none by lia. rewrite app_nil_r.
    destruct os; reflexivity.
Qed.

(** X13: the fill loop stores the byte 8 at every fourth address of the
    block, from its start to its end, and nothing else.  The bound on
    the size is the one under which the [int] counter of the source
    never overflows. *)
Theorem fill_block_stores :
  forall block size os,
    0 <= size <= 2 ^ 31 - 4 ->
    fill_block (S (Z.to_nat size)) block size 0 os
    = (Val tt, mkOS (errno os) (script os) (log os ++ fill_events block size))
    /\ (forall a bs,
          In (EvStore a bs) (fill_events block size)
          <-> bs = [x08] /\ exists k, 0 <= k /\ 4 * k < size /\ a = block + 4 * k)
    /\ Z.of_nat (length (fill_events block size)) = (size + 3) / 4.
Proof.
  intros block size os Hs. split; [| split].
  - rewrite fill_block_run by lia.
    rewrite Z.add_0_r, Z.sub_0_r. reflexivity.
  - intros a bs. apply In_fill_events.
  - unfold fill_events. rewrite length_map, length_seq.
    apply Z2Nat.id. apply Z.div_pos; lia.
Qed.

(** The loop over the discovered blocks as long as each maps where it
    was found. *)
Lemma map_accessed_blocks_run fd size e :
  0 <= size ->
  forall done more tail lg,
    Forall mappable done ->
    map_accessed_blocks fd size (done ++ more)
                        (mkOS e (map Ret done ++ tail) lg)
    = map_accessed_blocks fd size more
        (mkOS e tail (lg ++ flat_map (block_events size) done)).
Proof.
  intros Hs. induction done as [| b done IH]; intros more tail lg Hm.
  - cbn [app map flat_map]. rewrite app_nil_r. reflexivity.
  - inversion Hm as [| ? ? Hb Hd]; subst. unfold mappable in Hb.
    cbn [app map map_accessed_blocks].
    unfold mmap at 1, syscall, bind at 1 2. cbn [script errno log errno_after].
    unfold ret at 1. cbn beta iota.
    assert (wrap64 b = b) as Hw
        by (unfold wrap64; apply Z.mod_small; unfold MAP_FAILED in Hb; lia).
    rewrite Hw.
    destruct (Z.eqb_spec b MAP_FAILED) as [C | _]; [lia |].
    rewrite Z.eqb_refl. cbn [negb].
    unfold bind at 1. rewrite fill_block_run by lia.
    cbn [errno script log]. rewrite IH by exact Hd.
    rewrite Z.add_0_r, Z.sub_0_r.
    cbn [flat_map]. unfold block_events at 3.
    rewrite <- !app_assoc. reflexivity.
Qed.

(** X14: the child maps and fills the discovered blocks in their order;
    at the first one that [mmap] refuses it goes to [AbortChildProcess]
    with an internal error that names the block, and the blocks behind
    it are not touched. *)
Theorem map_accessed_blocks_mmap_refused :
  forall fd size done b later e e' tail lg,
    0 <= size ->
    Forall mappable done ->
    map_accessed_blocks fd size (done ++ b :: later)
                        (mkOS e (map Ret done ++ Fail e' :: tail) lg)
    = AbortChildProcess fd
        (InternalError
           ("mapping previously discovered address " ++ fmt_p b
              ++ " failed")%string)
        (mkOS (Zpos e') tail
              (lg ++ flat_map (block_events size) done
                  ++ [EvMmap b size (Z.lor PROT_READ PROT_WRITE)])).
Proof.
  intros fd size done b later e e' tail lg Hs Hd.
  rewrite map_accessed_blocks_run by assumption.
  cbn [map_accessed_blocks].
  unfold mmap at 1, syscall, bind at 1 2. cbn [script errno log errno_after].
  unfold ret at 1. cbn beta iota. rewrite Z.eqb_refl.
  rewrite <- app_assoc. reflexivity.
Qed.

(** X15: a discovered block that [mmap] puts at another address is an
    invalid argument, the kind of failure the driver answers with new
    registers: the child goes to [AbortChildProcess] with it, and the
    blocks behind are not touched. *)
Theorem map_accessed_blocks_mapped_elsewhere :
  forall fd size done b later e r tail lg,
    0 <= size ->
    Forall mappable done ->
    wrap64 r <> MAP_FAILED -> wrap64 r <> b ->
    map_accessed_blocks fd size (done ++ b :: later)
                        (mkOS e (map Ret done ++ Ret r :: tail) lg)
    = AbortChildProcess fd
        (InvalidArgumentError
           ("tried to map previously discovered address " ++ fmt_p b
              ++ ", but mmap couldn't map this address" ++ nl)%string)
        (mkOS e tail
              (lg ++ flat_map (block_events size) done
                  ++ [EvMmap b size (Z.lor PROT_READ PROT_WRITE)])).
Proof.
  intros fd size done b later e r tail lg Hs Hd Hr Hb.
  rewrite map_accessed_blocks_run by assumption.
  cbn [map_accessed_blocks].
  unfold mmap at 1, syscall, bind at 1 2. cbn [script errno log errno_after].
  unfold ret at 1. cbn beta iota.
  destruct (Z.eqb_spec (wrap64 r) MAP_FAILED) as [C | _]; [contradiction |].
  destruct (Z.eqb_spec (wrap64 r) b) as [C | _]; [contradiction |].
  cbn [negb]. rewrite <- app_assoc. reflexivity.
Qed.

Lemma map_accessed_blocks_all fd size e blocks tail lg :
  0 <= size -> Forall mappable blocks ->
  map_accessed_blocks fd size blocks (mkOS e (map Ret blocks ++ tail) lg)
  = (Val tt, mkOS e tail (lg ++ flat_map (block_events size) blocks)).
Proof.
  intros Hs Hm.
  rewrite <- (app_nil_r blocks) at 1.
  rewrite map_accessed_blocks_run by assumption. reflexivity.
Qed.

(** The calls of the child before it maps the code. *)
Ltac child_prefix :=
  unfold ChildProcess, ptrace, raise, munmap, sys_int, syscall;
  unfold bind at 1; unfold bind at 1;
  cbn [script errno log errno_after]; unfold ret at 1;
  unfold bind at 1; unfold bind at 1;
  cbn [script errno log errno_after]; unfold ret at 1;
  unfold bind at 1; unfold bind at 1;
  cbn [script errno log errno_after]; unfold ret at 1;
  unfold ChildProcess_mapped; unfold bind at 1.

(** X16: when every discovered block maps where it was found and the
    code is mapped, the frame reports the address [mmap] returned; if it
    goes out, prologue, block and epilogue are stored there back to back
    and the block is entered with [initial_regs]; if not, the child
    aborts without having stored any code. *)
Theorem ChildProcess_enters_block :
  forall (A : Type) bb fd aa e r1 r2 r3 addr tail lg st os2,
    0 <= block_size aa ->
    Forall mappable (accessed_blocks aa) ->
    wrap64 addr <> MAP_FAILED ->
    let before := GetGematriaBeforeBlockCode in
    let after := GetGematriaAfterBlockCode in
    let desired :=
      if code_location aa =? 0 then kDefaultCodeLocation
      else code_location aa in
    let total := (length before + length bb + length after)%nat in
    WriteAll fd (ok_frame (wrap64 addr))
      (mkOS e tail
         (lg ++ EvPtrace PTRACE_TRACEME 0 :: EvRaise SIGSTOP
             :: EvMunmap 0x800000000 0x10000
             :: flat_map (block_events (block_size aa)) (accessed_blocks aa)
             ++ [EvMmap desired (Z.of_nat total) (Z.lor PROT_WRITE PROT_EXEC)]))
    = (Val st, os2) ->
    @ChildProcess _ A bb fd aa
       (mkOS e (Ret r1 :: Ret r2 :: Ret r3
                  :: map Ret (accessed_blocks aa) ++ Ret addr :: tail) lg)
    = if ok st
      then (Halt (Entered (wrap64 addr) (initial_regs aa)),
            mkOS (errno os2) (script os2)
                 (log os2
                    ++ [EvStore (wrap64 addr) before;
                        EvStore (wrap64 addr + Z.of_nat (length before)) bb;
                        EvStore (wrap64 addr
                                 + Z.of_nat (length before + length bb))
                                after]))
      else (Halt Aborted, os2).
Proof.
  intros A bb fd aa e r1 r2 r3 addr tail lg st os2 Hs Hm Haddr
         before after desired total HW.
  child_prefix.
  rewrite map_accessed_blocks_all by assumption.
  unfold mmap at 1, syscall. unfold bind at 1. unfold bind at 1.
  cbn [script errno log errno_after]. unfold ret at 1. cbn beta iota.
  destruct (Z.eqb_spec (wrap64 addr) MAP_FAILED) as [C | _]; [contradiction |].
  unfold bind at 1. fold before. fold after. fold total. fold desired.
  rewrite <- !app_assoc. cbn [app].
  change (PipedData.set_code_address
            (PipedData.set_status_code MakePipedData (code OkStatus))
            (wrap64 addr)) with (ok_frame (wrap64 addr)).
  rewrite HW.
  destruct (ok st); cbn [negb]; [| reflexivity].
  unfold store, bind, halt. cbn [errno script log].
  rewrite <- !app_assoc. reflexivity.
Qed.

(** X17: when the code cannot be mapped the child reports on [stderr]
    only: it aborts without writing a frame. *)
Theorem ChildProcess_code_mmap_failure :
  forall (A : Type) bb fd aa e r1 r2 r3 e' tail lg,
    0 <= block_size aa ->
    Forall mappable (accessed_blocks aa) ->
    let desired :=
      if code_location aa =? 0 then kDefaultCodeLocation
      else code_location aa in
    let total :=
      (length GetGematriaBeforeBlockCode + length bb
       + length GetGematriaAfterBlockCode)%nat in
    @ChildProcess _ A bb fd aa
       (mkOS e (Ret r1 :: Ret r2 :: Ret r3
                  :: map Ret (accessed_blocks aa) ++ Fail e' :: tail) lg)
    = (Halt Aborted,
       mkOS (Zpos e') tail
            (lg ++ EvPtrace PTRACE_TRACEME 0 :: EvRaise SIGSTOP
                :: EvMunmap 0x800000000 0x10000
                :: flat_map (block_events (block_size aa)) (accessed_blocks aa)
                ++ [EvMmap desired (Z.of_nat total)
                           (Z.lor PROT_WRITE PROT_EXEC);
                    EvPerror])).
Proof.
  intros A bb fd aa e r1 r2 r3 e' tail lg Hs Hm desired total.
  child_prefix.
  rewrite map_accessed_blocks_all by assumption.
  unfold mmap at 1, syscall. unfold bind at 1. unfold bind at 1.
  cbn [script errno log errno_after]. unfold ret at 1. cbn beta iota.
  rewrite Z.eqb_refl.
  unfold perror, abort, halt, bind. cbn [errno script log].
  fold total. fold desired.
  rewrite <- !app_assoc. reflexivity.
Qed.

(** C8, as the code has it.  The child has four failures.  A
    discovered block that [mmap] refuses, or maps at another address,
    goes to [AbortChildProcess], and the frame that emits is the first
    thing handed to [write]; it carries the status code and the first
    [min(length, 1023)] bytes of the message; every byte behind the
    copied message (the rest of [status_message], the padding,
    [code_address]) is zero, so [status_message] is NUL-terminated and
    reads back as a C string no longer than the copy.  The two other
    failures emit no failure frame: when the code cannot be mapped the
    child calls [perror] and aborts with nothing written to the pipe,
    and when the ok frame cannot be written it aborts in the state that
    write attempt left. *)
Theorem ChildProcess_failure_frames :
  forall fd,
    (forall status,
        let msg := list_byte_of_string (message status) in
        let n := Nat.min (length msg) (PipedData.status_message_size - 1) in
        let frame := AbortPipedData status in
        (forall A : Type,
            starts_with (EvWrite fd frame) (@AbortChildProcess _ A fd status) /\
            noreturn (@AbortChildProcess _ A fd status)) /\
        length frame = PipedData.sizeof /\
        PipedData.status_code frame = sign32 (code status) /\
        (n <= 1023)%nat /\
        slice PipedData.status_message_offset n frame = firstn n msg /\
        (forall i,
            (PipedData.status_message_offset + n <= i < PipedData.sizeof)%nat ->
            nth i frame x00 = x00) /\
        nth (PipedData.status_message_offset + PipedData.status_message_size - 1)
            frame x00 = x00 /\
        c_str (skipn PipedData.status_message_offset frame)
        = c_str (firstn n msg)) /\
    (forall size done b later e e' tail lg,
        0 <= size -> Forall mappable done ->
        map_accessed_blocks fd size (done ++ b :: later)
                            (mkOS e (map Ret done ++ Fail e' :: tail) lg)
        = AbortChildProcess fd
            (InternalError
               ("mapping previously discovered address " ++ fmt_p b
                  ++ " failed")%string)
            (mkOS (Zpos e') tail
                  (lg ++ flat_map (block_events size) done
                      ++ [EvMmap b size (Z.lor PROT_READ PROT_WRITE)]))) /\
    (forall size done b later e r tail lg,
        0 <= size -> Forall mappable done ->
        wrap64 r <> MAP_FAILED -> wrap64 r <> b ->
        map_accessed_blocks fd size (done ++ b :: later)
                            (mkOS e (map Ret done ++ Ret r :: tail) lg)
        = AbortChildProcess fd
            (InvalidArgumentError
               ("tried to map previously discovered address " ++ fmt_p b
                  ++ ", but mmap couldn't map this address" ++ nl)%string)
            (mkOS e tail
                  (lg ++ flat_map (block_events size) done
                      ++ [EvMmap b size (Z.lor PROT_READ PROT_WRITE)]))) /\
    (forall (A : Type) bb aa e r1 r2 r3 e' tail lg,
        0 <= block_size aa -> Forall mappable (accessed_blocks aa) ->
        @ChildProcess _ A bb fd aa
           (mkOS e (Ret r1 :: Ret r2 :: Ret r3
                      :: map Ret (accessed_blocks aa) ++ Fail e' :: tail) lg)
        = (Halt Aborted,
           mkOS (Zpos e') tail
                (lg ++ EvPtrace PTRACE_TRACEME 0 :: EvRaise SIGSTOP
                    :: EvMunmap 0x800000000 0x10000
                    :: flat_map (block_events (block_size aa))
                                (accessed_blocks aa)
                    ++ [EvMmap (if code_location aa =? 0
                                then kDefaultCodeLocation
                                else code_location aa)
                               (Z.of_nat
                                  (length GetGematriaBeforeBlockCode
                                   + length bb
                                   + length GetGematriaAfterBlockCode))
                               (Z.lor PROT_WRITE PROT_EXEC);
                        EvPerror]))) /\
    (forall (A : Type) bb aa e r1 r2 r3 addr tail lg st os2,
        0 <= block_size aa -> Forall mappable (accessed_blocks aa) ->
        wrap64 addr <> MAP_FAILED ->
        WriteAll fd (ok_frame (wrap64 addr))
          (mkOS e tail
             (lg ++ EvPtrace PTRACE_TRACEME 0 :: EvRaise SIGSTOP
                 :: EvMunmap 0x800000000 0x10000
                 :: flat_map (block_events (block_size aa)) (accessed_blocks aa)
                 ++ [EvMmap (if code_location aa =? 0
                             then kDefaultCodeLocation
                             else code_location aa)
                            (Z.of_nat
                               (length GetGematriaBeforeBlockCode
                                + length bb
                                + length GetGematriaAfterBlockCode))
                            (Z.lor PROT_WRITE PROT_EXEC)]))
        = (Val st, os2) ->
        ok st = false ->
        @ChildProcess _ A bb fd aa
           (mkOS e (Ret r1 :: Ret r2 :: Ret r3
                      :: map Ret (accessed_blocks aa) ++ Ret addr :: tail) lg)
        = (Halt Aborted, os2)).
Proof.
  intros fd. split; [| split; [| split; [| split]]].
  - intros status. apply AbortChildProcess_emits.
  - intros size done b later e e' tail lg Hs Hd.
    rewrite map_accessed_blocks_run by assumption.
    cbn [map_accessed_blocks].
    unfold mmap at 1, syscall, bind at 1 2. cbn [script errno log errno_after].
    unfold ret at 1. cbn beta iota. rewrite Z.eqb_refl.
    rewrite <- app_assoc. reflexivity.
  - intros size done b later e r tail lg Hs Hd Hr Hb.
    rewrite map_accessed_blocks_run by assumption.
    cbn [map_accessed_blocks].
    unfold mmap at 1, syscall, bind at 1 2. cbn [script errno log errno_after].
    unfold ret at 1. cbn beta iota.
    destruct (Z.eqb_spec (wrap64 r) MAP_FAILED) as [C | _]; [contradiction |].
    destruct (Z.eqb_spec (wrap64 r) b) as [C | _]; [contradiction |].
    cbn [negb]. rewrite <- app_assoc. reflexivity.
  - intros A bb aa e r1 r2 r3 e' tail lg Hs Hm.
    child_prefix.
    rewrite map_accessed_blocks_all by assumption.
    unfold mmap at 1, syscall. unfold bind at 1. unfold bind at 1.
    cbn [script errno log errno_after]. unfold ret at 1. cbn beta iota.
    rewrite Z.eqb_refl.
    unfold perror, abort, halt, bind. cbn [errno script log].
    rewrite <- !app_assoc. reflexivity.
  - intros A bb aa e r1 r2 r3 addr tail lg st os2 Hs Hm Haddr HW Hok.
    child_prefix.
    rewrite map_accessed_blocks_all by assumption.
    unfold mmap at 1, syscall. unfold bind at 1. unfold bind at 1.
    cbn [script errno log errno_after]. unfold ret at 1. cbn beta iota.
    destruct (Z.eqb_spec (wrap64 addr) MAP_FAILED) as [C | _]; [contradiction |].
    unfold bind at 1.
    rewrite <- !app_assoc. cbn [app].
    change (PipedData.set_code_address
              (PipedData.set_status_code MakePipedData (code OkStatus))
              (wrap64 addr)) with (ok_frame (wrap64 addr)).
    rewrite HW, Hok. reflexivity.
Qed.

End ChildRuns.

(* ------------------------------------------------------------------ *)
(** * Further properties: trials and the driver *)

Section TrialRuns.

Context `{Platform}.

(** X18: a trial that cannot set up its pipe or its child returns the
    status of [errno] and leaves [accessed_addrs] alone; after a failed
    [fork] neither end of the pipe is closed. *)
Theorem ForkAndTestAddresses_setup_failures :
  forall bb aa e e' rest lg,
    ForkAndTestAddresses bb aa (mkOS e (Fail e' :: rest) lg)
    = (Val (ErrnoToStatus (Zpos e')
              "Failed to open pipe for communication with child process: %s",
            aa),
       mkOS (Zpos e') rest (lg ++ [EvPipe]))
    /\ (forall rd wr,
          ForkAndTestAddresses bb aa (mkOS e (Fds rd wr :: Fail e' :: rest) lg)
          = (Val (ErrnoToStatus (Zpos e') "Failed to fork", aa),
             mkOS (Zpos e') rest (lg ++ [EvPipe; EvFork])))
    /\ (forall msg, ok (ErrnoToStatus (Zpos e') msg) = false).
Proof.
  intros bb aa e e' rest lg. split; [| split].
  - reflexivity.
  - intros rd wr.
    unfold ForkAndTestAddresses, pipe, fork, sys_int, syscall, bind, ret,
      get_errno.
    do 3 cbn [negb Z.eqb Pos.eqb script errno log errno_after].
    rewrite <- app_assoc. reflexivity.
  - intros msg. apply ok_ErrnoToStatus.
Qed.

Lemma ok_frame_fields addr :
  length (ok_frame addr) = PipedData.sizeof
  /\ PipedData.status_code (ok_frame addr) = kOk
  /\ PipedData.code_address (ok_frame addr) = wrap64 addr.
Proof.
  assert (length MakePipedData = PipedData.sizeof) as Hz by apply repeat_length.
  unfold ok_frame. split; [| split].
  - apply length_set_fields. exact Hz.
  - rewrite status_code_set_fields by exact Hz. reflexivity.
  - apply code_address_set_fields. exact Hz.
Qed.

Ltac trial_start :=
  unfold ForkAndTestAddresses, pipe, fork, close, sys_int, syscall;
  unfold bind at 1; unfold bind at 1;
  cbn [script errno log errno_after app]; unfold ret at 1;
  cbn [negb Z.eqb Pos.eqb];
  unfold bind at 1; unfold bind at 1;
  cbn [script errno log errno_after app]; unfold ret at 1;
  cbn [negb Z.eqb Pos.eqb];
  unfold bind at 1; unfold bind at 1;
  cbn [script errno log errno_after app]; unfold ret at 1;
  cbn [negb Z.eqb Pos.eqb].

Lemma ForkAndTestAddresses_segv_new bb aa e a tail lg :
  IsRetryable e = false ->
  ~ In (AlignDown (wrap64 a) (block_size aa)) (accessed_blocks aa) ->
  ForkAndTestAddresses bb aa (mkOS e (segv_trial a ++ tail) lg)
  = (Val (OkStatus, discovered aa [a]),
     mkOS e tail (lg ++ segv_trial_calls)).
Proof.
  intros He Hnew.
  destruct (ok_frame_fields kDefaultCodeLocation) as (Hl & Hc & Ha).
  assert (Forall nonempty [ok_frame kDefaultCodeLocation]) as Hne.
  { constructor; [| constructor]. intros C. rewrite C in Hl. discriminate Hl. }
  unfold segv_trial, trial_prefix. trial_start.
  pose proof (@ParentProcessInner_segv_new _ 77 aa e (W_STOPCODE SIGSTOP) 0 (W_STOPCODE SIGSEGV) a
                (Ret 0 :: WStatus SIGKILL
                   :: map Data [ok_frame kDefaultCodeLocation] ++ Ret 0 :: tail)
                (lg ++ [EvPipe; EvFork; EvClose 4])
                eq_refl eq_refl eq_refl Hnew) as E0.
  rewrite <- !app_assoc. cbn [app].
  cbn [map app] in E0. rewrite <- !app_assoc in E0. cbn [app] in E0.
  rewrite (@ParentProcess_frame _ 77 3 aa _ _ e SIGKILL
             (ok_frame kDefaultCodeLocation) [ok_frame kDefaultCodeLocation]
             (Ret 0) tail _ E0 He Hl (app_nil_r _) Hne eq_refl).
  rewrite Hc, Ha. cbn [negb Z.eqb kOk errno_after].
  unfold segv_trial_calls, trial_calls_prefix, discovered, set_code_location,
    set_accessed_blocks.
  cbn [read_events app map block_size accessed_blocks initial_regs
       code_location].
  rewrite <- !app_assoc. reflexivity.
Qed.

Lemma ForkAndTestAddresses_segv_known bb aa e a tail lg :
  IsRetryable e = false ->
  In (AlignDown (wrap64 a) (block_size aa)) (accessed_blocks aa) ->
  ForkAndTestAddresses bb aa (mkOS e (segv_trial a ++ tail) lg)
  = (Val (OkStatus, set_code_location aa kDefaultCodeLocation),
     mkOS e tail (lg ++ segv_trial_calls)).
Proof.
  intros He Hold.
  destruct (ok_frame_fields kDefaultCodeLocation) as (Hl & Hc & Ha).
  assert (Forall nonempty [ok_frame kDefaultCodeLocation]) as Hne.
  { constructor; [| constructor]. intros C. rewrite C in Hl. discriminate Hl. }
  unfold segv_trial, trial_prefix. trial_start.
  pose proof (@ParentProcessInner_segv_known _ 77 aa e (W_STOPCODE SIGSTOP) 0 (W_STOPCODE SIGSEGV) a
                (Ret 0 :: WStatus SIGKILL
                   :: map Data [ok_frame kDefaultCodeLocation] ++ Ret 0 :: tail)
                (lg ++ [EvPipe; EvFork; EvClose 4])
                eq_refl eq_refl eq_refl Hold) as E0.
  rewrite <- !app_assoc. cbn [app].
  cbn [map app] in E0. rewrite <- !app_assoc in E0. cbn [app] in E0.
  rewrite (@ParentProcess_frame _ 77 3 aa _ _ e SIGKILL
             (ok_frame kDefaultCodeLocation) [ok_frame kDefaultCodeLocation]
             (Ret 0) tail _ E0 He Hl (app_nil_r _) Hne eq_refl).
  rewrite Hc, Ha. cbn [negb Z.eqb kOk errno_after].
  unfold segv_trial_calls, trial_calls_prefix.
  cbn [read_events app map block_size accessed_blocks initial_regs
       code_location].
  rewrite <- !app_assoc. reflexivity.
Qed.

Lemma ForkAndTestAddresses_abrt bb aa e tail lg :
  IsRetryable e = false ->
  ForkAndTestAddresses bb aa (mkOS e (abrt_trial ++ tail) lg)
  = (Val (OkStatus, set_code_location aa kDefaultCodeLocation),
     mkOS e tail (lg ++ abrt_trial_calls)).
Proof.
  intros He.
  destruct (ok_frame_fields kDefaultCodeLocation) as (Hl & Hc & Ha).
  assert (Forall nonempty [ok_frame kDefaultCodeLocation]) as Hne.
  { constructor; [| constructor]. intros C. rewrite C in Hl. discriminate Hl. }
  unfold abrt_trial, trial_prefix. trial_start.
  pose proof (@ParentProcessInner_abrt _ 77 aa e (W_STOPCODE SIGSTOP) 0 (W_STOPCODE SIGABRT)
                (Ret 0 :: WStatus SIGKILL
                   :: map Data [ok_frame kDefaultCodeLocation] ++ Ret 0 :: tail)
                (lg ++ [EvPipe; EvFork; EvClose 4])
                eq_refl eq_refl eq_refl) as E0.
  rewrite <- !app_assoc. cbn [app].
  cbn [map app] in E0. rewrite <- !app_assoc in E0. cbn [app] in E0.
  rewrite (@ParentProcess_frame _ 77 3 aa _ _ e SIGKILL
             (ok_frame kDefaultCodeLocation) [ok_frame kDefaultCodeLocation]
             (Ret 0) tail _ E0 He Hl (app_nil_r _) Hne eq_refl).
  rewrite Hc, Ha. cbn [negb Z.eqb kOk errno_after].
  unfold abrt_trial_calls, trial_calls_prefix.
  cbn [read_events app map block_size accessed_blocks initial_regs
       code_location].
  rewrite <- !app_assoc. reflexivity.
Qed.

Lemma discovered_nil aa : discovered aa [] = aa.
Proof.
  unfold discovered. cbn [map]. rewrite app_nil_r. destruct aa; reflexivity.
Qed.

Lemma discovered_cons aa a addrs :
  discovered (discovered aa [a]) addrs = discovered aa (a :: addrs).
Proof.
  unfold discovered.
  cbn [map block_size accessed_blocks initial_regs code_location app].
  rewrite <- app_assoc. cbn [app].
  destruct addrs; reflexivity.
Qed.

Lemma length_segv_trial a : length (segv_trial a) = 11%nat.
Proof. reflexivity. Qed.

(** The passes of the driver's loop in which the trial faults on a page
    not seen before. *)
Lemma FindAccessedAddrs_loop_discovers bb gen e :
  IsRetryable e = false ->
  forall addrs fuel aa n tail lg,
    (length (flat_map segv_trial addrs ++ tail) < fuel)%nat ->
    NoDup (map (fun a => AlignDown (wrap64 a) (block_size aa)) addrs) ->
    (forall a, In a addrs ->
               ~ In (AlignDown (wrap64 a) (block_size aa)) (accessed_blocks aa)) ->
    FindAccessedAddrs_loop fuel bb aa gen n
      (mkOS e (flat_map segv_trial addrs ++ tail) lg)
    = FindAccessedAddrs_loop (S (length tail)) bb (discovered aa addrs) gen
        (n + Z.of_nat (length addrs))
        (mkOS e tail (lg ++ flat_map (fun _ => segv_trial_calls) addrs)).
Proof.
  intros He. induction addrs as [| a addrs IH];
    intros fuel aa n tail lg Hfuel Hnd Hnew.
  - cbn [flat_map app length Z.of_nat] in *.
    rewrite discovered_nil, Z.add_0_r, app_nil_r.
    apply FindAccessedAddrs_loop_fuel; cbn [script]; lia.
  - cbn [flat_map] in *. rewrite <- app_assoc in *.
    rewrite length_app, length_segv_trial in Hfuel.
    destruct fuel as [| fuel]; [lia |].
    cbn [FindAccessedAddrs_loop]. unfold bind at 1.
    rewrite ForkAndTestAddresses_segv_new
      by (assumption || (apply Hnew; left; reflexivity)).
    change (FindAccessedAddrs_body OkStatus (discovered aa [a]) gen n)
      with (@inr Status _ (discovered aa [a], gen, n + 1)).
    cbv iota beta.
    replace (length (accessed_blocks (discovered aa [a])) =?
             length (accessed_blocks aa))%nat with false.
    2:{ symmetry. apply Nat.eqb_neq. unfold discovered.
        cbn [accessed_blocks map]. rewrite length_app. cbn [length]. lia. }
    cbn [negb].
    inversion Hnd as [| ? ? Hnotin Hnd']; subst.
    rewrite IH.
    + rewrite discovered_cons. cbn [length flat_map].
      rewrite <- app_assoc.
      replace (n + 1 + Z.of_nat (length addrs))
        with (n + Z.of_nat (S (length addrs))) by lia.
      reflexivity.
    + lia.
    + exact Hnd'.
    + intros a' Ha'. unfold discovered.
      cbn [accessed_blocks block_size map]. intros Hin.
      apply in_app_or in Hin. destruct Hin as [Hin | [Heq | []]].
      * exact (Hnew a' (or_intror Ha') Hin).
      * apply Hnotin. rewrite Heq. apply in_map_iff. exists a'. auto.
Qed.

End TrialRuns.

Section DriverRuns.

Context `{Platform}.

(** X19: a block that faults on one new page per trial and then runs to
    the epilogue: the driver returns the pages in the order of their
    discovery, with the page size as block size, the code location of
    the last frame and the registers it started with. *)
Theorem FindAccessedAddrs_discovers_pages :
  forall gen bb e page addrs rest lg,
    IsRetryable e = false ->
    0 < page < 2 ^ 64 ->
    NoDup (map (fun a => AlignDown (wrap64 a) page) addrs) ->
    FindAccessedAddrs gen bb
      (mkOS e (Ret page :: flat_map segv_trial addrs ++ abrt_trial ++ rest) lg)
    = (Val (inr (mkAccessedAddrs kDefaultCodeLocation page
                   (map (fun a => AlignDown (wrap64 a) page) addrs)
                   sample_regs)),
       mkOS e rest
            (lg ++ EvGetpagesize
                :: flat_map (fun _ => segv_trial_calls) addrs
                ++ abrt_trial_calls)).
Proof.
  intros gen bb e page addrs rest lg He Hpage Hnd.
  unfold FindAccessedAddrs, getpagesize, sys_int, syscall.
  unfold bind at 1. unfold bind at 1. cbn [script errno log errno_after].
  unfold ret at 1. unfold with_fuel. cbn [script].
  assert (wrap64 page = page) as Hw by (apply Z.mod_small; lia).
  rewrite Hw.
  rewrite (@FindAccessedAddrs_loop_discovers _ bb gen e He addrs);
    [| lia | exact Hnd | intros a _ []].
  cbn [FindAccessedAddrs_loop]. unfold bind at 1.
  rewrite ForkAndTestAddresses_abrt by exact He.
  match goal with
  | |- context [FindAccessedAddrs_body OkStatus ?a ?g ?n] =>
      change (FindAccessedAddrs_body OkStatus a g n)
        with (@inr Status _ (a, g, n + 1))
  end.
  cbv iota beta.
  cbn [set_code_location accessed_blocks]. rewrite Nat.eqb_refl. cbn [negb].
  unfold ret, discovered. cbn [block_size initial_regs accessed_blocks app].
  rewrite <- !app_assoc. reflexivity.
Qed.

(** X20: a trial that faults on a page already in [accessed_blocks] adds
    nothing, and that ends the search: the driver returns what it has
    as a success. *)
Theorem FindAccessedAddrs_stops_at_known_page :
  forall gen bb e page addrs a rest lg,
    IsRetryable e = false ->
    0 < page < 2 ^ 64 ->
    NoDup (map (fun a => AlignDown (wrap64 a) page) addrs) ->
    In (AlignDown (wrap64 a) page)
       (map (fun a => AlignDown (wrap64 a) page) addrs) ->
    FindAccessedAddrs gen bb
      (mkOS e (Ret page :: flat_map segv_trial addrs ++ segv_trial a ++ rest) lg)
    = (Val (inr (mkAccessedAddrs kDefaultCodeLocation page
                   (map (fun a => AlignDown (wrap64 a) page) addrs)
                   sample_regs)),
       mkOS e rest
            (lg ++ EvGetpagesize
                :: flat_map (fun _ => segv_trial_calls) addrs
                ++ segv_trial_calls)).
Proof.
  intros gen bb e page addrs a rest lg He Hpage Hnd Hin.
  unfold FindAccessedAddrs, getpagesize, sys_int, syscall.
  unfold bind at 1. unfold bind at 1. cbn [script errno log errno_after].
  unfold ret at 1. unfold with_fuel. cbn [script].
  assert (wrap64 page = page) as Hw by (apply Z.mod_small; lia).
  rewrite Hw.
  rewrite (@FindAccessedAddrs_loop_discovers _ bb gen e He addrs);
    [| lia | exact Hnd | intros a' _ []].
  cbn [FindAccessedAddrs_loop]. unfold bind at 1.
  rewrite ForkAndTestAddresses_segv_known by (exact He || exact Hin).
  match goal with
  | |- context [FindAccessedAddrs_body OkStatus ?a ?g ?n] =>
      change (FindAccessedAddrs_body OkStatus a g n)
        with (@inr Status _ (a, g, n + 1))
  end.
  cbv iota beta.
  cbn [set_code_location accessed_blocks]. rewrite Nat.eqb_refl. cbn [negb].
  unfold ret, discovered. cbn [block_size initial_regs accessed_blocks app].
  rewrite <- !app_assoc. reflexivity.
Qed.

Lemma FindAccessedAddrs_body_regs st aa gen n aa' gen' n' :
  FindAccessedAddrs_body st aa gen n = inr (aa', gen', n') ->
  Forall (fun v => In v kValues) (regs_list (initial_regs aa)) ->
  Forall (fun v => In v kValues) (regs_list (initial_regs aa')).
Proof.
  unfold FindAccessedAddrs_body. intros E Hr.
  destruct (IsInvalidArgument st).
  - destruct (n >? 100); [discriminate |].
    cbn [initial_regs set_accessed_blocks] in E.
    pose proof (RandomiseRegs_values gen (initial_regs aa)) as Hv.
    destruct (RandomiseRegs gen (initial_regs aa)) as [regs g].
    inversion E; subst. exact Hv.
  - destruct (negb (ok st)); [discriminate |]. inversion E; subst. exact Hr.
Qed.

Lemma FindAccessedAddrs_loop_regs fuel :
  forall bb aa gen n os r os',
    FindAccessedAddrs_loop fuel bb aa gen n os = (Val (inr r), os') ->
    Forall (fun v => In v kValues) (regs_list (initial_regs aa)) ->
    Forall (fun v => In v kValues) (regs_list (initial_regs r)).
Proof.
  induction fuel as [| fuel IH]; intros bb aa gen n os r os' E Hr.
  - discriminate.
  - cbn [FindAccessedAddrs_loop] in E.
    apply bind_val in E. destruct E as ([st aa1] & os1 & E1 & E).
    apply ForkAndTestAddresses_frame in E1. destruct E1 as (_ & Hr1 & _).
    rewrite <- Hr1 in Hr.
    destruct (FindAccessedAddrs_body st aa1 gen n)
      as [st' | [[aa2 gen2] n2]] eqn:Eb; [discriminate |].
    pose proof (FindAccessedAddrs_body_regs _ _ _ _ Eb Hr) as Hr2.
    destruct (negb _).
    + eapply IH; eassumption.
    + inversion E; subst. exact Hr2.
Qed.

(** X21: whatever the trials did, every register of a returned
    [AccessedAddrs] holds one of the three values of [kValues], and its
    block size is what [getpagesize] answered at the start. *)
Theorem FindAccessedAddrs_result_frame :
  forall gen bb os r os',
    FindAccessedAddrs gen bb os = (Val (inr r), os') ->
    Forall (fun v => In v kValues) (regs_list (initial_regs r))
    /\ exists page os1,
         getpagesize os = (Val page, os1) /\ block_size r = wrap64 page.
Proof.
  intros gen bb os r os' E. unfold FindAccessedAddrs in E.
  apply bind_val in E. destruct E as (page & os1 & Ep & E).
  unfold with_fuel in E. split.
  - eapply FindAccessedAddrs_loop_regs; [exact E |].
    cbn [initial_regs regs_list rax rbx rcx rdx rsi rdi rsp rbp
         r8 r9 r10 r11 r12 r13 r14 r15].
    repeat (apply Forall_cons; [right; left; reflexivity |]).
    apply Forall_nil.
  - exists page, os1. split; [exact Ep |].
    apply FindAccessedAddrs_loop_block_size in E. exact E.
Qed.

Lemma FindAccessedAddrs_loop_error fuel :
  forall bb aa gen n os st os',
    FindAccessedAddrs_loop fuel bb aa gen n os = (Val (inl st), os') ->
    ok st = false.
Proof.
  induction fuel as [| fuel IH]; intros bb aa gen n os st os' E.
  - discriminate.
  - cbn [FindAccessedAddrs_loop] in E.
    apply bind_val in E. destruct E as ([st1 aa1] & os1 & E1 & E).
    unfold FindAccessedAddrs_body in E.
    destruct (IsInvalidArgument st1) eqn:Hia.
    + destruct (n >? 100).
      * inversion E; subst. unfold IsInvalidArgument in Hia. unfold ok.
        apply Z.eqb_eq in Hia. rewrite Hia. reflexivity.
      * destruct (RandomiseRegs gen _) as [regs g].
        destruct (negb _); [| discriminate]. eapply IH; exact E.
    + destruct (ok st1) eqn:Hok; cbn [negb] in E.
      * destruct (negb _); [| discriminate]. eapply IH; exact E.
      * inversion E; subst. exact Hok.
Qed.

(** X22: the driver never returns an ok status in place of a result. *)
Theorem FindAccessedAddrs_error_is_not_ok :
  forall gen bb os st os',
    FindAccessedAddrs gen bb os = (Val (inl st), os') -> ok st = false.
Proof.
  intros gen bb os st os' E. unfold FindAccessedAddrs in E.
  apply bind_val in E. destruct E as (page & os1 & _ & E).
  unfold with_fuel in E. eapply FindAccessedAddrs_loop_error; exact E.
Qed.

(** X23: a trial's failure that is not an invalid argument ends the
    search at once: it is returned without another trial, whatever the
    counter. *)
Theorem FindAccessedAddrs_loop_returns_other_failures :
  forall fuel bb aa gen n os st aa1 os1,
    ForkAndTestAddresses bb aa os = (Val (st, aa1), os1) ->
    ok st = false -> IsInvalidArgument st = false ->
    FindAccessedAddrs_loop (S fuel) bb aa gen n os = (Val (inl st), os1).
Proof.
  intros fuel bb aa gen n os st aa1 os1 E Hok Hia.
  cbn [FindAccessedAddrs_loop].
  unfold bind at 1. rewrite E. unfold FindAccessedAddrs_body.
  rewrite Hia, Hok. reflexivity.
Qed.

End DriverRuns.

(* ------------------------------------------------------------------ *)
(** * The further properties on sample inputs *)

Section FurtherSamples.

#[local] Existing Instance sample_platform.

Lemma AlignDown_block_start_witness :
  AlignDown 0x50002abc 4096 = 0x50002000
  /\ 0x50001000 <= AlignDown 0x50002abc 4096
  /\ AlignDown 0x50002def 4096 = AlignDown 0x50002abc 4096
  /\ AlignDown (AlignDown 0x50002abc 4096) 4096 = AlignDown 0x50002abc 4096.
Proof.
  destruct (@AlignDown_block_start 0x50002abc 4096 ltac:(lia) ltac:(lia))
    as (E & Hmax & Hsame & Hidem).
  split; [rewrite E; reflexivity |].
  split; [apply Hmax; [reflexivity | lia] |].
  split; [apply (Hsame 0x50002def ltac:(lia)); reflexivity | exact Hidem].
Defined.

Lemma PipedData_fields_round_trip_witness :
  PipedData.status_code
    (PipedData.set_code_address
       (PipedData.set_status_code MakePipedData (-1)) (2 ^ 64 + 5)) = -1
  /\ PipedData.code_address
       (PipedData.set_code_address
          (PipedData.set_status_code MakePipedData (-1)) (2 ^ 64 + 5)) = 5.
Proof.
  destruct (@PipedData_fields_round_trip MakePipedData (-1) (2 ^ 64 + 5)
              eq_refl) as (_ & Hc & Ha & _).
  split; [rewrite Hc | rewrite Ha]; reflexivity.
Defined.

Lemma ReadAll_reassembles_the_frame_witness :
  ReadAll 3 (mkOS 0 (map Data [repeat x01 40; repeat x00 1000] ++ [Ret 0]) [])
  = (Val (inr (repeat x01 40 ++ repeat x00 1000)),
     mkOS 0 [] [EvRead 3 0 1040; EvRead 3 40 1000; EvClose 3]).
Proof.
  rewrite (@ReadAll_reassembles_the_frame sample_platform 3
             (repeat x01 40 ++ repeat x00 1000)
             [repeat x01 40; repeat x00 1000] 0 (Ret 0) [] []).
  - reflexivity.
  - reflexivity.
  - reflexivity.
  - cbn [concat]. rewrite app_nil_r. reflexivity.
  - repeat constructor; discriminate.
  - reflexivity.
Defined.

Lemma ReadAll_short_frame_witness :
  ReadAll 3 (mkOS 0 (map Data [repeat x01 40] ++ [Data []]) [])
  = (Val (inl (InternalError
                 "Read less than expected from pipe (expected 1040B, got 40B)")),
     mkOS 0 [] [EvRead 3 0 1040; EvRead 3 40 1000]).
Proof.
  rewrite (@ReadAll_short_frame sample_platform 3 [repeat x01 40] 0 [] []).
  - reflexivity.
  - reflexivity.
  - repeat constructor; discriminate.
  - cbn [concat]. rewrite app_nil_r, repeat_length.
    unfold PipedData.sizeof. lia.
Defined.

Lemma ReadAll_read_failure_witness :
  ReadAll 3 (mkOS 0 (map Data [repeat x01 40] ++ [Fail 9]) [])
  = (Val (inl (ErrnoToStatus 9 "Failed to read from pipe")),
     mkOS 9 [] [EvRead 3 0 1040; EvRead 3 40 1000]).
Proof.
  rewrite (@ReadAll_read_failure sample_platform 3 [repeat x01 40] 0 9 [] []).
  - reflexivity.
  - reflexivity.
  - reflexivity.
  - repeat constructor; discriminate.
  - cbn [concat]. rewrite app_nil_r, repeat_length.
    unfold PipedData.sizeof. lia.
Defined.

Lemma WriteAll_sends_every_byte_witness :
  WriteAll 4 (repeat x02 1040)
           (mkOS 0 (taken_answers [40; 1000]%nat ++ [Ret 0]) [])
  = (Val OkStatus,
     mkOS 0 [] [EvWrite 4 (repeat x02 1040); EvWrite 4 (repeat x02 1000);
                EvClose 4]).
Proof.
  rewrite (@WriteAll_sends_every_byte sample_platform 4 (repeat x02 1040)
             [40; 1000]%nat 0 (Ret 0) [] []).
  - reflexivity.
  - reflexivity.
  - repeat constructor; discriminate.
  - reflexivity.
  - reflexivity.
Defined.

Lemma WriteAll_write_failure_witness :
  WriteAll 4 (repeat x02 1040) (mkOS 0 (taken_answers [40]%nat ++ [Fail 32]) [])
  = (Val (ErrnoToStatus 32 "Failed to write to pipe"),
     mkOS 32 [] [EvWrite 4 (repeat x02 1040); EvWrite 4 (repeat x02 1000)]).
Proof.
  rewrite (@WriteAll_write_failure sample_platform 4 (repeat x02 1040)
             [40]%nat 0 32 [] []).
  - reflexivity.
  - reflexivity.
  - reflexivity.
  - repeat constructor; discriminate.
  - rewrite repeat_length. cbn [list_sum fold_right]. lia.
Defined.

Lemma ParentProcessInner_failure_classes_witness :
  let run := ParentProcessInner 77 (sample_addrs [0x50001000])
               (mkOS 0 [WStatus (W_STOPCODE SIGSTOP); Ret 0;
                        WStatus (W_STOPCODE SIGFPE)] []) in
  run = (Val (InvalidArgumentError "Floating point exception",
              sample_addrs [0x50001000]), snd run)
  /\ sample_addrs [0x50001000] = sample_addrs [0x50001000].
Proof.
  intros run.
  assert (run = (Val (InvalidArgumentError "Floating point exception",
                      sample_addrs [0x50001000]), snd run)) as E
      by reflexivity.
  split; [exact E |].
  exact (proj1 (@ParentProcessInner_failure_classes sample_platform
                  _ _ _ _ _ _ E eq_refl)).
Defined.

Lemma ParentProcess_returns_child_status_witness :
  fst (ParentProcess 77 3 (sample_addrs [0x50001000])
         (mkOS 0 [WStatus (W_STOPCODE SIGSTOP); Ret 0;
                  WStatus (W_STOPCODE SIGABRT); Ret 0; WStatus SIGKILL;
                  Data (AbortPipedData (InvalidArgumentError "no")); Ret 0] []))
  = Val (InvalidArgumentError "no", sample_addrs [0x50001000]).
Proof.
  rewrite (@ParentProcess_returns_child_status sample_platform 77 3
             (sample_addrs [0x50001000]) _ (sample_addrs [0x50001000])
             0 SIGKILL (InvalidArgumentError "no")
             [AbortPipedData (InvalidArgumentError "no")] (Ret 0) []
             [EvWaitpid 77; EvPtrace PTRACE_CONT 77; EvWaitpid 77]).
  - reflexivity.
  - reflexivity.
  - reflexivity.
  - cbn [concat]. apply app_nil_r.
  - constructor; [| constructor]. intros C.
    apply (f_equal (@length byte)) in C.
    rewrite length_AbortPipedData in C. discriminate C.
  - reflexivity.
  - discriminate.
  - cbn [code InvalidArgumentError]. unfold kInvalidArgument. lia.
  - cbn. unfold PipedData.status_message_size. lia.
  - cbn. intros [C | [C | []]]; discriminate C.
Defined.

Lemma ParentProcess_takes_code_address_witness :
  fst (ParentProcess 77 3 (sample_addrs [0x50001000])
         (mkOS 0 [WStatus (W_STOPCODE SIGSTOP); Ret 0;
                  WStatus (W_STOPCODE SIGABRT); Ret 0; WStatus SIGKILL;
                  Data (ok_frame 0x2b0000001000); Ret 0] []))
  = Val (OkStatus,
         set_code_location (sample_addrs [0x50001000]) 0x2b0000001000).
Proof.
  rewrite (@ParentProcess_takes_code_address sample_platform 77 3
             (sample_addrs [0x50001000]) _ (sample_addrs [0x50001000])
             0 SIGKILL 0x2b0000001000 [ok_frame 0x2b0000001000] (Ret 0) []
             [EvWaitpid 77; EvPtrace PTRACE_CONT 77; EvWaitpid 77]).
  - reflexivity.
  - reflexivity.
  - reflexivity.
  - cbn [concat]. apply app_nil_r.
  - constructor; [| constructor]. intros C.
    apply (f_equal (@length byte)) in C. vm_compute in C. discriminate C.
  - reflexivity.
Defined.

Lemma fill_block_stores_witness :
  snd (fill_block (S (Z.to_nat 8)) 0x1000 8 0 (mkOS 0 [] []))
  = mkOS 0 [] [EvStore 0x1000 [x08]; EvStore 0x1004 [x08]].
Proof.
  destruct (@fill_block_stores 0x1000 8 (mkOS 0 [] [])
              ltac:(lia)) as (E & _ & _).
  rewrite E. reflexivity.
Defined.

Lemma map_accessed_blocks_mmap_refused_witness :
  map_accessed_blocks 4 8 ([0x1000] ++ 0x2000 :: [0x3000])
                      (mkOS 0 (map Ret [0x1000] ++ Fail 12 :: [Ret 1040; Ret 0]) [])
  = AbortChildProcess 4
      (InternalError
         ("mapping previously discovered address " ++ fmt_p 0x2000
            ++ " failed")%string)
      (mkOS 12 [Ret 1040; Ret 0]
            ([] ++ flat_map (block_events 8) [0x1000]
                ++ [EvMmap 0x2000 8 (Z.lor PROT_READ PROT_WRITE)])).
Proof.
  apply (@map_accessed_blocks_mmap_refused sample_platform).
  - lia.
  - repeat constructor; unfold MAP_FAILED; lia.
Defined.

Lemma map_accessed_blocks_mapped_elsewhere_witness :
  map_accessed_blocks 4 8 ([0x1000] ++ 0 :: [0x3000])
                      (mkOS 0 (map Ret [0x1000] ++ Ret 0x7000 :: [Ret 1040; Ret 0]) [])
  = AbortChildProcess 4
      (InvalidArgumentError
         ("tried to map previously discovered address " ++ fmt_p 0
            ++ ", but mmap couldn't map this address" ++ nl)%string)
      (mkOS 0 [Ret 1040; Ret 0]
            ([] ++ flat_map (block_events 8) [0x1000]
                ++ [EvMmap 0 8 (Z.lor PROT_READ PROT_WRITE)]))
  /\ fmt_p 0 = "(nil)"%string.
Proof.
  split; [| reflexivity].
  apply (@map_accessed_blocks_mapped_elsewhere sample_platform).
  - lia.
  - repeat constructor; unfold MAP_FAILED; lia.
  - discriminate.
  - discriminate.
Defined.

Lemma ChildProcess_enters_block_witness :
  fst (ChildProcess (A := unit) [xc3] 4
         (mkAccessedAddrs 0 8 [0x1000] sample_regs)
         (mkOS 0 (Ret 0 :: Ret 0 :: Ret 0 :: map Ret [0x1000]
                    ++ Ret 0x2b0000001000 :: [Ret 1040; Ret 0]) []))
  = Halt (Entered 0x2b0000001000 sample_regs).
Proof.
  assert (0 <= block_size (mkAccessedAddrs 0 8 [0x1000] sample_regs)) as Hs
      by (cbn [block_size]; lia).
  assert (Forall mappable
            (accessed_blocks (mkAccessedAddrs 0 8 [0x1000] sample_regs)))
    as Hm by (repeat constructor; unfold MAP_FAILED; lia).
  assert (wrap64 0x2b0000001000 <> MAP_FAILED) as Ha by discriminate.
  pose proof (@ChildProcess_enters_block sample_platform unit [xc3] 4
                (mkAccessedAddrs 0 8 [0x1000] sample_regs) 0 0 0 0
                0x2b0000001000 [Ret 1040; Ret 0] [] OkStatus
                _ Hs Hm Ha ltac:(vm_compute; reflexivity)) as E.
  exact (f_equal fst E).
Defined.

Lemma ChildProcess_code_mmap_failure_witness :
  fst (ChildProcess (A := unit) [xc3] 4
         (mkAccessedAddrs 0 8 [0x1000] sample_regs)
         (mkOS 0 (Ret 0 :: Ret 0 :: Ret 0 :: map Ret [0x1000]
                    ++ Fail 12 :: []) []))
  = Halt Aborted.
Proof.
  assert (0 <= block_size (mkAccessedAddrs 0 8 [0x1000] sample_regs)) as Hs
      by (cbn [block_size]; lia).
  assert (Forall mappable
            (accessed_blocks (mkAccessedAddrs 0 8 [0x1000] sample_regs)))
    as Hm by (repeat constructor; unfold MAP_FAILED; lia).
  pose proof (@ChildProcess_code_mmap_failure sample_platform unit [xc3] 4
                (mkAccessedAddrs 0 8 [0x1000] sample_regs) 0 0 0 0 12 [] []
                Hs Hm) as E.
  exact (f_equal fst E).
Defined.

Lemma FindAccessedAddrs_discovers_pages_witness :
  fst (FindAccessedAddrs sample_gen [xc3]
         (mkOS 0 (Ret 4096 :: flat_map segv_trial [0x50002abc; 0x60000010]
                    ++ abrt_trial ++ []) []))
  = Val (inr (mkAccessedAddrs kDefaultCodeLocation 4096
                              [0x50002000; 0x60000000] sample_regs)).
Proof.
  rewrite (@FindAccessedAddrs_discovers_pages sample_platform sample_gen [xc3]
             0 4096 [0x50002abc; 0x60000010] [] []).
  - reflexivity.
  - reflexivity.
  - lia.
  - repeat constructor; cbn; intuition discriminate.
Defined.

Lemma FindAccessedAddrs_stops_at_known_page_witness :
  fst (FindAccessedAddrs sample_gen [xc3]
         (mkOS 0 (Ret 4096 :: flat_map segv_trial [0x50002abc]
                    ++ segv_trial 0x50002def ++ []) []))
  = Val (inr (mkAccessedAddrs kDefaultCodeLocation 4096
                              [0x50002000] sample_regs)).
Proof.
  rewrite (@FindAccessedAddrs_stops_at_known_page sample_platform sample_gen
             [xc3] 0 4096 [0x50002abc] 0x50002def [] []).
  - reflexivity.
  - reflexivity.
  - lia.
  - repeat constructor; cbn; intuition discriminate.
  - left. reflexivity.
Defined.

Lemma FindAccessedAddrs_result_frame_witness :
  let run := FindAccessedAddrs sample_gen [xc3]
               (mkOS 0 (Ret 4096 :: fpe_trial) []) in
  run = (Val (inr (set_initial_regs (sample_addrs [])
                     (fst (RandomiseRegs sample_gen sample_regs)))),
         snd run)
  /\ Forall (fun v => In v kValues)
            (regs_list (fst (RandomiseRegs sample_gen sample_regs))).
Proof.
  intros run.
  assert (run = (Val (inr (set_initial_regs (sample_addrs [])
                             (fst (RandomiseRegs sample_gen sample_regs)))),
                 snd run)) as E by (vm_compute; reflexivity).
  split; [exact E |].
  exact (proj1 (@FindAccessedAddrs_result_frame sample_platform
                  _ _ _ _ _ E)).
Defined.

Lemma FindAccessedAddrs_error_is_not_ok_witness :
  let run := FindAccessedAddrs sample_gen [xc3] (mkOS 0 [Ret 4096; Fail 24] []) in
  run = (Val (inl (ErrnoToStatus 24
                     "Failed to open pipe for communication with child process: %s")),
         snd run)
  /\ ok (ErrnoToStatus 24
           "Failed to open pipe for communication with child process: %s")
     = false.
Proof.
  intros run.
  assert (run = (Val (inl (ErrnoToStatus 24
                     "Failed to open pipe for communication with child process: %s")),
                 snd run)) as E by (vm_compute; reflexivity).
  split; [exact E |].
  exact (@FindAccessedAddrs_error_is_not_ok sample_platform _ _ _ _ _ E).
Defined.

Lemma FindAccessedAddrs_loop_returns_other_failures_witness :
  fst (FindAccessedAddrs_loop 1 [xc3] (sample_addrs []) sample_gen 0
         (mkOS 0 [Fds 3 4; Fail 11] []))
  = Val (inl (ErrnoToStatus 11 "Failed to fork")).
Proof.
  rewrite (@FindAccessedAddrs_loop_returns_other_failures sample_platform 0
             [xc3] (sample_addrs []) sample_gen 0
             (mkOS 0 [Fds 3 4; Fail 11] [])
             (ErrnoToStatus 11 "Failed to fork") (sample_addrs [])
             (mkOS 11 [] [EvPipe; EvFork])).
  - reflexivity.
  - reflexivity.
  - reflexivity.
  - reflexivity.
Defined.

(** ** The supervisor and the child's failures on sample inputs *)


Lemma ParentProcess_reads_frame_after_reaping_witness :
  let run := ParentProcess 77 3 (sample_addrs [])
               (mkOS 0 (parent_answers (segv_trial 0x50001234)) []) in
  run = (Val (OkStatus,
              mkAccessedAddrs kDefaultCodeLocation 4096 [0x50001000] sample_regs),
         snd run)
  /\ exists pd, PipedData.status_code pd = kOk /\
                kDefaultCodeLocation = PipedData.code_address pd.
Proof.
  intros run.
  assert (run = (Val (OkStatus,
                      mkAccessedAddrs kDefaultCodeLocation 4096 [0x50001000]
                                      sample_regs),
                 snd run)) as E by (vm_compute; reflexivity).
  split; [exact E |].
  destruct (@ParentProcess_reads_frame_after_reaping sample_platform 77 3
              (sample_addrs [])
              (mkOS 0 (parent_answers (segv_trial 0x50001234)) []))
    as (_ & Hval).
  destruct (Hval _ _ _ E)
    as (result & aa0 & e1 & a_kill & rest1 & lg1 & _ & _ & _ & _ & Hok & _).
  destruct (Hok eq_refl) as (_ & _ & a_wait & rest2 & pd & _ & _ & Hc & Ha).
  exists pd. split; [exact Hc |].
  exact (f_equal code_location Ha).
Defined.

(** C8 fails on the code: a child that cannot map the code aborts
    without a frame; nothing at all is written to the pipe. *)
Lemma ChildProcess_aborts_without_frame :
  ChildProcess (A := unit) [xc3] 4 (sample_addrs [])
               (mkOS 0 [Ret 0; Ret 0; Ret 0; Fail 12] [])
  = (Halt Aborted,
     mkOS 12 []
          [EvPtrace PTRACE_TRACEME 0; EvRaise SIGSTOP;
           EvMunmap 0x800000000 0x10000;
           EvMmap kDefaultCodeLocation 4 (Z.lor PROT_WRITE PROT_EXEC);
           EvPerror])
  /\ Forall (fun ev => ~ write_of 4 ev)
            (log (snd (ChildProcess (A := unit) [xc3] 4 (sample_addrs [])
                         (mkOS 0 [Ret 0; Ret 0; Ret 0; Fail 12] [])))).
Proof.
  split; [vm_compute; reflexivity |].
  vm_compute. repeat constructor; intros (bs & C); discriminate C.
Qed.

Lemma ChildProcess_failure_frames_witness :
  PipedData.status_code (AbortPipedData (InvalidArgumentError "no"))
  = kInvalidArgument
  /\ fst (ChildProcess (A := unit) [xc3] 4
            (mkAccessedAddrs 0 8 [0x1000] sample_regs)
            (mkOS 0 (Ret 0 :: Ret 0 :: Ret 0 :: map Ret [0x1000]
                       ++ Fail 12 :: []) []))
     = Halt Aborted.
Proof.
  destruct (@ChildProcess_failure_frames sample_platform 4)
    as (Hframe & _ & _ & Hcode & _).
  split.
  - destruct (Hframe (InvalidArgumentError "no")) as (_ & _ & Hc & _).
    rewrite Hc. reflexivity.
  - assert (0 <= block_size (mkAccessedAddrs 0 8 [0x1000] sample_regs)) as Hs
        by (cbn [block_size]; lia).
    assert (Forall mappable
              (accessed_blocks (mkAccessedAddrs 0 8 [0x1000] sample_regs)))
      as Hm by (repeat constructor; unfold MAP_FAILED; lia).
    exact (f_equal fst
             (Hcode unit [xc3] (mkAccessedAddrs 0 8 [0x1000] sample_regs)
                    0 0 0 0 12%positive [] [] Hs Hm)).
Defined.

End FurtherSamples.
